(** * blueoak-server: the service loader and the swagger value coercion

    A shallow embedding of the service loader (the dependency-injection
    loader that [createLoader] returns) and of [lib/swaggerUtil.js]
    (the coercion of query-string values against a swagger schema),
    with the properties of the specification stated over them.

    Conventions of the embedding.
    - JavaScript strings are Rocq [string]s; identifiers are taken to be
      7-bit ASCII, so [\s] is the ASCII white space and [toLowerCase]
      acts on [A-Z] only.  Outside ASCII the code does more (a no-break
      space is white space, an accented capital is lowered): what is
      stated for all strings holds of the code for ASCII strings, and
      the conversion of a string to a number is left unmodelled outside
      ASCII.
    - A plain JavaScript object used as a map is a [dict]: its own
      properties as an association list in creation order, read through
      [dict_get], which also sees the properties every object inherits
      from [Object.prototype].
    - Code that throws is a function into a result type with an
      exception case; code that mutates the loader's closure variables
      threads a [Registry] record. *)

From Stdlib Require Import String Ascii List Bool Arith ZArith Lia.
Import ListNotations.

Local Open Scope string_scope.
Local Open Scope list_scope.
Set Warnings "-register-all".

(* ================================================================== *)
(** ** Service names: [normalizeServiceName] *)
(* ================================================================== *)

Module Names.

(** The character class [[A-Z]]. *)
Definition is_upper (c : ascii) : bool :=
  let n := nat_of_ascii c in (65 <=? n)%nat && (n <=? 90)%nat.

(** The character class [\s] on ASCII: tab, line feed, vertical tab,
    form feed, carriage return, space. *)
Definition is_space (c : ascii) : bool :=
  let n := nat_of_ascii c in
  ((9 <=? n)%nat && (n <=? 13)%nat) || (n =? 32)%nat.

(** The character class [[-_\s]]. *)
Definition is_separator (c : ascii) : bool :=
  Ascii.eqb c "-" || Ascii.eqb c "_" || is_space c.

Definition lower_char (c : ascii) : ascii :=
  if is_upper c then ascii_of_nat (nat_of_ascii c + 32) else c.

(** [str.replace(/([A-Z])/g, '-$1')] *)
Fixpoint dash_capitals (s : string) : string :=
  match s with
  | EmptyString => EmptyString
  | String c s' =>
      if is_upper c then String "-" (String c (dash_capitals s'))
      else String c (dash_capitals s')
  end.

(** [str.replace(/[-_\s]+/g, '-')]: every maximal run of separators
    becomes one dash.  [in_run] tells that the previous character
    belonged to a run whose dash has been written already. *)
Fixpoint collapse_separators (in_run : bool) (s : string) : string :=
  match s with
  | EmptyString => EmptyString
  | String c s' =>
      if is_separator c then
        if in_run then collapse_separators true s'
        else String "-" (collapse_separators true s')
      else String c (collapse_separators false s')
  end.

(** [str.toLowerCase()] *)
Fixpoint toLowerCase (s : string) : string :=
  match s with
  | EmptyString => EmptyString
  | String c s' => String (lower_char c) (toLowerCase s')
  end.

(** [str.replace(/([A-Z])/g, '-$1').replace(/[-_\s]+/g, '-').toLowerCase()],
    as it acts on an ASCII name. *)
Definition normalizeServiceName (str : string) : string :=
  toLowerCase (collapse_separators false (dash_capitals str)).

Definition normalizeServiceNames (names : list string) : list string :=
  map normalizeServiceName names.

(** A string in which the only separators are single dashes; [prev] tells
    that the character before the string is a separator. *)
Fixpoint single_dashes (prev : bool) (s : string) : Prop :=
  match s with
  | EmptyString => True
  | String c s' =>
      if is_separator c
      then c = "-"%char /\ prev = false /\ single_dashes true s'
      else single_dashes false s'
  end.

(** The string with every character replaced through [f]. *)
Fixpoint map_string (f : ascii -> ascii) (s : string) : string :=
  match s with
  | EmptyString => EmptyString
  | String c s' => String (f c) (map_string f s')
  end.

(** No character of the string is in [[A-Z]]. *)
Fixpoint no_capitals (s : string) : Prop :=
  match s with
  | EmptyString => True
  | String c s' => is_upper c = false /\ no_capitals s'
  end.

(** The character is one of the 128 characters of ASCII. *)
Definition is_ascii (c : ascii) : bool := (nat_of_ascii c <? 128)%nat.

(** Every character of the string is in ASCII: on such strings [\s] and
    [toLowerCase] are what [is_space] and [lower_char] say. *)
Fixpoint ascii_only (s : string) : bool :=
  match s with
  | EmptyString => true
  | String c s' => is_ascii c && ascii_only s'
  end.

End Names.

(* ================================================================== *)
(** ** JavaScript values and plain objects used as maps *)
(* ================================================================== *)

Module JS.

(** An [Error] object; only its [message] is observed. *)
Record Error := mkError { message : string }.

(** What a piece of code does: it completes with a value or throws. *)
Inductive completion (A : Type) :=
| Normal (a : A)
| Throw (e : Error).
Arguments Normal {A} a.
Arguments Throw {A} e.

(** The values the loader and the coercion handle.  Numbers are the
    integer-valued ones and [NaN]; an object is known by its reference
    only; [VBuiltin name] is the property [name] that every object
    inherits from [Object.prototype]. *)
Inductive value :=
| VUndefined
| VNull
| VBool (b : bool)
| VNumber (n : Z)
| VNaN
| VString (s : string)
| VObject (ref : nat)
| VBuiltin (name : string)
| VArray (items : list value).

(** ToBoolean. *)
Definition truthy (v : value) : bool :=
  match v with
  | VUndefined | VNull | VNaN => false
  | VBool b => b
  | VNumber n => negb (n =? 0)%Z
  | VString s => negb (String.eqb s EmptyString)
  | VObject _ | VBuiltin _ | VArray _ => true
  end.

(** Own properties, in creation order. *)
Definition dict (A : Type) := list (string * A).

Section Dict.
Context {A : Type}.

Fixpoint own (d : dict A) (k : string) : option A :=
  match d with
  | [] => None
  | (k', a) :: d' => if String.eqb k k' then Some a else own d' k
  end.

(** [d[k] = a]: an existing property keeps its place, a new one goes
    last. *)
Fixpoint dict_set (k : string) (a : A) (d : dict A) : dict A :=
  match d with
  | [] => [(k, a)]
  | (k', a') :: d' =>
      if String.eqb k k' then (k, a) :: d' else (k', a') :: dict_set k a d'
  end.

(** [delete d[k]] *)
Fixpoint dict_delete (k : string) (d : dict A) : dict A :=
  match d with
  | [] => []
  | (k', a') :: d' =>
      if String.eqb k k' then dict_delete k d'
      else (k', a') :: dict_delete k d'
  end.

End Dict.

(** The property names of [Object.prototype]. *)
Definition Object_prototype : list string :=
  [ "constructor"; "toString"; "toLocaleString"; "valueOf";
    "hasOwnProperty"; "isPrototypeOf"; "propertyIsEnumerable";
    "__proto__"; "__defineGetter__"; "__defineSetter__";
    "__lookupGetter__"; "__lookupSetter__" ].

Definition inherited (k : string) : bool :=
  existsb (String.eqb k) Object_prototype.

(** The result of reading [d[k]] on an object literal [{}] with own
    properties [d]. *)
Inductive lookup (A : Type) :=
| Own (a : A)
| Inherited (name : string)
| Absent.
Arguments Own {A} a.
Arguments Inherited {A} name.
Arguments Absent {A}.

Definition dict_get {A : Type} (d : dict A) (k : string) : lookup A :=
  match own d k with
  | Some a => Own a
  | None => if inherited k then Inherited k else Absent
  end.

(** Truthiness of [d[k]], given the truthiness of the stored values. *)
Definition lookup_truthy {A : Type} (t : A -> bool) (l : lookup A) : bool :=
  match l with
  | Own a => t a
  | Inherited _ => true
  | Absent => false
  end.

Definition lookup_value (l : lookup value) : value :=
  match l with
  | Own v => v
  | Inherited name => VBuiltin name
  | Absent => VUndefined
  end.

(** *** The order of [for (var k in d)]

    Keys that are array indices ("0", "7", "42": canonical decimal
    numerals below 2^32 - 1) come first, in ascending numeric order; the
    other keys follow in creation order.  Inherited properties are not
    enumerable. *)

Definition is_digit (c : ascii) : bool :=
  let n := nat_of_ascii c in (48 <=? n)%nat && (n <=? 57)%nat.

Fixpoint digits_value (acc : N) (s : string) : option N :=
  match s with
  | EmptyString => Some acc
  | String c s' =>
      if is_digit c
      then digits_value (acc * 10 + (N_of_ascii c - 48))%N s'
      else None
  end.

Definition array_index (k : string) : option N :=
  match k with
  | EmptyString => None
  | String c rest =>
      if Ascii.eqb c "0" then
        (if String.eqb rest EmptyString then Some 0%N else None)
      else
        match digits_value 0%N k with
        | Some n => if (n <? 4294967295)%N then Some n else None
        | None => None
        end
  end.

Fixpoint insert_index (n : N) (k : string) (l : list (N * string))
  : list (N * string) :=
  match l with
  | [] => [(n, k)]
  | (m, k') :: l' =>
      if (n <? m)%N then (n, k) :: l else (m, k') :: insert_index n k l'
  end.

Fixpoint index_keys (ks : list string) : list (N * string) :=
  match ks with
  | [] => []
  | k :: ks' =>
      match array_index k with
      | Some n => insert_index n k (index_keys ks')
      | None => index_keys ks'
      end
  end.

Definition is_index (k : string) : bool :=
  match array_index k with Some _ => true | None => false end.

Definition own_keys {A : Type} (d : dict A) : list string :=
  let ks := map fst d in
  map snd (index_keys ks) ++ filter (fun k => negb (is_index k)) ks.

End JS.

(* ================================================================== *)
(** ** The loader: [createLoader] *)
(* ================================================================== *)

Module Loader.
Import Names JS.

(** *** Service modules

    A module is opaque to the loader except for its [init] function and
    its optional [getDependencies] hook.  [init] is known by what the
    signature introspector [di] says about it and by what a call does.

    A synchronous [init] returns or throws.  An asynchronous one (its
    last parameter is the callback) reports through the callback, at most
    once: during the call, in a later turn of the event loop (the [tick]
    orders such calls within one group), or never; or it throws before
    it has called back. *)

Inductive sync_outcome :=
| Returns
| Throws (e : Error).

Inductive async_outcome :=
| CallsBackNow (err : option Error)
| CallsBackLater (tick : nat) (err : option Error)
| NeverCallsBack
| ThrowsInCall (e : Error).

Inductive init_function :=
| SyncInit (params : list string) (body : list value -> sync_outcome)
| AsyncInit (params : list string) (body : list value -> async_outcome).

(** Modelled from the spec: the module [./di] is missing.  "Signature
    introspector: paramNames(initFunction) -> ordered sequence of raw
    names; hasTrailingCallback(initFunction) -> boolean".  The names are
    those of the dependencies: the loader appends the callback itself. *)
Definition di_getParamNames (f : init_function) : list string :=
  match f with
  | SyncInit params _ | AsyncInit params _ => params
  end.

(** Modelled from the spec: the module [./di] is missing.  "hasTrailingCallback
    (initFunction) -> boolean". *)
Definition di_hasCallback (f : init_function) : bool :=
  match f with
  | SyncInit _ _ => false
  | AsyncInit _ _ => true
  end.

Record Module := mkModule {
  mod_ref : nat;                 (* the identity of the module object *)
  __id : string;                 (* the field [subRequire] inserts *)
  mod_init : init_function;
  mod_getDependencies : option (value -> list string)
}.

Definition module_value (m : Module) : value := VObject (mod_ref m).

Definition module_lookup_value (l : lookup Module) : value :=
  match l with
  | Own m => module_value m
  | Inherited name => VBuiltin name
  | Absent => VUndefined
  end.

(** *** The external loader *)

(** Modelled from the spec: the module [./subRequire] is missing.  "Module
    loader: load(identifier) -> module; unload(identifier) invalidates
    any cache so a later load re-reads fresh content; fails with a load
    error if the target cannot be found/resolved".  [source] is what can
    be loaded at present, [cache] what has been loaded, [requests] the
    calls received, as (identifier, requiring module). *)
Record ExternalLoader := mkExternalLoader {
  source : dict Module;
  cache : dict Module;
  requests : list (string * string)
}.

(** Modelled from the spec: the load error of the missing module
    [./subRequire], with the message of [require]. *)
Definition cannot_find (id : string) : Error :=
  mkError ("Cannot find module '" ++ id ++ "'").

(** Modelled from the spec: [subRequire(id, parentId)] of the missing
    module [./subRequire]: the cached module if there is one, else the
    one read from the source, which is then cached; a load error if there
    is none. *)
Definition subRequire (id parentId : string) (ld : ExternalLoader)
  : completion Module * ExternalLoader :=
  let reqs := requests ld ++ [(id, parentId)] in
  match own (cache ld) id with
  | Some m => (Normal m, mkExternalLoader (source ld) (cache ld) reqs)
  | None =>
      match own (source ld) id with
      | Some m =>
          (Normal m,
           mkExternalLoader (source ld) (dict_set id m (cache ld)) reqs)
      | None =>
          (Throw (cannot_find id),
           mkExternalLoader (source ld) (cache ld) reqs)
      end
  end.

(** Modelled from the spec: [subRequire.unload(id)] of the missing
    module [./subRequire], which "invalidates any cache so a later load
    re-reads fresh content". *)
Definition subRequire_unload (id : string) (ld : ExternalLoader)
  : ExternalLoader :=
  mkExternalLoader (source ld) (dict_delete id (cache ld)) (requests ld).

(** *** The closure variables of [createLoader] *)

Record Registry := mkRegistry {
  moduleMap : dict Module;             (* map id to module *)
  dependencyMap : dict (list string);  (* map id to list of dependencies *)
  injectedMap : dict value;            (* objects that were manually injected *)
  consumerMap : dict Module;           (* consumers *)
  loader : ExternalLoader              (* the state behind [subRequire] *)
}.

Definition createLoader (ld : ExternalLoader) : Registry :=
  mkRegistry [] [] [] [] ld.

(** Truthiness of [dependencyMap[id]], [injectedMap[id]] and
    [consumerMap[id]]: arrays and module objects are always truthy, an
    injected value is what the caller passed. *)
Definition has_dependencies (r : Registry) (id : string) : bool :=
  lookup_truthy (fun _ => true) (dict_get (dependencyMap r) id).

Definition has_injected (r : Registry) (id : string) : bool :=
  lookup_truthy truthy (dict_get (injectedMap r) id).

Definition has_consumer (r : Registry) (id : string) : bool :=
  lookup_truthy (fun _ => true) (dict_get (consumerMap r) id).

(** [loadExternalModule(parentId, id)]: nothing is registered when
    [subRequire] throws. *)
Definition loadExternalModule (parentId id : string) (r : Registry)
  : completion unit * Registry :=
  match subRequire id parentId (loader r) with
  | (Throw err, ld) =>
      (Throw err,
       mkRegistry (moduleMap r) (dependencyMap r) (injectedMap r)
                  (consumerMap r) ld)
  | (Normal m, ld) =>
      (Normal tt,
       mkRegistry
         (dict_set id m (moduleMap r))
         (dict_set id (normalizeServiceNames (di_getParamNames (mod_init m)))
                   (dependencyMap r))
         (injectedMap r) (consumerMap r) ld)
  end.

(** [new Error('Error loading dependency ' + depId + ' for ' + id + ': '
    + err.message)] *)
Definition load_error (depId id : string) (err : Error) : Error :=
  mkError ("Error loading dependency " ++ depId ++ " for " ++ id ++ ": "
           ++ message err).

(** The body of [deps.forEach(function (depId) {...})] for the module
    [id]; the flag is [runAgain]. *)
Fixpoint visit_dependencies (id : string) (deps : list string)
    (runAgain : bool) (r : Registry) : completion bool * Registry :=
  match deps with
  | [] => (Normal runAgain, r)
  | depId :: rest =>
      if negb (has_dependencies r depId) && negb (has_injected r depId) then
        match loadExternalModule id depId r with
        | (Throw err, r') => (Throw (load_error depId id err), r')
        | (Normal _, r') => visit_dependencies id rest true r'
        end
      else visit_dependencies id rest runAgain r
  end.

(** The loop [for (var id in dependencyMap)], over the keys it enumerates
    (fixed when the loop starts); [dependencyMap[id]] is read when [id]
    is reached. *)
Fixpoint visit_modules (ids : list string) (runAgain : bool) (r : Registry)
  : completion bool * Registry :=
  match ids with
  | [] => (Normal runAgain, r)
  | id :: rest =>
      match dict_get (dependencyMap r) id with
      | Own deps =>
          match visit_dependencies id deps runAgain r with
          | (Throw err, r') => (Throw err, r')
          | (Normal again, r') => visit_modules rest again r'
          end
      | _ =>
          (Throw (mkError "Cannot read property 'forEach' of undefined"), r)
      end
  end.

(** [fetchUnmetDependencies] calls itself as long as a pass has loaded
    something; [fuel] bounds the number of passes, and [None] says that
    it was used up. *)
Fixpoint fetchUnmetDependencies_passes (fuel : nat) (r : Registry)
  : option (completion unit) * Registry :=
  match fuel with
  | O => (None, r)
  | S fuel' =>
      match visit_modules (own_keys (dependencyMap r)) false r with
      | (Throw err, r') => (Some (Throw err), r')
      | (Normal true, r') => fetchUnmetDependencies_passes fuel' r'
      | (Normal false, r') => (Some (Normal tt), r')
      end
  end.

(** Every pass but the last one loads a module that was neither loaded
    before nor has dependencies registered, so there are at most as many
    of them as the external loader has modules. *)
Definition enough_passes (r : Registry) : nat :=
  S (S (length (source (loader r)) + length (cache (loader r)))).

(** [fetchUnmetDependencies()], with as many passes as it can need. *)
Definition fetchUnmetDependencies (r : Registry)
  : option (completion unit) * Registry :=
  fetchUnmetDependencies_passes (enough_passes r) r.

(** *** The course of a resolution

    [unmet r id]: the test [!dependencyMap[id] && !injectedMap[id]].
    [loads n r r']: [r'] comes from [r] by [n] successful loads of
    dependencies that were unmet when they were loaded. *)
Definition unmet (r : Registry) (id : string) : Prop :=
  has_dependencies r id = false /\ has_injected r id = false.

Inductive loads : nat -> Registry -> Registry -> Prop :=
| loads_none r : loads 0 r r
| loads_more n r r1 r' parentId id :
    loads n r r1 ->
    unmet r1 id ->
    loadExternalModule parentId id r1 = (Normal tt, r') ->
    loads (S n) r r'.

(** What a resolution that comes to an end has done: some successful
    loads, and then either nothing more, or one load that failed and whose
    error, with the two identifiers added, is thrown. *)
Inductive resolution {A : Type} (r : Registry)
  : completion A -> Registry -> Prop :=
| resolution_done n a r' :
    loads n r r' ->
    resolution r (Normal a) r'
| resolution_failed n r1 id depId err r' :
    loads n r r1 ->
    unmet r1 depId ->
    loadExternalModule id depId r1 = (Throw err, r') ->
    resolution r (Throw (load_error depId id err)) r'.

(** The identifiers that the external loader knows, and how many of them
    have no dependencies registered yet. *)
Definition known (U : list string) (r : Registry) : Prop :=
  forall k,
    own (cache (loader r)) k <> None \/ own (source (loader r)) k <> None ->
    In k U.

Definition unregistered (r : Registry) (k : string) : bool :=
  match own (dependencyMap r) k with
  | Some _ => false
  | None => true
  end.

Definition unmet_count (U : list string) (r : Registry) : nat :=
  List.length (filter (unregistered r) U).

(** The requests that the external loader has received between two
    states of the registry. *)
Definition new_requests (r r' : Registry) : list (string * string) :=
  skipn (List.length (requests (loader r))) (requests (loader r')).

(** *** Registration *)

(** [inject(id, obj, deps)]; [deps] is [None] when the argument is left
    out. *)
Definition inject (id : string) (obj : value) (deps : option (list string))
    (r : Registry) : Registry :=
  let normId := normalizeServiceName id in
  mkRegistry
    (moduleMap r)
    (match deps with
     | Some ds => dict_set normId (normalizeServiceNames ds) (dependencyMap r)
     | None => dependencyMap r
     end)
    (dict_set normId obj (injectedMap r))
    (consumerMap r) (loader r).

(** [path.extname(file) === '.js'], for the entry of a directory. *)
Definition is_js_file (file : string) : bool :=
  (3 <? String.length file)%nat
  && String.eqb (substring (String.length file - 3) 3 file) ".js".

(** Modelled from the spec: [subRequire(modPath)] of the missing module
    [./subRequire], as [loadServices] calls it: a load by the path of a
    file, with no requiring module.  [m] is the module that the file
    gives ("load(identifier) -> module"); the loader has received the
    call, recorded with an empty requiring module, and holds the module in
    its cache under the path.  The path is represented by the name of
    the file. *)
Definition subRequire_path (modPath : string) (m : Module)
    (ld : ExternalLoader) : ExternalLoader :=
  mkExternalLoader (source ld) (dict_set modPath m (cache ld))
                   (requests ld ++ [(modPath, EmptyString)]).

(** [loadServices(dir)], given what the file system and [subRequire] answer:
    [None] when [dir] does not exist, else its entries, each with the
    module that loading it gives. *)
Fixpoint register_services (files : list (string * Module)) (r : Registry)
  : Registry :=
  match files with
  | [] => r
  | (file, m) :: rest =>
      if is_js_file file then
        let ld := subRequire_path file m (loader r) in
        let normId := normalizeServiceName (__id m) in
        register_services rest
          (mkRegistry
             (dict_set normId m (moduleMap r))
             (dict_set normId
                (normalizeServiceNames (di_getParamNames (mod_init m)))
                (dependencyMap r))
             (injectedMap r) (consumerMap r) ld)
      else register_services rest r
  end.

Definition loadServices (dir : option (list (string * Module)))
    (r : Registry) : Registry :=
  match dir with
  | Some files => register_services files r
  | None => r
  end.


(** *** The order of initialization: [calculateDependencyTree] *)

(** [_.unique]: the first occurrence of each element, in order. *)
Fixpoint unique_from (seen : list string) (l : list string) : list string :=
  match l with
  | [] => []
  | x :: l' =>
      if existsb (String.eqb x) seen then unique_from seen l'
      else x :: unique_from (x :: seen) l'
  end.

Definition unique (l : list string) : list string := unique_from [] l.

Definition static_dependencies (r : Registry) (id : string) : list string :=
  match dict_get (dependencyMap r) id with
  | Own deps => deps
  | _ => []
  end.

(** The arguments of [depCalc.addNode] for a key of [dependencyMap]. *)
Definition node_of (r : Registry) (id : string) : string * list string :=
  match dict_get (moduleMap r) id with
  | Own m =>
      match mod_getDependencies m with
      | Some getDependencies =>
          let deps :=
            normalizeServiceNames
              (getDependencies
                 (lookup_value (dict_get (injectedMap r) "service-loader"))) in
          (id, unique (deps ++ static_dependencies r id))
      | None => (id, static_dependencies r id)
      end
  | _ => (id, static_dependencies r id)
  end.

(** All the calls of [depCalc.addNode], in order. *)
Definition graph_nodes (r : Registry) : list (string * list string) :=
  map (node_of r) (own_keys (dependencyMap r))
  ++ flat_map (fun id => if has_dependencies r id then [] else [(id, [])])
              (own_keys (injectedMap r)).

(** *** Initialization: the events of a run of [init]

    [EInit id args]: the [init] of the module [id] is called with the
    dependencies [args].  [ECallback err]: the completion callback of the
    run is called, with [err] as its only argument.  [EUncaught e]: the
    exception [e] is raised inside the iteration, where nothing hands it to
    a callback; it leaves [init], or the turn of the event loop that was
    running, as an exception.  (Where the iteration runs inside the [try]
    of a synchronous service that has just completed, the [catch] calls
    the callback of that service a second time, which [async] answers
    with an exception of its own: what leaves is an exception in any
    case.)

    The functions [each] and [eachSeries] of the [async] package are
    embedded by what they do: [each] applies the iterator to every
    element at once, calls its callback with the first error, and without
    error when every element has completed; [eachSeries] starts an
    element when the one before has completed without error, and calls
    its callback with the first error or after the last element. *)
Inductive event :=
| EInit (id : string) (args : list value)
| ECallback (err : option Error)
| EUncaught (e : Error).

(** What the iterator of [async.each] has done with one service when it
    returns. *)
Inductive dispatched :=
| Completed (err : option Error)         (* [serviceCallback] was called *)
| Waiting (tick : nat) (err : option Error)  (* it will be, at [tick] *)
| Silent                                 (* it never will *)
| Raised (e : Error).                    (* the iterator threw *)

(** [moduleMap[dep] || injectedMap[dep]] *)
Definition resolve_dependency (r : Registry) (dep : string) : value :=
  match dict_get (moduleMap r) dep with
  | Own m => module_value m
  | Inherited name => VBuiltin name
  | Absent => lookup_value (dict_get (injectedMap r) dep)
  end.

Definition undefined_has_no (property : string) : Error :=
  mkError ("Cannot read property '" ++ property ++ "' of undefined").

(** The iterator [function (serviceId, serviceCallback) {...}].  Reading
    [toLoad.init] when no module is registered, and [deps.length] when no
    dependencies are, is a TypeError.  (A key that [moduleMap] only
    inherits is inherited by [injectedMap] as well, so the first test has
    answered for it, unless a falsy value was injected under that very
    key; [toLoad.init] is [undefined] then, and the iterator is taken to
    throw as well.) *)
Definition init_service (r : Registry) (serviceId : string)
  : list event * dispatched :=
  if has_injected r serviceId || has_consumer r serviceId then
    ([], Completed None)
  else
    match dict_get (moduleMap r) serviceId with
    | Own toLoad =>
        match dict_get (dependencyMap r) serviceId with
        | Own deps =>
            let params := map (resolve_dependency r) deps in
            match mod_init toLoad with
            | AsyncInit _ body =>
                ([EInit serviceId params],
                 match body params with
                 | CallsBackNow err => Completed err
                 | CallsBackLater tick err => Waiting tick err
                 | NeverCallsBack => Silent
                 | ThrowsInCall e => Raised e   (* no [try] around the call *)
                 end)
            | SyncInit _ body =>
                ([EInit serviceId params],
                 match body params with
                 | Returns => Completed None
                 | Throws err => Completed (Some err)
                 end)
            end
        | _ => ([], Raised (undefined_has_no "length"))
        end
    | _ => ([], Raised (undefined_has_no "init"))
    end.

(** The state of one [async.each]: how many services have completed, and
    whether its callback has been called with an error (after which it is
    replaced by a function that does nothing); and the services whose
    callback is still to come, by tick. *)
Record each_state := mkEach {
  completed : nat;
  delivered : bool;
  waiting : list (nat * option Error)
}.

(** A call of [serviceCallback(err)].  An error goes to the group's
    callback, from there to the callback of [async.eachSeries] and to the
    caller's [callback]. *)
Definition service_done (err : option Error) (st : each_state)
  : list event * each_state :=
  match err with
  | Some e =>
      if delivered st then ([], st)
      else ([ECallback (Some e)], mkEach (completed st) true (waiting st))
  | None => ([], mkEach (S (completed st)) (delivered st) (waiting st))
  end.

Fixpoint insert_tick (t : nat) (err : option Error)
    (ws : list (nat * option Error)) : list (nat * option Error) :=
  match ws with
  | [] => [(t, err)]
  | (t', err') :: ws' =>
      if (t <? t')%nat then (t, err) :: ws
      else (t', err') :: insert_tick t err ws'
  end.

(** The iterator applied to each service of the group in turn; it stops
    when the iterator throws. *)
Fixpoint dispatch (r : Registry) (serviceIds : list string) (st : each_state)
  : list event * each_state :=
  match serviceIds with
  | [] => ([], st)
  | serviceId :: rest =>
      let (evs, d) := init_service r serviceId in
      match d with
      | Raised e => (evs ++ [EUncaught e], st)
      | Completed err =>
          let (evs1, st1) := service_done err st in
          let (evs2, st2) := dispatch r rest st1 in
          (evs ++ evs1 ++ evs2, st2)
      | Waiting tick err =>
          let (evs2, st2) :=
            dispatch r rest
              (mkEach (completed st) (delivered st)
                      (insert_tick tick err (waiting st))) in
          (evs ++ evs2, st2)
      | Silent =>
          let (evs2, st2) := dispatch r rest st in
          (evs ++ evs2, st2)
      end
  end.

(** The callbacks that come in later turns of the event loop. *)
Fixpoint settle (ws : list (nat * option Error)) (st : each_state)
  : list event * each_state :=
  match ws with
  | [] => ([], st)
  | (_, err) :: ws' =>
      let (evs1, st1) := service_done err st in
      let (evs2, st2) := settle ws' st1 in
      (evs1 ++ evs2, st2)
  end.

(** [async.each(serviceIds, iterator, groupCallback)]: the events, and
    whether [groupCallback] is called without an error, which is when
    every service of the group has completed. *)
Definition each (r : Registry) (serviceIds : list string)
  : list event * bool :=
  let (evs1, st1) := dispatch r serviceIds (mkEach 0 false []) in
  let (evs2, st2) := settle (waiting st1) st1 in
  (evs1 ++ evs2, (completed st2 =? List.length serviceIds)%nat).

(** [async.eachSeries(depGroups, ..., function (err) { callback(err); })] *)
Fixpoint eachSeries (r : Registry) (depGroups : list (list string))
  : list event :=
  match depGroups with
  | [] => [ECallback None]
  | serviceIds :: rest =>
      let (evs, ok) := each r serviceIds in
      if ok then evs ++ eachSeries r rest else evs
  end.

(** *** The first error of a group

    The services of a group that the iterator reaches are those before
    the first one at which it throws.  Their callbacks are called in this
    order: those called during the dispatch, in the order of the group;
    then the later ones, by tick. *)
Fixpoint reached (r : Registry) (serviceIds : list string) : list dispatched :=
  match serviceIds with
  | [] => []
  | serviceId :: rest =>
      match snd (init_service r serviceId) with
      | Raised _ => []
      | d => d :: reached r rest
      end
  end.

Definition immediate (ds : list dispatched) : list (option Error) :=
  flat_map (fun d => match d with Completed err => [err] | _ => [] end) ds.

Fixpoint deferred (ds : list dispatched) (ws : list (nat * option Error))
  : list (nat * option Error) :=
  match ds with
  | [] => ws
  | Waiting tick err :: ds' => deferred ds' (insert_tick tick err ws)
  | _ :: ds' => deferred ds' ws
  end.

Definition completion_order (ds : list dispatched) : list (option Error) :=
  immediate ds ++ map snd (deferred ds []).

Fixpoint first_error (errs : list (option Error)) : option Error :=
  match errs with
  | [] => None
  | Some e :: _ => Some e
  | None :: rest => first_error rest
  end.

Definition group_error (r : Registry) (serviceIds : list string)
  : option Error :=
  first_error (completion_order (reached r serviceIds)).

(** The completions without an error, and what the callback of the run
    is called with for a first error. *)
Definition count_ok (errs : list (option Error)) : nat :=
  List.length (filter (fun err => match err with None => true | _ => false end)
                      errs).

Definition reported (err : option Error) : list (option Error) :=
  match err with
  | Some e => [Some e]
  | None => []
  end.

Definition is_error (err : option Error) : bool :=
  match err with Some _ => true | None => false end.

(** The group's callback is called without an error. *)
Definition group_ok (r : Registry) (serviceIds : list string) : bool :=
  snd (each r serviceIds).

(** The [init] of the service is called when its turn comes. *)
Definition starts (r : Registry) (serviceId : string) : bool :=
  match fst (init_service r serviceId) with
  | [] => false
  | _ => true
  end.

(** The iterator has left the service completed, or to complete, without
    an error. *)
Definition completes (d : dispatched) : bool :=
  match d with
  | Completed None | Waiting _ None => true
  | _ => false
  end.

(** The service completes without an error. *)
Definition succeeds (r : Registry) (serviceId : string) : bool :=
  match snd (init_service r serviceId) with
  | Completed None | Waiting _ None => true
  | _ => false
  end.

(** The service reports the error [e]: its synchronous [init] throws it,
    or its asynchronous [init] passes it to the callback, during the call
    or in a later turn. *)
Definition reports (r : Registry) (serviceId : string) (e : Error) : Prop :=
  snd (init_service r serviceId) = Completed (Some e)
  \/ exists tick, snd (init_service r serviceId) = Waiting tick (Some e).

(** The iterator throws at the service. *)
Definition raises (r : Registry) (serviceId : string) : Prop :=
  exists e, snd (init_service r serviceId) = Raised e.

(** What the run shows of a service after the call of its [init], when
    the service is a group of its own: the completion callback called
    with the error that the service reports, or the exception that leaves
    the iterator. *)
Definition service_outcome (d : dispatched) : list event :=
  match d with
  | Completed (Some e) | Waiting _ (Some e) => [ECallback (Some e)]
  | Raised e => [EUncaught e]
  | _ => []
  end.

(** The callbacks to come are in the order of their ticks. *)
Fixpoint by_tick (ws : list (nat * option Error)) : Prop :=
  match ws with
  | [] => True
  | w :: ws' => (forall x, In x ws' -> fst w <= fst x) /\ by_tick ws'
  end.

(** During the resolution from [r] to [r'] the external loader was asked
    for [depId] on behalf of [id] and could not provide it. *)
Definition load_failed (r r' : Registry) (depId id : string) : Prop :=
  In (depId, id) (new_requests r r')
  /\ own (cache (loader r')) depId = None
  /\ own (source (loader r')) depId = None.

Section WithDependencyCalc.

(** The module [./dependencyCalc] is missing: what [depCalc.calcGroups()]
    answers after the given calls of [depCalc.addNode] is a parameter. *)
Variable depCalc : list (string * list string) -> completion (list (list string)).

(** [initList] is [None] when the list is left out ([null]). *)
Definition calculateDependencyTree (initList : option (list string))
    (r : Registry) : completion (list (list string)) :=
  match initList with
  | Some ids => Normal (map (fun id => [id]) ids)
  | None => depCalc (graph_nodes r)
  end.

(** [init(initList, callback)]: the events of the run and the registry it
    leaves; [None] if the resolution of the external dependencies has
    not come to an end. *)
Definition init (initList : option (list string)) (r : Registry)
  : option (list event) * Registry :=
  match fetchUnmetDependencies r with
  | (None, r') => (None, r')
  | (Some (Throw err), r') => (Some [ECallback (Some err)], r')
  | (Some (Normal _), r') =>
      match calculateDependencyTree initList r' with
      | Throw err => (Some [ECallback (Some err)], r')
      | Normal depGroups => (Some (eachSeries r' depGroups), r')
      end
  end.

(** The run of [init] once the resolution has ended with [res], leaving
    the registry [r']. *)
Definition run_after_resolution (initList : option (list string))
    (res : completion unit) (r' : Registry) : list event :=
  match res with
  | Throw err => [ECallback (Some err)]
  | Normal _ =>
      match calculateDependencyTree initList r' with
      | Throw err => [ECallback (Some err)]
      | Normal depGroups => eachSeries r' depGroups
      end
  end.

End WithDependencyCalc.

(** [get(id)] *)
Definition get (id : string) (r : Registry) : value :=
  module_lookup_value (dict_get (moduleMap r) id).

(** [unload(id)] *)
Definition unload (id : string) (r : Registry) : Registry :=
  mkRegistry (moduleMap r) (dependencyMap r) (injectedMap r) (consumerMap r)
             (subRequire_unload id (loader r)).

(** *** Consumers *)

(** [prefix + '.' + modId] *)
Definition consumer_key (prefix modId : string) : string :=
  (prefix ++ "." ++ modId)%string.

(** [file.slice(0, -3)] *)
Definition drop_extension (file : string) : string :=
  substring 0 (String.length file - 3) file.

(** [loadConsumers(dir, prefix)], given what the file system and [require]
    answer, as for [loadServices]. *)
Fixpoint register_consumers (prefix : string) (files : list (string * Module))
    (r : Registry) : Registry :=
  match files with
  | [] => r
  | (file, m) :: rest =>
      if is_js_file file then
        let modId := normalizeServiceName (drop_extension file) in
        register_consumers prefix rest
          (mkRegistry
             (moduleMap r)
             (dict_set (consumer_key prefix modId)
                (normalizeServiceNames (di_getParamNames (mod_init m)))
                (dependencyMap r))
             (injectedMap r)
             (dict_set (consumer_key prefix modId) m (consumerMap r))
             (loader r))
      else register_consumers prefix rest r
  end.

Definition loadConsumers (dir : option (list (string * Module)))
    (prefix : string) (r : Registry) : Registry :=
  match dir with
  | Some files => register_consumers prefix files r
  | None => r
  end.

(** [key.indexOf(prefix + '.') === 0] *)
Definition under_prefix (prefix key : string) : bool :=
  String.prefix (prefix ++ ".")%string key.

(** The keys that [for (var key in consumerMap)] keeps for [prefix]. *)
Definition consumer_keys (prefix : string) (r : Registry) : list string :=
  filter (under_prefix prefix) (own_keys (consumerMap r)).

(** [getConsumers(prefix)] *)
Definition getConsumers (prefix : string) (r : Registry) : list Module :=
  flat_map (fun key => match own (consumerMap r) key with
                       | Some m => [m]
                       | None => []
                       end)
           (consumer_keys prefix r).

(** The iterator [initConsumer(serviceId, initCallback)]. *)
Definition initConsumer (r : Registry) (serviceId : string)
  : list event * dispatched :=
  match dict_get (consumerMap r) serviceId with
  | Own toLoad =>
      match dict_get (dependencyMap r) serviceId with
      | Own deps =>
          let params := map (resolve_dependency r) deps in
          match mod_init toLoad with
          | AsyncInit _ body =>
              ([EInit serviceId params],
               match body params with
               | CallsBackNow err => Completed err
               | CallsBackLater tick err => Waiting tick err
               | NeverCallsBack => Silent
               | ThrowsInCall e => Raised e
               end)
          | SyncInit _ body =>
              ([EInit serviceId params],
               match body params with
               | Returns => Completed None
               | Throws err => Completed (Some err)
               end)
          end
      | _ => ([], Raised (undefined_has_no "length"))
      end
  | _ => ([], Raised (undefined_has_no "init"))
  end.

(** [async.eachSeries(depList, initConsumer, function (err) {
    callback(err); })]: one consumer after the other; a consumer that
    calls back later is the only one waited for.  When the iterator throws,
    no further consumer is started; [EUncaught] marks the exception where
    it is raised (what becomes of it further up depends on the frames it
    passes). *)
Fixpoint eachSeries_consumers (r : Registry) (depList : list string)
  : list event :=
  match depList with
  | [] => [ECallback None]
  | serviceId :: rest =>
      let (evs, d) := initConsumer r serviceId in
      match d with
      | Completed None | Waiting _ None => evs ++ eachSeries_consumers r rest
      | Completed (Some e) | Waiting _ (Some e) => evs ++ [ECallback (Some e)]
      | Silent => evs
      | Raised e => evs ++ [EUncaught e]
      end
  end.

(** The list [depList] of [initConsumers]. *)
Definition consumer_depList (prefix : string) (initList : option (list string))
    (r : Registry) : list string :=
  match initList with
  | Some items =>
      map (fun item => consumer_key prefix (normalizeServiceName item)) items
  | None => consumer_keys prefix r
  end.

(** [initConsumers(prefix, initList, callback)]; [initList] is [None] when
    the list is left out. *)
Definition initConsumers (prefix : string) (initList : option (list string))
    (r : Registry) : list event :=
  eachSeries_consumers r (consumer_depList prefix initList r).

(** The consumer completes without an error; it reports the error [e]. *)
Definition consumer_succeeds (r : Registry) (serviceId : string) : bool :=
  match snd (initConsumer r serviceId) with
  | Completed None | Waiting _ None => true
  | _ => false
  end.

Definition consumer_fails (r : Registry) (serviceId : string) (e : Error)
  : Prop :=
  (exists tick, snd (initConsumer r serviceId) = Waiting tick (Some e))
  \/ snd (initConsumer r serviceId) = Completed (Some e).

(** *** States of the registry *)

(** No dependency of a registered module is unmet. *)
Definition settled (r : Registry) : Prop :=
  forall id deps depId,
    own (dependencyMap r) id = Some deps -> In depId deps ->
    has_dependencies r depId = true \/ has_injected r depId = true.

(** *** Observations on a run *)

Definition callbacks (tr : list event) : list (option Error) :=
  flat_map (fun ev => match ev with ECallback err => [err] | _ => [] end) tr.

Definition started (tr : list event) : list string :=
  flat_map (fun ev => match ev with EInit id _ => [id] | _ => [] end) tr.

End Loader.

(* ================================================================== *)
(** ** The dependency calculator *)
(* ================================================================== *)

Module DependencyCalc.
Import JS.

(** Modelled from the spec: the module [./dependencyCalc] is missing.  "The
    builder performs a topological grouping: repeatedly collect all nodes
    whose dependencies are fully satisfied by previously emitted groups
    into the next group, until all nodes are placed.  A node that can
    never be placed (cyclic or referring to a non-existent id) triggers a
    cycle/unresolvable-dependency failure". *)
Definition satisfied (placed : list string) (node : string * list string)
  : bool :=
  forallb (fun dep => existsb (String.eqb dep) placed) (snd node).

(** Modelled from the spec: the groups, one wave after the other, of the
    missing module [./dependencyCalc]. *)
Fixpoint waves (rounds : nat) (placed : list string)
    (nodes : list (string * list string)) : completion (list (list string)) :=
  match nodes, rounds with
  | [], _ => Normal []
  | _, O => Throw (mkError "Cycle found in dependency list")
  | _, S rounds' =>
      match filter (satisfied placed) nodes with
      | [] => Throw (mkError "Cycle found in dependency list")
      | ready =>
          match waves rounds' (placed ++ map fst ready)
                      (filter (fun n => negb (satisfied placed n)) nodes) with
          | Normal groups => Normal (map fst ready :: groups)
          | Throw e => Throw e
          end
      end
  end.

(** Modelled from the spec: [depCalc.calcGroups()] of the missing module
    [./dependencyCalc], after [addNode] has been called for [nodes]. *)
Definition calcGroups (nodes : list (string * list string))
  : completion (list (list string)) :=
  waves (List.length nodes) [] nodes.

End DependencyCalc.

(* ================================================================== *)
(** ** Coercion of query-string values: [lib/swaggerUtil.js] *)
(* ================================================================== *)

Module SwaggerUtil.
Import JS.

(** The fields of a swagger schema that the coercion reads. *)
Inductive schema :=
| Schema (type : option string) (collectionFormat : option string)
         (items : option schema).

Definition schema_type (s : schema) : option string :=
  match s with Schema t _ _ => t end.

(** The result of a coercion: a value, a [TypeError], or [Unmodelled]
    when the call leaves the numbers this embedding has (a fraction, an
    exponent, a hexadecimal numeral, an object converted to a number) or
    converts a string with a character outside ASCII to a number. *)
Inductive coerced (A : Type) :=
| Value (v : A)
| TypeError (msg : string)
| Unmodelled.
Arguments Value {A} v.
Arguments TypeError {A} msg.
Arguments Unmodelled {A}.

(** *** [Number(value)] *)

Definition is_white (c : ascii) : bool := Names.is_space c.

Fixpoint trim_left (s : string) : string :=
  match s with
  | String c s' => if is_white c then trim_left s' else s
  | EmptyString => EmptyString
  end.

Fixpoint trim_right (s : string) : string :=
  match s with
  | EmptyString => EmptyString
  | String c s' =>
      match trim_right s' with
      | EmptyString => if is_white c then EmptyString else String c EmptyString
      | t => String c t
      end
  end.

Definition trim (s : string) : string := trim_right (trim_left s).

(** The characters that occur in some numeric literal: digits, signs,
    the point, the letters of exponents, of the prefixes [0x], [0o], [0b],
    of hexadecimal digits and of [Infinity]. *)
Definition numeric_char (c : ascii) : bool :=
  is_digit c
  || existsb (Ascii.eqb c)
       (list_ascii_of_string "+-.eExXoObBaAcCdDfFInity").

Fixpoint all_chars (p : ascii -> bool) (s : string) : bool :=
  match s with
  | EmptyString => true
  | String c s' => p c && all_chars p s'
  end.

(** A decimal numeral of at most 15 digits: every such integer is a
    number of JavaScript, exactly. *)
Definition small_decimal (s : string) : option Z :=
  if (0 <? String.length s)%nat && (String.length s <=? 15)%nat then
    match digits_value 0%N s with
    | Some n => Some (Z.of_N n)
    | None => None
    end
  else None.

(** [Number(str)]: [None] when the string may be a numeric literal that
    is not a small decimal integer, and when it has a character outside
    ASCII ([Number] also strips the white space of Unicode, such as the
    no-break space, which [is_white] does not know).  An ASCII string
    with a character that no numeric literal has is [NaN]. *)
Definition string_to_number (str : string) : option value :=
  if negb (Names.ascii_only str) then None else
  let t := trim str in
  match t with
  | EmptyString => Some (VNumber 0)
  | String c rest =>
      let unsigned := if Ascii.eqb c "+" || Ascii.eqb c "-" then rest else t in
      match small_decimal unsigned with
      | Some n =>
          if Ascii.eqb c "-" then
            (if (n =? 0)%Z then None else Some (VNumber (- n)))
          else Some (VNumber n)
      | None => if all_chars numeric_char t then None else Some VNaN
      end
  end.

Definition Number (v : value) : option value :=
  match v with
  | VUndefined => Some VNaN
  | VNull => Some (VNumber 0)
  | VBool b => Some (VNumber (if b then 1 else 0))
  | VNumber n => Some (VNumber n)
  | VNaN => Some VNaN
  | VString s => string_to_number s
  | VObject _ | VBuiltin _ | VArray _ => None
  end.

Definition isNaN (v : value) : bool :=
  match v with VNaN => true | _ => false end.

(** *** [parseArray] *)

(** [str.split(c)] for a separator of one character; [current] is the
    piece being read. *)
Fixpoint split_on (c : ascii) (current : string) (s : string) : list string :=
  match s with
  | EmptyString => [current]
  | String x s' =>
      if Ascii.eqb x c then current :: split_on c EmptyString s'
      else split_on c (current ++ String x EmptyString)%string s'
  end.

Definition split_string (c : ascii) (s : string) : list string :=
  split_on c EmptyString s.

(** [pieces.join(c)] *)
Fixpoint join_with (c : ascii) (pieces : list string) : string :=
  match pieces with
  | [] => EmptyString
  | [piece] => piece
  | piece :: rest => (piece ++ String c (join_with c rest))%string
  end.

(** How often [c] occurs in [s]; [c] does not occur in [s]. *)
Fixpoint occurrences (c : ascii) (s : string) : nat :=
  match s with
  | EmptyString => 0
  | String x s' => (if Ascii.eqb x c then 1 else 0) + occurrences c s'
  end.

Definition free_of (c : ascii) (s : string) : Prop := occurrences c s = 0.

Definition isArray (v : value) : bool :=
  match v with VArray _ => true | _ => false end.

(** The table from the collection format to the separator; a format that
    is not in it reads [undefined], or a property of [Object.prototype]. *)
Definition splitChar (format : string) : lookup ascii :=
  dict_get [ ("csv", ","%char); ("ssv", " "%char);
             ("tsv", ascii_of_nat 9); ("pipes", "|"%char) ] format.

Definition parseArray (str : value) (format : string)
  : coerced (list value) :=
  if String.eqb format "multi" then
    match str with
    | VArray elements => Value elements
    | _ => Value [str]
    end
  else
    match str with
    | VString s =>
        match splitChar format with
        | Own c => Value (map VString (split_string c s))
        | Absent => Value [VString s]        (* [s.split(undefined)] *)
        | Inherited _ => Unmodelled
        end
    | VUndefined => TypeError "Cannot read property 'split' of undefined"
    | VNull => TypeError "Cannot read property 'split' of null"
    | _ => TypeError "str.split is not a function"
    end.

(** *** [castValueFromString]

    The function returns the coerced value.  When it is given an array, the
    source also overwrites the elements of that array in place; the
    embedding gives the returned array only. *)

(** The loop [for (i = 0; i < value.length; i++) value[i] = f(value[i])]. *)
Fixpoint cast_each (f : value -> coerced value) (elements : list value)
  : coerced (list value) :=
  match elements with
  | [] => Value []
  | x :: rest =>
      match f x with
      | Value y =>
          match cast_each f rest with
          | Value ys => Value (y :: ys)
          | TypeError msg => TypeError msg
          | Unmodelled => Unmodelled
          end
      | TypeError msg => TypeError msg
      | Unmodelled => Unmodelled
      end
  end.

Definition type_is (s : schema) (name : string) : bool :=
  match schema_type s with
  | Some t => String.eqb t name
  | None => false
  end.

(** [value === 'true']: strict equality with a string. *)
Definition value_is_string (v : value) (str : string) : bool :=
  match v with
  | VString s => String.eqb s str
  | _ => false
  end.

(** [schema.collectionFormat || 'csv'] *)
Definition format_of (collectionFormat : option string) : string :=
  match collectionFormat with
  | Some f => if String.eqb f EmptyString then "csv" else f
  | None => "csv"
  end.

(** The characters of a string. *)
Definition chars (s : string) : list ascii := list_ascii_of_string s.

(** The array that the loop of the third branch runs over. *)
Definition as_array (v : value) (format : string) : coerced (list value) :=
  match v with
  | VArray elements => Value elements
  | _ => parseArray v format
  end.

Fixpoint castValueFromString (s : schema) (v : value) {struct s}
  : coerced value :=
  match s with
  | Schema _ collectionFormat items =>
      if type_is s "number" || type_is s "integer" then
        match Number v with
        | Some n => if isNaN n then Value v else Value n
        | None => Unmodelled
        end
      else if type_is s "boolean" then
        if value_is_string v "true" then Value (VBool true)
        else if value_is_string v "false" then Value (VBool false)
        else Value v
      else if type_is s "array" then
        let format :=
          match collectionFormat with
          | Some f => if String.eqb f EmptyString then "csv" else f
          | None => "csv"
          end in
        match as_array v format with
        | Value elements =>
            match items with
            | Some item_schema =>
                match cast_each (castValueFromString item_schema) elements with
                | Value ys => Value (VArray ys)
                | TypeError msg => TypeError msg
                | Unmodelled => Unmodelled
                end
            | None =>
                match elements with
                | [] => Value (VArray [])
                | _ => TypeError "Cannot read property 'type' of undefined"
                end
            end
        | TypeError msg => TypeError msg
        | Unmodelled => Unmodelled
        end
      else Value v
  end.

(** [exports.cast = castValueFromString] *)
Definition cast := castValueFromString.

End SwaggerUtil.

(* ================================================================== *)
(** ** Sample services and registries *)
(* ================================================================== *)

Module Samples.
Import Names JS Loader.

Definition nothing_to_load : ExternalLoader := mkExternalLoader [] [] [].

(** A module [name.js] whose synchronous [init(params...)] returns. *)
Definition service (ref : nat) (name : string) (params : list string)
  : Module :=
  mkModule ref name (SyncInit params (fun _ => Returns)) None.

(** A module whose synchronous [init] throws [new Error(msg)]. *)
Definition throwing_service (ref : nat) (name : string)
    (params : list string) (msg : string) : Module :=
  mkModule ref name (SyncInit params (fun _ => Throws (mkError msg))) None.

(** A module whose [init(params..., callback)] calls back later. *)
Definition async_service (ref : nat) (name : string) (params : list string)
    (tick : nat) (err : option Error) : Module :=
  mkModule ref name (AsyncInit params (fun _ => CallsBackLater tick err)) None.

(** A services directory with [cache.js] and [api.js], where
    [api.init(cache)], and an object injected as "cache". *)
Definition cache_module : Module := service 10 "cache" [].
Definition api_module : Module := service 11 "api" ["cache"].

Definition injected_over_service : Registry :=
  inject "cache" (VObject 1) None
    (loadServices (Some [("cache.js", cache_module); ("api.js", api_module)])
       (createLoader nothing_to_load)).

(** Only [api.js] in the directory; "cache" is injected, and a module
    "cache" could be loaded from outside as well. *)
Definition injected_over_external : Registry :=
  inject "cache" (VObject 1) None
    (loadServices (Some [("api.js", api_module)])
       (createLoader (mkExternalLoader [("cache", cache_module)] [] []))).

(** The value [false] injected as "cache". *)
Definition injected_false : Registry :=
  inject "cache" (VBool false) None
    (loadServices (Some [("api.js", api_module)])
       (createLoader (mkExternalLoader [("cache", cache_module)] [] []))).

(** [api.init(cache)] with no "cache" anywhere. *)
Definition missing_dependency : Registry :=
  loadServices (Some [("api.js", api_module)]) (createLoader nothing_to_load).

(** [db.js], [cache.js] with [init(db)] that throws, [api.js] with
    [init(db, cache)]. *)
Definition db_module : Module := service 20 "db" [].
Definition broken_cache_module : Module :=
  throwing_service 21 "cache" ["db"] "no connection".
Definition top_module : Module := service 22 "api" ["db"; "cache"].

Definition failing_chain : Registry :=
  loadServices
    (Some [("api.js", top_module); ("cache.js", broken_cache_module);
           ("db.js", db_module)])
    (createLoader nothing_to_load).

(** [db.js], and a [mailer.js] whose asynchronous [init(db, callback)]
    throws before it has called back. *)
Definition throwing_async_module : Module :=
  mkModule 23 "mailer"
           (AsyncInit ["db"] (fun _ => ThrowsInCall (mkError "no smtp host")))
           None.

Definition throwing_async : Registry :=
  loadServices
    (Some [("db.js", db_module); ("mailer.js", throwing_async_module)])
    (createLoader nothing_to_load).

(** A [queue.js] whose asynchronous [init(callback)] never calls back,
    beside [db.js]. *)
Definition hanging_module : Module :=
  mkModule 24 "queue" (AsyncInit [] (fun _ => NeverCallsBack)) None.

Definition hanging : Registry :=
  loadServices (Some [("db.js", db_module); ("queue.js", hanging_module)])
    (createLoader nothing_to_load).

(** Two asynchronous services of one group; the second one of the list
    reports its error first. *)
Definition racing : Registry :=
  loadServices
    (Some [("slow.js", async_service 30 "slow" [] 5 (Some (mkError "slow failed")));
           ("fast.js", async_service 31 "fast" [] 2 (Some (mkError "fast failed")))])
    (createLoader nothing_to_load).

(** A services directory with [fooBar.js]. *)
Definition camel_module : Module := service 40 "fooBar" [].

Definition camel_directory : Registry :=
  loadServices (Some [("fooBar.js", camel_module)])
    (createLoader nothing_to_load).

(** A module "redis" loaded from outside for [cache.init(redis)]. *)
Definition redis_module : Module := service 50 "redis" [].
Definition redis_cache_module : Module := service 51 "cache" ["redis"].

Definition external_redis : Registry :=
  loadServices (Some [("cache.js", redis_cache_module)])
    (createLoader (mkExternalLoader [("redis", redis_module)] [] [])).

(** [express.js], whose [getDependencies] hook names the middleware; and
    an [auth.js] that [init(express, config)] depends on. *)
Definition express_module : Module :=
  mkModule 60 "express" (SyncInit ["config"; "logger"] (fun _ => Returns))
           (Some (fun _ => ["bodyParser"; "config"; "body-parser"])).

Definition with_express : Registry :=
  inject "config" (VObject 3) None
    (loadServices (Some [("express.js", express_module);
                         ("logger.js", service 61 "logger" [])])
       (createLoader nothing_to_load)).

(** Handlers [users.js] and [orderItems.js] loaded as consumers of
    "handlers", on top of [cache.js] and [api.js]. *)
Definition users_handler : Module := service 70 "users" ["api"].
Definition orders_handler : Module :=
  throwing_service 71 "orderItems" ["api"; "cache"] "no orders".

Definition with_handlers : Registry :=
  loadConsumers
    (Some [("users.js", users_handler); ("notes.txt", users_handler);
           ("orderItems.js", orders_handler)])
    "handlers"
    (loadServices (Some [("cache.js", cache_module); ("api.js", api_module)])
       (createLoader nothing_to_load)).

(** The same with an [orderItems.js] whose [init] returns, and a
    consumer of another prefix. *)
Definition two_handlers : Registry :=
  loadConsumers
    (Some [("users.js", users_handler); ("notes.txt", users_handler);
           ("orderItems.js", service 72 "orderItems" ["api"; "cache"])])
    "handlers"
    (loadConsumers (Some [("audit.js", service 73 "audit" [])]) "jobs"
       (loadServices (Some [("cache.js", cache_module); ("api.js", api_module)])
          (createLoader nothing_to_load))).

End Samples.

(* ================================================================== *)
(** ** Theorems on service names *)
(* ================================================================== *)

Module NamesFacts.
Import Names.

Ltac all_chars c := destruct c as [[] [] [] [] [] [] [] []].

Lemma lower_char_not_upper (c : ascii) : is_upper (lower_char c) = false.
Proof. all_chars c; reflexivity. Qed.

Lemma lower_char_idem (c : ascii) : lower_char (lower_char c) = lower_char c.
Proof. all_chars c; reflexivity. Qed.

Lemma lower_char_separator (c : ascii) :
  is_separator (lower_char c) = is_separator c.
Proof. all_chars c; reflexivity. Qed.

Lemma separator_lower_char (c : ascii) :
  is_separator c = true -> lower_char c = c.
Proof. all_chars c; simpl; intro H; try reflexivity; discriminate H. Qed.

Lemma collapse_single_dashes (b : bool) (s : string) :
  single_dashes b (collapse_separators b s).
Proof.
  revert b; induction s as [|c s IH]; intro b; simpl; [exact I|].
  destruct (is_separator c) eqn:Hc.
  - destruct b; [apply IH|]. simpl. repeat split. apply IH.
  - simpl. rewrite Hc. apply IH.
Qed.

Lemma toLowerCase_single_dashes (b : bool) (s : string) :
  single_dashes b s -> single_dashes b (toLowerCase s).
Proof.
  revert b; induction s as [|c s IH]; intros b H; simpl in *; [exact I|].
  rewrite lower_char_separator.
  destruct (is_separator c) eqn:Hc.
  - destruct H as (-> & -> & H). repeat split. now apply IH.
  - now apply IH.
Qed.

Lemma collapse_fixes_single_dashes (b : bool) (s : string) :
  single_dashes b s -> collapse_separators b s = s.
Proof.
  revert b; induction s as [|c s IH]; intros b H; simpl in *; [reflexivity|].
  destruct (is_separator c) eqn:Hc.
  - destruct H as (-> & -> & H). f_equal. now apply IH.
  - f_equal. now apply IH.
Qed.

Lemma dash_capitals_lower (s : string) :
  dash_capitals (toLowerCase s) = toLowerCase s.
Proof.
  induction s as [|c s IH]; simpl; [reflexivity|].
  now rewrite lower_char_not_upper, IH.
Qed.

Lemma toLowerCase_idem (s : string) :
  toLowerCase (toLowerCase s) = toLowerCase s.
Proof.
  induction s as [|c s IH]; simpl; [reflexivity|].
  now rewrite lower_char_idem, IH.
Qed.

Lemma normalize_idempotent (s : string) :
  normalizeServiceName (normalizeServiceName s) = normalizeServiceName s.
Proof.
  unfold normalizeServiceName.
  rewrite dash_capitals_lower.
  rewrite collapse_fixes_single_dashes.
  - apply toLowerCase_idem.
  - apply toLowerCase_single_dashes, collapse_single_dashes.
Qed.

Example normalize_camel : normalizeServiceName "fooBar" = "foo-bar".
Proof. reflexivity. Qed.

Example normalize_upper_snake :
  normalizeServiceName "FOO_BAR" = "-f-o-o-b-a-r".
Proof. reflexivity. Qed.

(** C5, as the specification states it, fails: the three spellings do not
    all normalize to the same identifier, because a dash is written
    before every capital letter, not only before "internal" ones. *)
Lemma C5_upper_snake_differs :
  ~ ((forall s, normalizeServiceName (normalizeServiceName s)
                = normalizeServiceName s)
     /\ normalizeServiceName "fooBar" = normalizeServiceName "foo-bar"
     /\ normalizeServiceName "foo-bar" = normalizeServiceName "FOO_BAR").
Proof. intros (_ & _ & H). vm_compute in H. discriminate H. Qed.

(** C5 (amended): normalization is idempotent on every string; it is
    insensitive to the separator used and to camel case
    ("fooBar", "foo-bar", "foo_bar" and "foo bar" all give "foo-bar"),
    but a name written in capitals gets a dash before each capital:
    "FOO_BAR" gives "-f-o-o-b-a-r". *)
Theorem C5_normalize_idempotent_and_separator_insensitive :
  (forall s, normalizeServiceName (normalizeServiceName s)
             = normalizeServiceName s)
  /\ normalizeServiceName "fooBar" = "foo-bar"
  /\ normalizeServiceName "foo-bar" = "foo-bar"
  /\ normalizeServiceName "foo_bar" = "foo-bar"
  /\ normalizeServiceName "foo bar" = "foo-bar"
  /\ normalizeServiceName "FOO_BAR" = "-f-o-o-b-a-r".
Proof.
  split; [exact normalize_idempotent|].
  repeat split; reflexivity.
Qed.

End NamesFacts.

(* ================================================================== *)
(** ** Facts on plain objects *)
(* ================================================================== *)

Module DictFacts.
Import JS.

Section Own.
Context {A : Type}.
Implicit Types (d : dict A) (k : string).

Lemma own_set_same d k a : own (dict_set k a d) k = Some a.
Proof.
  induction d as [|[k' a'] d IH]; simpl.
  - now rewrite String.eqb_refl.
  - destruct (String.eqb k k') eqn:E; simpl.
    + now rewrite String.eqb_refl.
    + now rewrite E.
Qed.

Lemma own_set_other d k k' a : k' <> k -> own (dict_set k a d) k' = own d k'.
Proof.
  intro Hne. apply String.eqb_neq in Hne.
  induction d as [|[k0 a0] d IH]; simpl.
  - now rewrite Hne.
  - destruct (String.eqb k k0) eqn:E; simpl.
    + apply String.eqb_eq in E. subst k0. now rewrite Hne.
    + now rewrite IH.
Qed.

Lemma own_set_keeps d k k' a :
  own d k' <> None -> own (dict_set k a d) k' <> None.
Proof.
  intro H. destruct (string_dec k' k) as [->|Hne].
  - now rewrite own_set_same.
  - now rewrite own_set_other.
Qed.

Lemma own_delete_same d k : own (dict_delete k d) k = None.
Proof.
  induction d as [|[k' a'] d IH]; simpl; [reflexivity|].
  destruct (String.eqb k k') eqn:E; simpl; [exact IH|].
  now rewrite E.
Qed.

Lemma own_delete_other d k k' :
  k' <> k -> own (dict_delete k d) k' = own d k'.
Proof.
  intro Hne. apply String.eqb_neq in Hne.
  induction d as [|[k0 a0] d IH]; simpl; [reflexivity|].
  destruct (String.eqb k k0) eqn:E; simpl.
  - apply String.eqb_eq in E. subst k0. now rewrite Hne.
  - now rewrite IH.
Qed.

Lemma own_in_keys d k : own d k <> None -> In k (map fst d).
Proof.
  induction d as [|[k' a'] d IH]; simpl; [congruence|].
  destruct (String.eqb k k') eqn:E.
  - apply String.eqb_eq in E. now left.
  - intro H. right. now apply IH.
Qed.

Lemma keys_in_own d k : In k (map fst d) -> own d k <> None.
Proof.
  induction d as [|[k' a'] d IH]; simpl; [tauto|].
  intros [->|H].
  - now rewrite String.eqb_refl.
  - destruct (String.eqb k k'); [discriminate|]. now apply IH.
Qed.

End Own.

Lemma in_insert_index x n k l :
  In x (insert_index n k l) -> x = (n, k) \/ In x l.
Proof.
  induction l as [|[m k'] l IH]; simpl.
  - intros [<-|[]]. now left.
  - destruct (n <? m)%N; simpl.
    + intros [<-|H]; [now left|now right].
    + intros [<-|H]; [right; now left|].
      destruct (IH H) as [->|H']; [now left|right; now right].
Qed.

Lemma in_index_keys x ks : In x (index_keys ks) -> In (snd x) ks.
Proof.
  induction ks as [|k ks IH]; simpl; [tauto|].
  destruct (array_index k).
  - intro H. apply in_insert_index in H. destruct H as [->|H].
    + now left.
    + right. now apply IH.
  - intro H. right. now apply IH.
Qed.

(** [for (k in d)] enumerates own properties only. *)
Lemma own_keys_own {A : Type} (d : dict A) (k : string) :
  In k (own_keys d) -> own d k <> None.
Proof.
  unfold own_keys. intro H. apply keys_in_own.
  apply in_app_or in H. destruct H as [H|H].
  - apply in_map_iff in H. destruct H as (x & <- & Hx).
    now apply in_index_keys.
  - apply filter_In in H. tauto.
Qed.

Lemma dict_get_absent_own {A : Type} (d : dict A) (k : string) :
  dict_get d k = Absent -> own d k = None /\ inherited k = false.
Proof.
  unfold dict_get. destruct (own d k); [discriminate|].
  destruct (inherited k); [discriminate|]. tauto.
Qed.

End DictFacts.

(* ================================================================== *)
(** ** Facts on the resolution of external dependencies *)
(* ================================================================== *)

Module ResolutionFacts.
Import Names JS Loader DictFacts.

(** *** One call of [loadExternalModule] *)

Lemma load_succeeds parentId id r r' :
  loadExternalModule parentId id r = (Normal tt, r') ->
  exists m,
    moduleMap r' = dict_set id m (moduleMap r)
    /\ dependencyMap r'
       = dict_set id (normalizeServiceNames (di_getParamNames (mod_init m)))
                  (dependencyMap r)
    /\ injectedMap r' = injectedMap r
    /\ consumerMap r' = consumerMap r
    /\ source (loader r') = source (loader r)
    /\ requests (loader r') = requests (loader r) ++ [(id, parentId)]
    /\ own (cache (loader r')) id <> None
    /\ (own (cache (loader r)) id <> None \/ own (source (loader r)) id <> None)
    /\ (forall k, own (cache (loader r)) k <> None ->
                  own (cache (loader r')) k <> None)
    /\ (forall k, own (cache (loader r')) k <> None ->
                  k = id \/ own (cache (loader r)) k <> None).
Proof.
  unfold loadExternalModule, subRequire.
  destruct (own (cache (loader r)) id) as [m|] eqn:Hc.
  - intro H. inversion H; subst; clear H. exists m. simpl.
    rewrite Hc. repeat split; try congruence; auto.
    left; congruence.
  - destruct (own (source (loader r)) id) as [m|] eqn:Hs.
    + intro H. inversion H; subst; clear H. exists m. simpl.
      rewrite own_set_same. repeat split; try congruence; auto.
      * right; congruence.
      * intros k Hk. now apply own_set_keeps.
      * intros k Hk. destruct (string_dec k id) as [->|Hne]; [now left|].
        right. now rewrite own_set_other in Hk.
    + intro H. inversion H.
Qed.

Lemma load_fails parentId id r err r' :
  loadExternalModule parentId id r = (Throw err, r') ->
  err = cannot_find id
  /\ own (cache (loader r)) id = None
  /\ own (source (loader r)) id = None
  /\ moduleMap r' = moduleMap r
  /\ dependencyMap r' = dependencyMap r
  /\ injectedMap r' = injectedMap r
  /\ consumerMap r' = consumerMap r
  /\ source (loader r') = source (loader r)
  /\ cache (loader r') = cache (loader r)
  /\ requests (loader r') = requests (loader r) ++ [(id, parentId)].
Proof.
  unfold loadExternalModule, subRequire.
  destruct (own (cache (loader r)) id) as [m|] eqn:Hc; [intro H; inversion H|].
  destruct (own (source (loader r)) id) as [m|] eqn:Hs; [intro H; inversion H|].
  intro H. inversion H; subst; clear H. simpl. tauto.
Qed.

Lemma has_injected_same r r' k :
  injectedMap r' = injectedMap r -> has_injected r' k = has_injected r k.
Proof. unfold has_injected. now intros ->. Qed.

Lemma has_dependencies_own r k :
  has_dependencies r k = false -> own (dependencyMap r) k = None.
Proof.
  unfold has_dependencies, dict_get.
  destruct (own (dependencyMap r) k); [discriminate|reflexivity].
Qed.

(** *** Sequences of loads *)

Lemma loads_trans n m r r1 r2 :
  loads n r r1 -> loads m r1 r2 -> loads (m + n) r r2.
Proof.
  intros H1 H2. induction H2 as [|m r1 r2 r3 p id H2 IH Hu Hl]; simpl.
  - exact H1.
  - eapply loads_more; eauto.
Qed.

Lemma loads_one parentId id r r' :
  unmet r id -> loadExternalModule parentId id r = (Normal tt, r') ->
  loads 1 r r'.
Proof. intros. eapply loads_more; eauto. constructor. Qed.

(** What a sequence of loads keeps and what it adds. *)
Lemma loads_effect n r r' :
  loads n r r' ->
  injectedMap r' = injectedMap r
  /\ consumerMap r' = consumerMap r
  /\ source (loader r') = source (loader r)
  /\ (forall k, own (dependencyMap r) k <> None ->
                own (dependencyMap r') k <> None)
  /\ (forall k, own (cache (loader r)) k <> None ->
                own (cache (loader r')) k <> None)
  /\ (forall k, has_injected r k = true ->
                own (moduleMap r') k = own (moduleMap r) k)
  /\ exists new,
       requests (loader r') = requests (loader r) ++ new
       /\ List.length new = n
       /\ forall d p, In (d, p) new ->
            has_injected r d = false /\ own (cache (loader r')) d <> None.
Proof.
  induction 1 as [r|n r r1 r' p id H IH [Hu1 Hu2] Hl].
  - do 3 (split; [reflexivity|]). do 3 (split; [auto|]).
    exists []. rewrite app_nil_r. do 2 (split; [reflexivity|]).
    intros d p [].
  - destruct IH as (Hi & Hc & Hs & Hd & Hca & Hm & new & Hr & Hlen & Hnew).
    apply load_succeeds in Hl.
    destruct Hl as (m & Lm & Ld & Li & Lc & Ls & Lr & Lid & _ & Lmono & _).
    do 3 (split; [congruence|]).
    split; [intros k Hk; rewrite Ld; apply own_set_keeps; auto|].
    split; [auto|].
    split.
    { intros k Hk. rewrite Lm. rewrite own_set_other; [auto|].
      intros ->. rewrite <- (has_injected_same r r1) in Hk by exact Hi.
      congruence. }
    exists (new ++ [(id, p)]).
    split; [rewrite Lr, Hr; now rewrite app_assoc|].
    split; [rewrite length_app; simpl; lia|].
    intros d q Hin. apply in_app_or in Hin. destruct Hin as [Hin|[Hin|[]]].
    + apply Hnew in Hin. split; [tauto|]. apply Lmono. tauto.
    + inversion Hin; subst. split; [|assumption].
      now rewrite <- (has_injected_same r r1).
Qed.

Lemma filter_length_mono {A} (f g : A -> bool) (l : list A) :
  (forall x, g x = true -> f x = true) ->
  List.length (filter g l) <= List.length (filter f l).
Proof.
  intro H. induction l as [|x l IH]; simpl; [lia|].
  destruct (g x) eqn:G.
  - rewrite (H x G). simpl. lia.
  - destruct (f x); simpl; lia.
Qed.

Lemma filter_length_lt {A} (f g : A -> bool) (l : list A) (a : A) :
  (forall x, g x = true -> f x = true) ->
  In a l -> f a = true -> g a = false ->
  List.length (filter g l) < List.length (filter f l).
Proof.
  intros H Ha Hf Hg. induction l as [|x l IH]; simpl; [destruct Ha|].
  destruct Ha as [->|Ha].
  - rewrite Hf, Hg. simpl.
    pose proof (filter_length_mono f g l H). lia.
  - specialize (IH Ha). destruct (g x) eqn:G.
    + rewrite (H x G). simpl. lia.
    + destruct (f x); simpl; lia.
Qed.

(** Every successful load registers the dependencies of one more of the
    identifiers the external loader knows. *)
Lemma loads_measure U n r r' :
  known U r -> loads n r r' ->
  known U r' /\ unmet_count U r' + n <= unmet_count U r.
Proof.
  intros HU H. induction H as [r|n r r1 r' p id H IH [Hu1 Hu2] Hl].
  - split; [assumption|lia].
  - destruct (IH HU) as [HK Hle]. clear IH.
    apply load_succeeds in Hl.
    destruct Hl as (m & Lm & Ld & Li & Lc & Ls & Lr & Lid & Lwas & Lmono & Lnew).
    split.
    + intros k [Hk|Hk].
      * apply Lnew in Hk. destruct Hk as [->|Hk]; apply HK; tauto.
      * apply HK. right. congruence.
    + assert (unmet_count U r' < unmet_count U r1); [|lia].
      unfold unmet_count. apply filter_length_lt with (a := id).
      * unfold unregistered. intros k. rewrite Ld.
        destruct (own (dependencyMap r1) k) eqn:E; [|reflexivity].
        destruct (own (dict_set id _ (dependencyMap r1)) k) eqn:E';
          [auto|].
        exfalso. revert E'. apply own_set_keeps. congruence.
      * apply HK. exact Lwas.
      * unfold unregistered. now rewrite (has_dependencies_own _ _ Hu1).
      * unfold unregistered. rewrite Ld. now rewrite own_set_same.
Qed.

(** *** The passes of [fetchUnmetDependencies] *)

Lemma resolution_after {A} n r r1 (res : completion A) r' :
  loads n r r1 -> resolution r1 res r' -> resolution r res r'.
Proof.
  intros H1 H2. destruct H2 as [m a r' H2|m r2 id depId err r' H2 Hu Hl].
  - eapply resolution_done. eapply loads_trans; eauto.
  - eapply resolution_failed with (r1 := r2);
      [eapply loads_trans; eauto|exact Hu|exact Hl].
Qed.

Lemma resolution_throw {A B} r e r' :
  @resolution A r (Throw e) r' -> @resolution B r (Throw e) r'.
Proof.
  intro H. inversion H; subst. eapply resolution_failed; eauto.
Qed.

Lemma visit_dependencies_resolution id deps runAgain r res r' :
  visit_dependencies id deps runAgain r = (res, r') -> resolution r res r'.
Proof.
  revert runAgain r. induction deps as [|depId rest IH]; intros ra r; simpl.
  - intro H. inversion H; subst. apply resolution_done with (n := 0).
    constructor.
  - destruct (has_dependencies r depId) eqn:Hd; simpl; [apply IH|].
    destruct (has_injected r depId) eqn:Hi; simpl; [apply IH|].
    destruct (loadExternalModule id depId r) as [[[]|err] r1] eqn:Hl.
    + intro H. apply IH in H.
      eapply resolution_after; [|exact H].
      eapply loads_one; [split|]; eauto.
    + intro H. inversion H; subst.
      eapply resolution_failed with (n := 0); eauto; [constructor|now split].
Qed.

(** [runAgain] is set by the first load of the pass. *)
Lemma visit_dependencies_again id deps runAgain r again r' :
  visit_dependencies id deps runAgain r = (Normal again, r') ->
  exists n, loads n r r' /\ again = runAgain || (0 <? n)%nat.
Proof.
  revert runAgain r. induction deps as [|depId rest IH]; intros ra r; simpl.
  - intro H. inversion H; subst. exists 0. split; [constructor|].
    now rewrite orb_false_r.
  - destruct (has_dependencies r depId) eqn:Hd; simpl; [apply IH|].
    destruct (has_injected r depId) eqn:Hi; simpl; [apply IH|].
    destruct (loadExternalModule id depId r) as [[[]|err] r1] eqn:Hl;
      [|discriminate].
    intro H. apply IH in H. destruct H as (n & Hn & ->).
    exists (n + 1). split.
    + eapply loads_trans; [|exact Hn]. eapply loads_one; [split|]; eauto.
    + replace (0 <? n + 1)%nat with true; [now rewrite orb_true_r|].
      symmetry. apply Nat.ltb_lt. lia.
Qed.

Lemma own_is_got {A} (d : dict A) k :
  own d k <> None -> exists a, dict_get d k = Own a.
Proof.
  unfold dict_get. destruct (own d k) as [a|]; [|congruence].
  intros _. now exists a.
Qed.

Lemma visit_modules_resolution ids runAgain r res r' :
  (forall id, In id ids -> own (dependencyMap r) id <> None) ->
  visit_modules ids runAgain r = (res, r') -> resolution r res r'.
Proof.
  revert runAgain r. induction ids as [|id rest IH]; intros ra r Hown; simpl.
  - intro H. inversion H; subst. apply resolution_done with (n := 0).
    constructor.
  - destruct (own_is_got (dependencyMap r) id) as [deps ->];
      [apply Hown; now left|].
    destruct (visit_dependencies id deps ra r) as [[again|err] r1] eqn:Hv.
    + pose proof (visit_dependencies_again _ _ _ _ _ _ Hv) as (n & Hn & _).
      intro H. apply IH in H.
      * eapply resolution_after; eauto.
      * intros k Hk. apply (loads_effect _ _ _ Hn). apply Hown. now right.
    + intro H. inversion H; subst.
      eapply visit_dependencies_resolution; eauto.
Qed.

Lemma visit_modules_again ids runAgain r again r' :
  (forall id, In id ids -> own (dependencyMap r) id <> None) ->
  visit_modules ids runAgain r = (Normal again, r') ->
  exists n, loads n r r' /\ again = runAgain || (0 <? n)%nat.
Proof.
  revert runAgain r. induction ids as [|id rest IH]; intros ra r Hown; simpl.
  - intro H. inversion H; subst. exists 0. split; [constructor|].
    now rewrite orb_false_r.
  - destruct (own_is_got (dependencyMap r) id) as [deps ->];
      [apply Hown; now left|].
    destruct (visit_dependencies id deps ra r) as [[again1|err] r1] eqn:Hv;
      [|discriminate].
    apply visit_dependencies_again in Hv. destruct Hv as (n & Hn & ->).
    intro H. apply IH in H.
    + destruct H as (m & Hm & ->). exists (m + n). split.
      * eapply loads_trans; eauto.
      * rewrite <- orb_assoc. f_equal.
        destruct n, m; simpl; try reflexivity.
    + intros k Hk. apply (loads_effect _ _ _ Hn). apply Hown. now right.
Qed.

Lemma passes_resolution fuel r res r' :
  fetchUnmetDependencies_passes fuel r = (Some res, r') ->
  resolution r res r'.
Proof.
  revert r. induction fuel as [|fuel IH]; intro r; simpl; [discriminate|].
  destruct (visit_modules (own_keys (dependencyMap r)) false r)
    as [[again|err] r1] eqn:Hv.
  - pose proof (visit_modules_again _ _ _ _ _ (@own_keys_own _ _) Hv)
      as (n & Hn & _).
    destruct again.
    + intro H. apply IH in H. eapply resolution_after; eauto.
    + intro H. inversion H; subst. eapply resolution_done; eauto.
  - intro H. inversion H; subst. apply (@resolution_throw bool).
    eapply visit_modules_resolution; [|exact Hv]. apply own_keys_own.
Qed.

Lemma passes_terminate U fuel r :
  known U r -> unmet_count U r < fuel ->
  fst (fetchUnmetDependencies_passes fuel r) <> None.
Proof.
  revert r. induction fuel as [|fuel IH]; intros r HU Hlt; [lia|]. simpl.
  destruct (visit_modules (own_keys (dependencyMap r)) false r)
    as [[again|err] r1] eqn:Hv; [|simpl; discriminate].
  destruct again; [|simpl; discriminate].
  apply (visit_modules_again _ _ _ _ _ (@own_keys_own _ _)) in Hv.
  destruct Hv as (n & Hn & Hagain).
  destruct (loads_measure U n r r1 HU Hn) as [HU1 Hle].
  apply IH; [assumption|].
  destruct n; [discriminate Hagain|lia].
Qed.

(** More passes than needed change nothing. *)
Lemma passes_more_fuel fuel fuel' r res r' :
  fetchUnmetDependencies_passes fuel r = (Some res, r') ->
  fuel <= fuel' ->
  fetchUnmetDependencies_passes fuel' r = (Some res, r').
Proof.
  revert fuel' r. induction fuel as [|fuel IH]; intros fuel' r; simpl;
    [discriminate|].
  intros H Hle. destruct fuel' as [|fuel']; [lia|]. simpl.
  destruct (visit_modules (own_keys (dependencyMap r)) false r)
    as [[[]|err] r1]; try exact H.
  apply IH; [exact H|lia].
Qed.

Lemma known_at_start r :
  known (map fst (source (loader r)) ++ map fst (cache (loader r))) r.
Proof.
  intros k [H|H]; apply in_or_app; [right|left]; now apply own_in_keys.
Qed.

(** The resolution always comes to an end: [enough_passes] is enough. *)
Lemma fetchUnmetDependencies_total r :
  exists res r',
    fetchUnmetDependencies r = (Some res, r') /\ resolution r res r'.
Proof.
  unfold fetchUnmetDependencies.
  destruct (fetchUnmetDependencies_passes (enough_passes r) r)
    as [[res|] r'] eqn:H.
  - exists res, r'. split; [reflexivity|]. eapply passes_resolution; eauto.
  - exfalso.
    apply (passes_terminate _ (enough_passes r) r (known_at_start r));
      [|now rewrite H].
    unfold unmet_count, enough_passes.
    pose proof (List.filter_length_le (unregistered r)
      (map fst (source (loader r)) ++ map fst (cache (loader r)))) as Hle.
    rewrite length_app, !length_map in Hle. lia.
Qed.

End ResolutionFacts.

(* ================================================================== *)
(** ** Facts on the execution of the groups *)
(* ================================================================== *)

Module ExecutionFacts.
Import Names JS Loader DictFacts.

Lemma callbacks_app a b : callbacks (a ++ b) = callbacks a ++ callbacks b.
Proof. apply flat_map_app. Qed.

Lemma started_app a b : started (a ++ b) = started a ++ started b.
Proof. apply flat_map_app. Qed.

(** *** One service *)

(** The iterator calls at most one [init], that of its service, with the
    objects registered under the names of its dependencies. *)
Lemma init_service_events r id :
  fst (init_service r id) = []
  \/ exists deps,
       own (dependencyMap r) id = Some deps
       /\ fst (init_service r id)
          = [EInit id (map (resolve_dependency r) deps)].
Proof.
  unfold init_service.
  destruct (has_injected r id || has_consumer r id); [now left|].
  destruct (dict_get (moduleMap r) id) as [toLoad| |]; try now left.
  unfold dict_get.
  destruct (own (dependencyMap r) id) as [deps|] eqn:E.
  - right. exists deps. split; [reflexivity|].
    destruct (mod_init toLoad); reflexivity.
  - left. destruct (inherited id); reflexivity.
Qed.

Lemma init_service_callbacks r id : callbacks (fst (init_service r id)) = [].
Proof.
  destruct (init_service_events r id) as [->|(deps & _ & ->)]; reflexivity.
Qed.

Lemma init_service_started r id :
  started (fst (init_service r id)) = if starts r id then [id] else [].
Proof.
  unfold starts.
  destruct (init_service_events r id) as [->|(deps & _ & ->)]; reflexivity.
Qed.

(** *** One group *)

Lemma first_error_app a b :
  first_error (a ++ b)
  = match first_error a with Some e => Some e | None => first_error b end.
Proof.
  induction a as [|[e|] a IH]; simpl; auto.
Qed.

Lemma count_ok_app a b : count_ok (a ++ b) = count_ok a + count_ok b.
Proof. unfold count_ok. now rewrite filter_app, length_app. Qed.

Lemma count_ok_le errs : count_ok errs <= List.length errs.
Proof. apply List.filter_length_le. Qed.

Lemma count_ok_all errs :
  count_ok errs = List.length errs -> first_error errs = None.
Proof.
  induction errs as [|[e|] errs IH]; simpl; auto; [].
  unfold count_ok. simpl. intro H.
  pose proof (count_ok_le errs). unfold count_ok in *. lia.
Qed.

Ltac tally :=
  repeat split; unfold count_ok; simpl; auto; try lia.

Lemma service_done_effect err st :
  callbacks (fst (service_done err st))
  = (if delivered st then [] else reported err)
  /\ started (fst (service_done err st)) = []
  /\ delivered (snd (service_done err st)) = delivered st || is_error err
  /\ completed (snd (service_done err st)) = completed st + count_ok [err]
  /\ waiting (snd (service_done err st)) = waiting st.
Proof.
  unfold service_done. destruct err as [e|]; simpl.
  - destruct (delivered st) eqn:D; simpl; rewrite ?D;
      tally.
  - rewrite orb_false_r.
    destruct (delivered st); tally.
Qed.

Lemma dispatch_effect r ids st :
  let ds := reached r ids in
  callbacks (fst (dispatch r ids st))
  = (if delivered st then [] else reported (first_error (immediate ds)))
  /\ delivered (snd (dispatch r ids st))
     = delivered st || is_error (first_error (immediate ds))
  /\ completed (snd (dispatch r ids st))
     = completed st + count_ok (immediate ds)
  /\ waiting (snd (dispatch r ids st)) = deferred ds (waiting st).
Proof.
  revert st. induction ids as [|id rest IH]; intro st; simpl.
  - rewrite orb_false_r. destruct (delivered st); tally.
  - pose proof (init_service_callbacks r id) as Hcb.
    destruct (init_service r id) as [evs d]. simpl in Hcb |- *.
    destruct d as [err|tick err| |e]; simpl.
    + pose proof (service_done_effect err st) as (S1 & _ & S2 & S3 & S4).
      destruct (service_done err st) as [evs1 st1]. simpl in *.
      specialize (IH st1). destruct (dispatch r rest st1) as [evs2 st2].
      simpl in *. destruct IH as (I1 & I2 & I3 & I4).
      rewrite !callbacks_app, Hcb, S1, I1, I2, I3, I4, S2, S3, S4.
      unfold count_ok.
      destruct err as [e|]; simpl.
      * rewrite orb_true_r. simpl.
        destruct (delivered st); simpl; tally.
      * rewrite orb_false_r.
        destruct (delivered st); simpl; tally.
    + specialize (IH (mkEach (completed st) (delivered st)
                             (insert_tick tick err (waiting st)))).
      destruct (dispatch r rest _) as [evs2 st2]. simpl in *.
      now rewrite callbacks_app, Hcb.
    + specialize (IH st). destruct (dispatch r rest st) as [evs2 st2].
      simpl in *. now rewrite callbacks_app, Hcb.
    + rewrite callbacks_app, Hcb. simpl. rewrite orb_false_r.
      destruct (delivered st); tally.
Qed.

Lemma settle_effect ws st :
  callbacks (fst (settle ws st))
  = (if delivered st then [] else reported (first_error (map snd ws)))
  /\ started (fst (settle ws st)) = []
  /\ completed (snd (settle ws st)) = completed st + count_ok (map snd ws).
Proof.
  revert st. induction ws as [|[t err] ws IH]; intro st; simpl.
  - destruct (delivered st); tally.
  - pose proof (service_done_effect err st) as (S1 & S0 & S2 & S3 & _).
    destruct (service_done err st) as [evs1 st1]. simpl in *.
    specialize (IH st1). destruct (settle ws st1) as [evs2 st2].
    simpl in *. destruct IH as (I1 & I0 & I3).
    rewrite callbacks_app, started_app, S1, S0, I1, I0, I3, S2, S3.
    unfold count_ok.
    destruct err as [e|]; simpl.
    + rewrite orb_true_r. destruct (delivered st); tally.
    + rewrite orb_false_r. destruct (delivered st); tally.
Qed.

(** The callback of the run is called for the first error of the group,
    and for nothing else. *)
Lemma each_callbacks r ids :
  callbacks (fst (each r ids)) = reported (group_error r ids).
Proof.
  unfold each, group_error, completion_order.
  pose proof (dispatch_effect r ids (mkEach 0 false [])) as (D1 & D2 & _ & D4).
  destruct (dispatch r ids (mkEach 0 false [])) as [evs1 st1]. simpl in *.
  pose proof (settle_effect (waiting st1) st1) as (S1 & _ & _).
  destruct (settle (waiting st1) st1) as [evs2 st2]. simpl in *.
  rewrite callbacks_app, D1, S1, D2, D4, first_error_app.
  destruct (first_error (immediate (reached r ids))); simpl.
  - reflexivity.
  - reflexivity.
Qed.

Lemma deferred_length ds ws :
  List.length (immediate ds) + List.length (deferred ds ws)
  <= List.length ds + List.length ws.
Proof.
  assert (Hins : forall t e l,
             List.length (insert_tick t e l) = S (List.length l)).
  { intros t e l. induction l as [|[t' e'] l IH]; simpl; [reflexivity|].
    destruct (t <? t')%nat; simpl; [reflexivity|]. now rewrite IH. }
  revert ws. induction ds as [|d ds IH]; intro ws; simpl; [lia|].
  destruct d as [err|tick err| |e]; simpl.
  - specialize (IH ws). lia.
  - specialize (IH (insert_tick tick err ws)). rewrite Hins in IH. lia.
  - specialize (IH ws). lia.
  - specialize (IH ws). lia.
Qed.

Lemma reached_length r ids : List.length (reached r ids) <= List.length ids.
Proof.
  induction ids as [|id rest IH]; simpl; [lia|].
  destruct (snd (init_service r id)); simpl; lia.
Qed.

(** A group that completes has met no error. *)
Lemma group_ok_no_error r ids :
  group_ok r ids = true -> group_error r ids = None.
Proof.
  unfold group_ok, each, group_error, completion_order.
  pose proof (dispatch_effect r ids (mkEach 0 false [])) as (_ & _ & D3 & D4).
  destruct (dispatch r ids (mkEach 0 false [])) as [evs1 st1]. simpl in *.
  pose proof (settle_effect (waiting st1) st1) as (_ & _ & S3).
  destruct (settle (waiting st1) st1) as [evs2 st2]. simpl in *.
  intro Hok. apply Nat.eqb_eq in Hok.
  apply count_ok_all. rewrite count_ok_app, length_app, length_map.
  rewrite S3, D3, D4 in Hok.
  pose proof (deferred_length (reached r ids) []).
  pose proof (reached_length r ids).
  pose proof (count_ok_le (immediate (reached r ids))).
  pose proof (count_ok_le (map snd (deferred (reached r ids) []))).
  rewrite length_map in *. simpl in *. lia.
Qed.

Lemma each_not_ok r ids e :
  group_error r ids = Some e -> snd (each r ids) = false.
Proof.
  intro H. destruct (snd (each r ids)) eqn:E; [|reflexivity].
  apply group_ok_no_error in E. congruence.
Qed.

Lemma each_inits r ids id args :
  In (EInit id args) (fst (each r ids)) ->
  exists deps,
    own (dependencyMap r) id = Some deps
    /\ args = map (resolve_dependency r) deps.
Proof.
  assert (Hdone : forall err st, ~ In (EInit id args) (fst (service_done err st))).
  { intros [e|] st; unfold service_done; simpl; [|tauto].
    destruct (delivered st); simpl; [tauto|]. intros [H|[]]. discriminate. }
  assert (Hsettle : forall ws st, ~ In (EInit id args) (fst (settle ws st))).
  { induction ws as [|[t err] ws IH]; intro st; simpl; [tauto|].
    pose proof (Hdone err st) as H1.
    destruct (service_done err st) as [evs1 st1].
    specialize (IH st1). destruct (settle ws st1) as [evs2 st2].
    simpl in *. intro H. apply in_app_or in H. tauto. }
  assert (Hdisp : forall st, In (EInit id args) (fst (dispatch r ids st)) ->
            exists deps, own (dependencyMap r) id = Some deps
                         /\ args = map (resolve_dependency r) deps).
  { induction ids as [|id0 rest IH]; intro st; simpl; [tauto|].
    pose proof (init_service_events r id0) as Hev.
    destruct (init_service r id0) as [evs d]. simpl in Hev.
    assert (Hhere : In (EInit id args) evs ->
              exists deps, own (dependencyMap r) id = Some deps
                           /\ args = map (resolve_dependency r) deps).
    { destruct Hev as [->|(deps & Hd & ->)]; [intros []|].
      intros [H|[]]. inversion H; subst. now exists deps. }
    destruct d as [err|tick err| |e]; simpl.
    - pose proof (Hdone err st) as H1.
      destruct (service_done err st) as [evs1 st1].
      specialize (IH st1). destruct (dispatch r rest st1) as [evs2 st2].
      simpl in *. intro H. apply in_app_or in H. destruct H as [H|H]; [auto|].
      apply in_app_or in H. destruct H as [H|H]; [tauto|auto].
    - match goal with |- context [dispatch r rest ?s] => specialize (IH s) end.
      destruct (dispatch r rest _) as [evs2 st2]. simpl in *.
      intro H. apply in_app_or in H. destruct H as [H|H]; auto.
    - specialize (IH st). destruct (dispatch r rest st) as [evs2 st2].
      simpl in *. intro H. apply in_app_or in H. destruct H as [H|H]; auto.
    - intro H. apply in_app_or in H. destruct H as [H|[H|[]]]; [auto|].
      discriminate. }
  unfold each. specialize (Hdisp (mkEach 0 false [])).
  destruct (dispatch r ids (mkEach 0 false [])) as [evs1 st1].
  specialize (Hsettle (waiting st1) st1).
  destruct (settle (waiting st1) st1) as [evs2 st2]. simpl in *.
  intro H. apply in_app_or in H. destruct H as [H|H]; [auto|tauto].
Qed.

(** *** The groups in series *)

Lemma eachSeries_callbacks_once r groups :
  List.length (callbacks (eachSeries r groups)) <= 1.
Proof.
  induction groups as [|g rest IH]; simpl; [lia|].
  pose proof (each_callbacks r g) as Hcb.
  pose proof (group_ok_no_error r g) as Hok. unfold group_ok in Hok.
  destruct (each r g) as [evs ok]. simpl in *. destruct ok.
  - rewrite callbacks_app, Hcb, (Hok eq_refl). simpl. exact IH.
  - rewrite Hcb. destruct (group_error r g); simpl; lia.
Qed.

(** When a group fails, the run consists of the groups up to this one, and
    its callback is called with the first error of the group. *)
Lemma eachSeries_fails r before g after e :
  forallb (group_ok r) before = true ->
  group_error r g = Some e ->
  eachSeries r (before ++ g :: after)
  = flat_map (fun ids => fst (each r ids)) (before ++ [g])
  /\ callbacks (eachSeries r (before ++ g :: after)) = [Some e].
Proof.
  intros Hbefore Hg. induction before as [|g0 before IH]; simpl.
  - pose proof (each_callbacks r g) as Hcb.
    pose proof (each_not_ok r g e Hg) as Hno.
    destruct (each r g) as [evs ok]. simpl in *. subst ok.
    rewrite app_nil_r, Hcb, Hg. now split.
  - simpl in Hbefore. apply andb_prop in Hbefore. destruct Hbefore as [H0 Hb].
    destruct (IH Hb) as [IH1 IH2].
    pose proof (each_callbacks r g0) as Hcb.
    pose proof (group_ok_no_error r g0 H0) as Hnone.
    unfold group_ok in H0.
    destruct (each r g0) as [evs ok]. simpl in *. subst ok.
    split; [now rewrite IH1|].
    now rewrite callbacks_app, Hcb, Hnone, IH2.
Qed.

Lemma eachSeries_inits r groups id args :
  In (EInit id args) (eachSeries r groups) ->
  exists deps,
    own (dependencyMap r) id = Some deps
    /\ args = map (resolve_dependency r) deps.
Proof.
  induction groups as [|g rest IH]; simpl.
  - intros [H|[]]. discriminate.
  - pose proof (each_inits r g id args) as Hg.
    destruct (each r g) as [evs ok]. simpl in *. destruct ok; [|exact Hg].
    intro H. apply in_app_or in H. destruct H as [H|H]; auto.
Qed.

(** A group of one service. *)
Lemma each_singleton r id :
  started (fst (each r [id])) = (if starts r id then [id] else [])
  /\ (succeeds r id = true ->
      snd (each r [id]) = true /\ callbacks (fst (each r [id])) = []).
Proof.
  unfold each, succeeds. simpl.
  pose proof (init_service_started r id) as Hst.
  pose proof (init_service_callbacks r id) as Hcb.
  destruct (init_service r id) as [evs d]. simpl in *.
  destruct d as [[e|]|tick [e|]| |e]; simpl;
    rewrite ?started_app, ?app_nil_r, ?Hst; simpl; rewrite ?app_nil_r;
    (split; [reflexivity|]); try discriminate; intros _; now split.
Qed.

(** With a forced order the services are started in the order of the
    list, up to the first one that does not complete. *)
Lemma eachSeries_forced_prefix r ids :
  exists rest,
    filter (starts r) ids
    = started (eachSeries r (map (fun id => [id]) ids)) ++ rest.
Proof.
  induction ids as [|id ids IH]; simpl.
  - now exists [].
  - destruct (each_singleton r id) as [Hst _].
    destruct (each r [id]) as [evs ok]. simpl in *.
    destruct ok.
    + destruct IH as [rest IH]. exists rest.
      rewrite started_app, Hst. destruct (starts r id); simpl; now rewrite IH.
    + rewrite Hst. destruct (starts r id); simpl.
      * now exists (filter (starts r) ids).
      * now exists (filter (starts r) ids).
Qed.

Lemma eachSeries_forced_all r ids :
  forallb (succeeds r) ids = true ->
  started (eachSeries r (map (fun id => [id]) ids)) = filter (starts r) ids
  /\ callbacks (eachSeries r (map (fun id => [id]) ids)) = [None].
Proof.
  induction ids as [|id ids IH]; simpl; [now split|].
  intro H. apply andb_prop in H. destruct H as [H1 H2].
  destruct (each_singleton r id) as [Hst Hok].
  destruct (Hok H1) as [Ok Hcb]. destruct (IH H2) as [IH1 IH2].
  destruct (each r [id]) as [evs ok]. simpl in *. subst ok.
  rewrite started_app, callbacks_app, Hst, Hcb, IH1, IH2.
  destruct (starts r id); now split.
Qed.

Lemma count_ok_cons x l : count_ok (x :: l) = count_ok [x] + count_ok l.
Proof. unfold count_ok. destruct x; simpl; lia. Qed.

Lemma count_ok_insert_tick t e ws :
  count_ok (map snd (insert_tick t e ws))
  = count_ok [e] + count_ok (map snd ws).
Proof.
  induction ws as [|[t' e'] ws IH]; simpl.
  - unfold count_ok. destruct e; simpl; lia.
  - destruct (t <? t')%nat; simpl.
    + apply count_ok_cons.
    + rewrite (count_ok_cons e' (map snd (insert_tick t e ws))), IH.
      rewrite (count_ok_cons e' (map snd ws)). lia.
Qed.

Lemma count_completions ds ws :
  count_ok (immediate ds) + count_ok (map snd (deferred ds ws))
  = List.length (filter completes ds) + count_ok (map snd ws).
Proof.
  revert ws. induction ds as [|d ds IH]; intro ws; simpl; [reflexivity|].
  destruct d as [[e|]|tick [e|]| |e]; simpl;
    rewrite ?(count_ok_cons _ (immediate ds)), ?IH, ?count_ok_insert_tick;
    unfold count_ok; simpl; lia.
Qed.

Lemma group_ok_count r ids :
  group_ok r ids
  = (List.length (filter completes (reached r ids)) =? List.length ids)%nat.
Proof.
  unfold group_ok, each.
  pose proof (dispatch_effect r ids (mkEach 0 false [])) as (_ & _ & D3 & D4).
  destruct (dispatch r ids (mkEach 0 false [])) as [evs1 st1]. simpl in *.
  pose proof (settle_effect (waiting st1) st1) as (_ & _ & S3).
  destruct (settle (waiting st1) st1) as [evs2 st2]. simpl in *.
  rewrite S3, D3, D4.
  pose proof (count_completions (reached r ids) []) as H. simpl in H.
  f_equal. unfold count_ok in *. simpl in *. lia.
Qed.

Lemma reached_all_complete r ids :
  List.length (filter completes (reached r ids)) = List.length ids
  <-> forallb (succeeds r) ids = true.
Proof.
  induction ids as [|id rest IH]; simpl; [tauto|].
  unfold succeeds at 1.
  pose proof (List.filter_length_le completes (reached r rest)) as Hle.
  pose proof (reached_length r rest) as Hlen.
  destruct (snd (init_service r id)) as [[e|]|tick [e|]| |e]; simpl;
    try (split; [intro; lia|discriminate]).
  - rewrite <- IH. split; intro; lia.
  - rewrite <- IH. split; intro; lia.
Qed.

(** A group completes exactly when each of its services succeeds. *)
Lemma group_ok_iff r ids :
  group_ok r ids = true <-> forallb (succeeds r) ids = true.
Proof.
  rewrite group_ok_count, Nat.eqb_eq. apply reached_all_complete.
Qed.

(** *** The end of a run *)

(** The run ends with the first group that does not complete; the
    callback is called with the first error of that group, if it has
    one. *)
Lemma eachSeries_stops r before g after :
  forallb (group_ok r) before = true ->
  group_ok r g = false ->
  eachSeries r (before ++ g :: after)
  = flat_map (fun ids => fst (each r ids)) (before ++ [g])
  /\ callbacks (eachSeries r (before ++ g :: after))
     = reported (group_error r g).
Proof.
  intros Hbefore Hg. induction before as [|g0 before IH]; simpl.
  - pose proof (each_callbacks r g) as Hcb. unfold group_ok in Hg.
    destruct (each r g) as [evs ok]. simpl in *. subst ok.
    rewrite app_nil_r. now split.
  - simpl in Hbefore. apply andb_prop in Hbefore. destruct Hbefore as [H0 Hb].
    destruct (IH Hb) as [IH1 IH2].
    pose proof (each_callbacks r g0) as Hcb.
    pose proof (group_ok_no_error r g0 H0) as Hnone.
    unfold group_ok in H0.
    destruct (each r g0) as [evs ok]. simpl in *. subst ok.
    split; [now rewrite IH1|].
    now rewrite callbacks_app, Hcb, Hnone, IH2.
Qed.

Lemma eachSeries_completes r groups :
  forallb (group_ok r) groups = true ->
  eachSeries r groups
  = flat_map (fun ids => fst (each r ids)) groups ++ [ECallback None].
Proof.
  induction groups as [|g rest IH]; simpl; [reflexivity|].
  intro H. apply andb_prop in H. destruct H as [H0 Hrest].
  unfold group_ok in H0. destruct (each r g) as [evs ok]. simpl in *.
  subst ok. now rewrite IH, app_assoc.
Qed.

(** *** Which error is the first of a group *)

Lemma first_error_in errs e : first_error errs = Some e -> In (Some e) errs.
Proof.
  induction errs as [|[e0|] errs IH]; simpl; [discriminate| |].
  - intro H. inversion H. now left.
  - intro H. right. now apply IH.
Qed.

Lemma first_error_found errs e0 :
  In (Some e0) errs -> exists e, first_error errs = Some e.
Proof.
  induction errs as [|[e1|] errs IH]; simpl; [tauto| |].
  - intros _. now exists e1.
  - intros [H|H]; [discriminate|now apply IH].
Qed.

Lemma immediate_in ds err : In err (immediate ds) <-> In (Completed err) ds.
Proof.
  unfold immediate. rewrite in_flat_map. split.
  - intros (d & Hd & Hin). destruct d; simpl in Hin; try tauto.
    destruct Hin as [->|[]]. exact Hd.
  - intro H. exists (Completed err). split; [exact H|now left].
Qed.

Lemma insert_tick_in t err ws x :
  In x (insert_tick t err ws) <-> x = (t, err) \/ In x ws.
Proof.
  induction ws as [|[t' err'] ws IH]; simpl.
  - split; [intros [H|[]]; now left|intros [H|[]]; now left].
  - destruct (t <? t')%nat; simpl.
    + split; [intros [H|H]; auto|intros [H|H]; auto].
    + rewrite IH. tauto.
Qed.

Lemma deferred_in ds ws x :
  In x (deferred ds ws) <-> In x ws \/ In (Waiting (fst x) (snd x)) ds.
Proof.
  revert ws. induction ds as [|d ds IH]; intro ws; simpl; [tauto|].
  destruct d as [err|tick err| |e]; rewrite IH; try rewrite insert_tick_in.
  - split; [tauto|]. intros [H|[H|H]]; auto. discriminate.
  - split.
    + intros [[->|H]|H]; auto.
    + intros [H|[H|H]]; auto. inversion H. left. left. now destruct x.
  - split; [tauto|]. intros [H|[H|H]]; auto. discriminate.
  - split; [tauto|]. intros [H|[H|H]]; auto. discriminate.
Qed.

Lemma insert_tick_by_tick t err ws :
  by_tick ws -> by_tick (insert_tick t err ws).
Proof.
  induction ws as [|[t' err'] ws IH]; simpl.
  - intros _. split; [intros x []|exact I].
  - intros [Hhead Hrest]. destruct (t <? t')%nat eqn:Hlt; simpl.
    + apply Nat.ltb_lt in Hlt. split; [|now split].
      intros x [<-|Hx]; simpl; [lia|].
      specialize (Hhead x Hx). simpl in Hhead. lia.
    + apply Nat.ltb_ge in Hlt. split; [|now apply IH].
      intros x Hx. apply insert_tick_in in Hx.
      destruct Hx as [->|Hx]; [exact Hlt|now apply Hhead].
Qed.

Lemma deferred_by_tick ds ws : by_tick ws -> by_tick (deferred ds ws).
Proof.
  revert ws. induction ds as [|d ds IH]; intros ws H; simpl; [exact H|].
  destruct d; auto using insert_tick_by_tick.
Qed.

(** In a list in the order of the ticks, the first error is one of the
    earliest. *)
Lemma first_error_earliest ws e :
  by_tick ws -> first_error (map snd ws) = Some e ->
  exists t, In (t, Some e) ws
            /\ forall t' e', In (t', Some e') ws -> t <= t'.
Proof.
  induction ws as [|[t0 [e0|]] ws IH]; simpl; [discriminate| |].
  - intros [Hhead _] H. inversion H; subst. exists t0. split; [now left|].
    intros t' e' [H'|H']; [inversion H'; lia|].
    exact (Hhead _ H').
  - intros [_ Hrest] H. destruct (IH Hrest H) as (t & Hin & Hmin).
    exists t. split; [now right|].
    intros t' e' [H'|H']; [discriminate|now apply (Hmin t' e')].
Qed.

Lemma reached_in r ids d :
  In d (reached r ids) ->
  exists id, In id ids /\ snd (init_service r id) = d.
Proof.
  induction ids as [|id rest IH]; simpl; [tauto|].
  destruct (snd (init_service r id)) eqn:E; simpl; try tauto;
    (intros [<-|H];
     [exists id; split; [now left|exact E]
     |destruct (IH H) as (k & Hk & Hd); exists k; split; [now right|exact Hd]]).
Qed.

Lemma reached_all r ids :
  (forall id, In id ids -> ~ raises r id) ->
  reached r ids = map (fun id => snd (init_service r id)) ids.
Proof.
  induction ids as [|id rest IH]; simpl; [reflexivity|].
  intro Hno. rewrite IH by (intros k Hk; apply Hno; now right).
  destruct (snd (init_service r id)) eqn:E; try reflexivity.
  exfalso. apply (Hno id); [now left|]. now exists e.
Qed.

Lemma reached_app r pre post :
  (forall id, In id pre -> ~ raises r id) ->
  reached r (pre ++ post)
  = map (fun id => snd (init_service r id)) pre ++ reached r post.
Proof.
  induction pre as [|id rest IH]; simpl; [reflexivity|].
  intro Hno. rewrite IH by (intros k Hk; apply Hno; now right).
  destruct (snd (init_service r id)) eqn:E; try reflexivity.
  exfalso. apply (Hno id); [now left|]. now exists e.
Qed.

Lemma reached_raise r pre id post e :
  snd (init_service r id) = Raised e ->
  reached r (pre ++ id :: post) = reached r pre.
Proof.
  intro Hid. induction pre as [|k rest IH]; simpl.
  - now rewrite Hid.
  - rewrite IH. reflexivity.
Qed.

(** The error that a group delivers is one that a service of the group
    reports. *)
Lemma group_error_reported r g e :
  group_error r g = Some e -> exists id, In id g /\ reports r id e.
Proof.
  unfold group_error, completion_order. intro H.
  apply first_error_in, in_app_or in H. destruct H as [H|H].
  - apply immediate_in, reached_in in H. destruct H as (id & Hin & Hd).
    exists id. split; [exact Hin|now left].
  - apply in_map_iff in H. destruct H as ([t err] & Herr & H).
    simpl in Herr. subst err. apply deferred_in in H. simpl in H.
    destruct H as [[]|H]. apply reached_in in H.
    destruct H as (id & Hin & Hd).
    exists id. split; [exact Hin|]. right. now exists t.
Qed.

(** When no iterator throws, a group in which a service reports an error
    delivers one. *)
Lemma group_error_found r g id e0 :
  (forall k, In k g -> ~ raises r k) ->
  In id g -> reports r id e0 ->
  exists e, group_error r g = Some e.
Proof.
  intros Hno Hin Hrep. unfold group_error, completion_order.
  apply (first_error_found _ e0). apply in_or_app.
  rewrite (reached_all r g Hno).
  destruct Hrep as [Hd|[t Hd]].
  - left. apply immediate_in. rewrite <- Hd.
    now apply (in_map (fun id => snd (init_service r id))).
  - right. apply in_map_iff. exists (t, Some e0). split; [reflexivity|].
    apply deferred_in. right. simpl. rewrite <- Hd.
    now apply (in_map (fun id => snd (init_service r id))).
Qed.

(** An error reported during the call of [init] is the first of the group
    when no service before has reported one in its call, or thrown. *)
Lemma group_error_in_call r pre id post e :
  snd (init_service r id) = Completed (Some e) ->
  (forall k, In k pre ->
     ~ raises r k
     /\ forall e', snd (init_service r k) <> Completed (Some e')) ->
  group_error r (pre ++ id :: post) = Some e.
Proof.
  intros Hid Hpre. unfold group_error, completion_order.
  rewrite reached_app by (intros k Hk; now apply Hpre).
  simpl. rewrite Hid. unfold immediate. rewrite flat_map_app. simpl.
  rewrite <- app_assoc, first_error_app.
  replace (first_error (flat_map _ (map _ pre))) with (@None Error);
    [reflexivity|].
  symmetry. clear Hid. induction pre as [|k rest IH]; simpl; [reflexivity|].
  destruct (Hpre k (or_introl eq_refl)) as [_ Hk].
  rewrite first_error_app.
  destruct (snd (init_service r k)) as [[e'|]|t err| |e'] eqn:E; simpl;
    try (apply IH; intros k' Hk'; apply Hpre; now right).
  now destruct (Hk e').
Qed.

(** When no service reports an error during the call of its [init], the
    error of the group is one that is reported at the earliest tick. *)
Lemma group_error_earliest r g e :
  (forall k, In k g -> ~ raises r k) ->
  (forall k e', In k g -> snd (init_service r k) <> Completed (Some e')) ->
  group_error r g = Some e ->
  exists id t,
    In id g
    /\ snd (init_service r id) = Waiting t (Some e)
    /\ forall id' t' e',
         In id' g -> snd (init_service r id') = Waiting t' (Some e') ->
         t <= t'.
Proof.
  intros Hno Hsync. unfold group_error, completion_order.
  rewrite first_error_app.
  destruct (first_error (immediate (reached r g))) as [e1|] eqn:E1.
  - apply first_error_in, immediate_in, reached_in in E1.
    destruct E1 as (k & Hk & Hd). now destruct (Hsync k e1 Hk).
  - intro H.
    destruct (first_error_earliest _ e (deferred_by_tick _ [] I) H)
      as (t & Hin & Hmin).
    apply deferred_in in Hin. simpl in Hin. destruct Hin as [[]|Hin].
    apply reached_in in Hin. destruct Hin as (id & Hid & Hd).
    exists id, t. split; [exact Hid|]. split; [exact Hd|].
    intros id' t' e' Hin' Hd'. apply (Hmin t' e').
    apply deferred_in. right. simpl. rewrite (reached_all r g Hno), <- Hd'.
    now apply (in_map (fun id => snd (init_service r id))).
Qed.

(** *** An exception that leaves the iterator *)

Lemma group_raise_not_ok r pre id post e :
  snd (init_service r id) = Raised e ->
  group_ok r (pre ++ id :: post) = false.
Proof.
  intro Hid. rewrite group_ok_count, (reached_raise r pre id post e Hid).
  apply Nat.eqb_neq.
  pose proof (List.filter_length_le completes (reached r pre)).
  pose proof (reached_length r pre).
  rewrite length_app. simpl. lia.
Qed.

Lemma dispatch_raise r pre id post e st :
  (forall k, In k pre -> ~ raises r k) ->
  snd (init_service r id) = Raised e ->
  In (EUncaught e) (fst (dispatch r (pre ++ id :: post) st)).
Proof.
  intros Hpre Hid. revert st.
  induction pre as [|k rest IH]; intro st; simpl.
  - destruct (init_service r id) as [evs d]. simpl in Hid. subst d. simpl.
    apply in_or_app. right. now left.
  - assert (Hrest : forall st', In (EUncaught e)
                       (fst (dispatch r (rest ++ id :: post) st'))).
    { apply IH. intros k' Hk'. apply Hpre. now right. }
    pose proof (Hpre k (or_introl eq_refl)) as Hk.
    destruct (init_service r k) as [evs d] eqn:E.
    assert (Hd : snd (init_service r k) = d) by now rewrite E.
    destruct d as [err|tick err| |e'].
    + destruct (service_done err st) as [evs1 st1].
      specialize (Hrest st1).
      destruct (dispatch r (rest ++ id :: post) st1) as [evs2 st2].
      simpl in *. apply in_or_app. right. apply in_or_app. now right.
    + match goal with |- context [dispatch r _ ?st'] =>
        specialize (Hrest st');
        destruct (dispatch r (rest ++ id :: post) st') as [evs2 st2] end.
      simpl in *. apply in_or_app. now right.
    + specialize (Hrest st).
      destruct (dispatch r (rest ++ id :: post) st) as [evs2 st2].
      simpl in *. apply in_or_app. now right.
    + exfalso. apply Hk. now exists e'.
Qed.

Lemma each_raise r pre id post e :
  (forall k, In k pre -> ~ raises r k) ->
  snd (init_service r id) = Raised e ->
  In (EUncaught e) (fst (each r (pre ++ id :: post))).
Proof.
  intros Hpre Hid. unfold each.
  pose proof (dispatch_raise r pre id post e (mkEach 0 false []) Hpre Hid) as H.
  destruct (dispatch r (pre ++ id :: post) (mkEach 0 false [])) as [evs1 st1].
  destruct (settle (waiting st1) st1) as [evs2 st2]. simpl in *.
  apply in_or_app. now left.
Qed.

(** *** A service that is a group of its own *)

Lemma each_singleton_run r id :
  each r [id]
  = (fst (init_service r id) ++ service_outcome (snd (init_service r id)),
     succeeds r id).
Proof.
  unfold each, succeeds. simpl.
  destruct (init_service r id) as [evs d]. simpl.
  destruct d as [[e|]|tick [e|]| |e]; simpl; rewrite ?app_nil_r; reflexivity.
Qed.

Lemma started_inits r ids :
  started (flat_map (fun id => fst (init_service r id)) ids)
  = filter (starts r) ids.
Proof.
  induction ids as [|id rest IH]; simpl; [reflexivity|].
  rewrite started_app, init_service_started, IH.
  now destruct (starts r id).
Qed.

Lemma inits_call_nothing_back r ids :
  callbacks (flat_map (fun id => fst (init_service r id)) ids) = [].
Proof.
  induction ids as [|id rest IH]; simpl; [reflexivity|].
  now rewrite callbacks_app, init_service_callbacks, IH.
Qed.

Lemma started_outcome d : started (service_outcome d) = [].
Proof. now destruct d as [[e|]|tick [e|]| |e]. Qed.

Lemma singletons_succeed r ids :
  forallb (group_ok r) (map (fun id => [id]) ids) = forallb (succeeds r) ids.
Proof.
  induction ids as [|id rest IH]; simpl; [reflexivity|].
  unfold group_ok at 1. rewrite each_singleton_run. simpl. now rewrite IH.
Qed.

Lemma flat_map_singletons r ids :
  flat_map (fun g => fst (each r g)) (map (fun id => [id]) ids)
  = flat_map (fun id => fst (init_service r id)
                        ++ service_outcome (snd (init_service r id))) ids.
Proof.
  induction ids as [|id rest IH]; simpl; [reflexivity|].
  now rewrite each_singleton_run, IH.
Qed.

Lemma succeeds_no_outcome r id :
  succeeds r id = true -> service_outcome (snd (init_service r id)) = [].
Proof.
  unfold succeeds.
  now destruct (snd (init_service r id)) as [[e|]|tick [e|]| |e].
Qed.

Lemma flat_map_succeeding r ids :
  forallb (succeeds r) ids = true ->
  flat_map (fun id => fst (init_service r id)
                      ++ service_outcome (snd (init_service r id))) ids
  = flat_map (fun id => fst (init_service r id)) ids.
Proof.
  induction ids as [|id rest IH]; simpl; [reflexivity|].
  intro H. apply andb_prop in H. destruct H as [H0 Hrest].
  now rewrite (succeeds_no_outcome r id H0), app_nil_r, IH.
Qed.

(** With a forced order the run ends with the first service that does not
    succeed: no service after it is started. *)
Lemma eachSeries_forced_stops r before id after :
  forallb (succeeds r) before = true ->
  succeeds r id = false ->
  eachSeries r (map (fun id => [id]) (before ++ id :: after))
  = flat_map (fun k => fst (init_service r k)) (before ++ [id])
    ++ service_outcome (snd (init_service r id)).
Proof.
  intros Hbefore Hid. rewrite map_app. simpl.
  destruct (eachSeries_stops r (map (fun id => [id]) before) [id]
              (map (fun id => [id]) after)) as [H _].
  - now rewrite singletons_succeed.
  - unfold group_ok. now rewrite each_singleton_run.
  - rewrite H, flat_map_app, flat_map_singletons. simpl.
    rewrite each_singleton_run. simpl.
    rewrite (flat_map_succeeding r before Hbefore), flat_map_app. simpl.
    now rewrite !app_nil_r, app_assoc.
Qed.

Lemma eachSeries_forced_run r ids :
  forallb (succeeds r) ids = true ->
  eachSeries r (map (fun id => [id]) ids)
  = flat_map (fun id => fst (init_service r id)) ids ++ [ECallback None].
Proof.
  intro H. rewrite eachSeries_completes by now rewrite singletons_succeed.
  now rewrite flat_map_singletons, (flat_map_succeeding r ids H).
Qed.

End ExecutionFacts.

(* ================================================================== *)
(** ** Theorems on the coercion *)
(* ================================================================== *)

Module SwaggerFacts.
Import JS SwaggerUtil.

Example split_pipes :
  split_string "|" "1|2|3" = ["1"; "2"; "3"].
Proof. reflexivity. Qed.

Example number_of_digit : Number (VString "2") = Some (VNumber 2).
Proof. reflexivity. Qed.

Example number_of_word : Number (VString "1|2|3") = Some VNaN.
Proof. reflexivity. Qed.

Example cast_empty_element :
  cast (Schema (Some "array") None (Some (Schema (Some "integer") None None)))
       (VString "4,,5")
  = Value (VArray [VNumber 4; VNumber 0; VNumber 5]).
Proof. reflexivity. Qed.

(** C9: with the schema {type:"array", collectionFormat:"pipes",
    items:{type:"integer"}} the string "1|2|3" is coerced to the array
    [1,2,3]; and for every item schema and every raw string, the string is
    split on "|" and each element is coerced against the item schema. *)
Theorem C9_pipes_array_of_integers :
  cast (Schema (Some "array") (Some "pipes")
               (Some (Schema (Some "integer") None None)))
       (VString "1|2|3")
  = Value (VArray [VNumber 1; VNumber 2; VNumber 3])
  /\ forall (items : schema) (raw : string),
       cast (Schema (Some "array") (Some "pipes") (Some items)) (VString raw)
       = match cast_each (cast items)
                         (map VString (split_string "|" raw)) with
         | Value ys => Value (VArray ys)
         | TypeError msg => TypeError msg
         | Unmodelled => Unmodelled
         end.
Proof.
  split; [reflexivity|]. intros items raw. reflexivity.
Qed.

Lemma value_is_string_false v str :
  v <> VString str -> value_is_string v str = false.
Proof.
  destruct v; simpl; try reflexivity.
  intro H. apply String.eqb_neq. congruence.
Qed.

(** C10: for a schema of type "boolean", the strings "true" and "false"
    become the booleans, and every other value is returned as it is; so
    are "True", "TRUE" and "1". *)
Theorem C10_boolean_literals_only
    (collectionFormat : option string) (items : option schema) (v : value)
    (Hnot_true : v <> VString "true") (Hnot_false : v <> VString "false") :
  let s := Schema (Some "boolean") collectionFormat items in
  cast s (VString "true") = Value (VBool true)
  /\ cast s (VString "false") = Value (VBool false)
  /\ cast s v = Value v.
Proof.
  simpl. split; [reflexivity|]. split; [reflexivity|].
  unfold cast. simpl.
  now rewrite !value_is_string_false.
Qed.

Lemma C10_capitalized_stays_string :
  cast (Schema (Some "boolean") None None) (VString "True")
  = Value (VString "True")
  /\ cast (Schema (Some "boolean") None None) (VString "TRUE")
     = Value (VString "TRUE")
  /\ cast (Schema (Some "boolean") None None) (VString "1")
     = Value (VString "1").
Proof.
  split; [|split].
  - apply (C10_boolean_literals_only None None (VString "True"));
      discriminate.
  - apply (C10_boolean_literals_only None None (VString "TRUE"));
      discriminate.
  - apply (C10_boolean_literals_only None None (VString "1"));
      discriminate.
Defined.

End SwaggerFacts.

(* ================================================================== *)
(** ** Theorems on the loader *)
(* ================================================================== *)

Module LoaderFacts.
Import Names JS Loader DictFacts ResolutionFacts ExecutionFacts.

(** *** The outcome of a resolution *)

Lemma new_requests_app r r' new :
  requests (loader r') = requests (loader r) ++ new ->
  new_requests r r' = new.
Proof.
  unfold new_requests. intros ->.
  rewrite skipn_app, skipn_all, Nat.sub_diag. reflexivity.
Qed.

Lemma resolution_effect {A} r (res : completion A) r' :
  resolution r res r' ->
  injectedMap r' = injectedMap r
  /\ consumerMap r' = consumerMap r
  /\ (forall k, has_injected r k = true ->
                own (moduleMap r') k = own (moduleMap r) k)
  /\ forall d p, In (d, p) (new_requests r r') -> has_injected r d = false.
Proof.
  intros [n a r1 H|n r1 id depId err r1' H [Hu1 Hu2] Hl].
  - destruct (loads_effect _ _ _ H)
      as (Hi & Hc & _ & _ & _ & Hm & new & Hr & _ & Hnew).
    do 3 (split; [assumption|]).
    rewrite (new_requests_app _ _ _ Hr). intros d p Hin.
    now apply Hnew in Hin.
  - destruct (loads_effect _ _ _ H)
      as (Hi & Hc & _ & _ & _ & Hm & new & Hr & _ & Hnew).
    apply load_fails in Hl.
    destruct Hl as (_ & _ & _ & Lm & _ & Li & Lc & _ & _ & Lr).
    split; [congruence|]. split; [congruence|].
    split; [intros k Hk; rewrite Lm; auto|].
    rewrite (new_requests_app r r1' (new ++ [(depId, id)]))
      by (rewrite Lr, Hr; now rewrite app_assoc).
    intros d p Hin. apply in_app_or in Hin. destruct Hin as [Hin|[Hin|[]]].
    + now apply Hnew in Hin.
    + inversion Hin; subst. now rewrite <- (has_injected_same r r1).
Qed.

(** A load that failed is the last thing a resolution does, and its error
    is what the resolution throws. *)
Lemma resolution_load_failed {A} r (res : completion A) r' depId id :
  resolution r res r' -> load_failed r r' depId id ->
  res = Throw (load_error depId id (cannot_find depId)).
Proof.
  intros Hres (Hin & Hcache & Hsource).
  destruct Hres as [n a r1 H|n r1 id0 depId0 err r1' H [Hu1 Hu2] Hl].
  - exfalso.
    destruct (loads_effect _ _ _ H) as (_ & _ & _ & _ & _ & _ & new & Hr & _ & Hnew).
    rewrite (new_requests_app _ _ _ Hr) in Hin.
    apply Hnew in Hin. tauto.
  - destruct (loads_effect _ _ _ H) as (_ & _ & _ & _ & _ & _ & new & Hr & _ & Hnew).
    apply load_fails in Hl.
    destruct Hl as (-> & _ & _ & _ & _ & _ & _ & _ & Lcache & Lr).
    rewrite (new_requests_app r r1' (new ++ [(depId0, id0)])) in Hin
      by (rewrite Lr, Hr; now rewrite app_assoc).
    apply in_app_or in Hin. destruct Hin as [Hin|[Hin|[]]].
    + exfalso. apply Hnew in Hin. rewrite Lcache in Hcache. tauto.
    + now inversion Hin; subst.
Qed.

Lemma resolution_throws_load_failed {A} r e r' :
  @resolution A r (Throw e) r' ->
  exists depId id,
    load_failed r r' depId id
    /\ e = load_error depId id (cannot_find depId).
Proof.
  intro Hres. inversion Hres as [|n r1 id depId err r1' H Hu Hl]; subst.
  exists depId, id.
  destruct (loads_effect _ _ _ H) as (_ & _ & _ & _ & _ & _ & new & Hr & _ & _).
  apply load_fails in Hl.
  destruct Hl as (-> & Hc & Hs & _ & _ & _ & _ & Ls & Lcache & Lr).
  split; [|reflexivity]. split; [|split; congruence].
  rewrite (new_requests_app r r' (new ++ [(depId, id)]))
    by (rewrite Lr, Hr; now rewrite app_assoc).
  apply in_or_app. right. now left.
Qed.

(** *** The phases of [init] *)

Section Init.
Variable depCalc : list (string * list string) -> completion (list (list string)).

(** [init] always gives a run: the resolution comes to an end. *)
Lemma init_phases initList r :
  exists res,
    fetchUnmetDependencies r = (Some res, snd (fetchUnmetDependencies r))
    /\ resolution r res (snd (fetchUnmetDependencies r))
    /\ init depCalc initList r
       = (Some (run_after_resolution depCalc initList res
                  (snd (fetchUnmetDependencies r))),
          snd (fetchUnmetDependencies r)).
Proof.
  destruct (fetchUnmetDependencies_total r) as (res & r' & Hf & Hres).
  exists res. unfold init. rewrite Hf. simpl.
  split; [reflexivity|]. split; [assumption|].
  destruct res as [[]|err]; simpl; [|reflexivity].
  destruct (calculateDependencyTree depCalc initList r'); reflexivity.
Qed.

End Init.

End LoaderFacts.

(* ================================================================== *)
(** ** The properties of the specification, for the loader *)
(* ================================================================== *)

Module LoaderSpec.
Import Names JS Loader DictFacts ResolutionFacts ExecutionFacts LoaderFacts.
Import Samples.

(** *** Injected objects as dependencies *)

Lemma has_injected_truthy r k obj :
  own (injectedMap r) k = Some obj -> truthy obj = true ->
  has_injected r k = true.
Proof.
  unfold has_injected, dict_get. intros -> H. exact H.
Qed.

(** C1, as the specification states it, fails: "cache" has an injected
    record, the module "api" declares it as a dependency, and [api.init]
    receives the service module registered as "cache", not the injected
    object. *)
Lemma C1_registered_module_is_preferred :
  own (injectedMap injected_over_service) "cache" = Some (VObject 1)
  /\ fst (init DependencyCalc.calcGroups (Some ["api"]) injected_over_service)
     = Some [EInit "api" [module_value cache_module]; ECallback None]
  /\ module_value cache_module <> VObject 1.
Proof.
  split; [reflexivity|]. split; [reflexivity|]. discriminate.
Qed.

(** The resolver tests the injected value, not the presence of the record:
    with [false] injected as "cache", the module "cache" is loaded from
    outside and handed to [api.init]. *)
Example injected_false_is_unmet :
  new_requests injected_false
    (snd (init DependencyCalc.calcGroups (Some ["api"]) injected_false))
  = [("cache", "api")]
  /\ fst (init DependencyCalc.calcGroups (Some ["api"]) injected_false)
     = Some [EInit "api" [module_value cache_module]; ECallback None].
Proof. split; reflexivity. Qed.

(** C1 (amended): for a dependency identifier whose injected value is
    truthy, [init] never asks the external loader for it; and if no
    service module is registered under the same identifier, every module
    that declares it as a dependency receives the injected object as the
    corresponding argument of its [init].  (A module registered under the
    identifier is passed in preference to the injected object.) *)
Theorem C1_injected_dependency_is_used
    (depCalc : list (string * list string) -> completion (list (list string)))
    (initList : option (list string)) (r : Registry)
    (depId : string) (obj : value)
    (Hinjected : own (injectedMap r) depId = Some obj)
    (Htruthy : truthy obj = true) :
  let r' := snd (fetchUnmetDependencies r) in
  exists tr,
    init depCalc initList r = (Some tr, r')
    /\ (forall parentId, ~ In (depId, parentId) (new_requests r r'))
    /\ (dict_get (moduleMap r) depId = Absent ->
        forall id args, In (EInit id args) tr ->
        exists deps,
          own (dependencyMap r') id = Some deps
          /\ List.length args = List.length deps
          /\ forall i, nth_error deps i = Some depId ->
                       nth_error args i = Some obj).
Proof.
  intro r'. subst r'.
  destruct (init_phases depCalc initList r) as (res & Hf & Hres & Hinit).
  set (r' := snd (fetchUnmetDependencies r)) in *.
  pose proof (has_injected_truthy r depId obj Hinjected Htruthy) as Hin.
  destruct (resolution_effect _ _ _ Hres) as (Hi & _ & Hm & Hreq).
  eexists. split; [exact Hinit|]. split.
  - intros parentId Hp. apply Hreq in Hp. congruence.
  - intros Habsent id args Hev.
    apply dict_get_absent_own in Habsent. destruct Habsent as [Hown Hinh].
    assert (Hresolve : resolve_dependency r' depId = obj).
    { unfold resolve_dependency, dict_get.
      rewrite (Hm depId Hin), Hown, Hinh, Hi, Hinjected. reflexivity. }
    unfold run_after_resolution in Hev.
    destruct res as [[]|err]; [|destruct Hev as [Hev|[]]; discriminate].
    destruct (calculateDependencyTree depCalc initList r') as [groups|err];
      [|destruct Hev as [Hev|[]]; discriminate].
    apply eachSeries_inits in Hev. destruct Hev as (deps & Hdeps & ->).
    exists deps. split; [assumption|]. split; [apply length_map|].
    intros i Hi'. rewrite nth_error_map, Hi'. simpl. now rewrite Hresolve.
Qed.

Lemma C1_injected_cache_is_used :
  exists tr,
    init DependencyCalc.calcGroups None injected_over_external
    = (Some tr, snd (fetchUnmetDependencies injected_over_external))
    /\ (forall parentId,
          ~ In ("cache", parentId)
               (new_requests injected_over_external
                  (snd (fetchUnmetDependencies injected_over_external))))
    /\ (forall id args, In (EInit id args) tr ->
        exists deps,
          own (dependencyMap
                 (snd (fetchUnmetDependencies injected_over_external))) id
          = Some deps
          /\ List.length args = List.length deps
          /\ forall i, nth_error deps i = Some "cache" ->
                       nth_error args i = Some (VObject 1)).
Proof.
  destruct (C1_injected_dependency_is_used DependencyCalc.calcGroups None
              injected_over_external "cache" (VObject 1) eq_refl eq_refl)
    as (tr & Hrun & Hrequests & Hargs).
  exists tr. split; [exact Hrun|]. split; [exact Hrequests|].
  exact (Hargs eq_refl).
Defined.

(** *** Errors *)

(** C2, as the specification states it, fails: the asynchronous [init]
    of "mailer" throws before it has called back; no [try] surrounds the
    call, so the error leaves [init] as an exception and the completion
    callback is never called with it. *)
Lemma C2_thrown_error_is_not_delivered :
  fst (init DependencyCalc.calcGroups (Some ["mailer"; "db"]) throwing_async)
  = Some [EInit "mailer" [module_value db_module];
          EUncaught (mkError "no smtp host")]
  /\ callbacks [EInit "mailer" [module_value db_module];
               EUncaught (mkError "no smtp host")] = [].
Proof. split; reflexivity. Qed.

(** C2 (amended): every run of [init] calls the completion callback at
    most once, with one argument.  An error of the resolution of external
    dependencies, or of the graph build, is all the run consists of: one
    call of the callback with it.  When all groups before a group have
    completed and [e] is the first error that a service of that group
    reports (thrown by a synchronous [init], or passed to its callback by
    an asynchronous one), the callback is called exactly once, with [e],
    and the run consists of the groups up to that one: no later group is
    started.  A group completes when each of its services succeeds.  The
    first error of a group is one that a service of the group reports;
    there is one when a service reports an error and no iterator throws;
    an error reported during the call of [init] comes before those
    reported in later turns, the first such in the order of the group;
    and among those reported in later turns an earliest one.  An exception
    that the [init] of a service of the first group throws outside a
    [try] (an asynchronous [init]) leaves the run uncaught: the callback
    is called for it no more than if the group had ended before that
    service, and no later group is started. *)
Theorem C2_reported_error_delivered_once
    (depCalc : list (string * list string) -> completion (list (list string)))
    (initList : option (list string)) (r : Registry) :
  let r' := snd (fetchUnmetDependencies r) in
  exists tr,
    init depCalc initList r = (Some tr, r')
    /\ List.length (callbacks tr) <= 1
    /\ (forall e,
          fst (fetchUnmetDependencies r) = Some (Throw e) ->
          tr = [ECallback (Some e)])
    /\ (forall e,
          fst (fetchUnmetDependencies r) = Some (Normal tt) ->
          calculateDependencyTree depCalc initList r' = Throw e ->
          tr = [ECallback (Some e)])
    /\ (forall before g after e,
          fst (fetchUnmetDependencies r) = Some (Normal tt) ->
          calculateDependencyTree depCalc initList r'
          = Normal (before ++ g :: after) ->
          forallb (group_ok r') before = true ->
          group_error r' g = Some e ->
          callbacks tr = [Some e]
          /\ tr = flat_map (fun ids => fst (each r' ids)) (before ++ [g]))
    /\ (forall g,
          group_ok r' g = true <-> forallb (succeeds r') g = true)
    /\ (forall g e,
          group_error r' g = Some e -> exists id, In id g /\ reports r' id e)
    /\ (forall g id e0,
          (forall k, In k g -> ~ raises r' k) ->
          In id g -> reports r' id e0 ->
          exists e, group_error r' g = Some e)
    /\ (forall pre id post e,
          snd (init_service r' id) = Completed (Some e) ->
          (forall k, In k pre ->
             ~ raises r' k
             /\ forall e', snd (init_service r' k) <> Completed (Some e')) ->
          group_error r' (pre ++ id :: post) = Some e)
    /\ (forall g e,
          (forall k, In k g -> ~ raises r' k) ->
          (forall k e', In k g ->
             snd (init_service r' k) <> Completed (Some e')) ->
          group_error r' g = Some e ->
          exists id t,
            In id g
            /\ snd (init_service r' id) = Waiting t (Some e)
            /\ forall id' t' e',
                 In id' g ->
                 snd (init_service r' id') = Waiting t' (Some e') ->
                 t <= t')
    /\ (forall pre id post after e,
          fst (fetchUnmetDependencies r) = Some (Normal tt) ->
          calculateDependencyTree depCalc initList r'
          = Normal ((pre ++ id :: post) :: after) ->
          (forall k, In k pre -> ~ raises r' k) ->
          starts r' id = true ->
          snd (init_service r' id) = Raised e ->
          In (EUncaught e) tr
          /\ callbacks tr = reported (group_error r' pre)
          /\ tr = fst (each r' (pre ++ id :: post))).
Proof.
  intro r'. subst r'.
  destruct (init_phases depCalc initList r) as (res & Hf & _ & Hinit).
  set (r' := snd (fetchUnmetDependencies r)) in *.
  eexists. split; [exact Hinit|].
  rewrite Hf. simpl. unfold run_after_resolution.
  split; [|split; [|split; [|split; [|split; [|split; [|split; [|split; [|split]]]]]]]].
  - destruct res as [[]|err]; simpl; [|lia].
    destruct (calculateDependencyTree depCalc initList r'); simpl; [|lia].
    apply eachSeries_callbacks_once.
  - intros e He. inversion He; subst. reflexivity.
  - intros e He Hcalc. inversion He; subst. now rewrite Hcalc.
  - intros before g after e He Hcalc Hbefore Hg. inversion He; subst.
    rewrite Hcalc.
    destruct (eachSeries_fails r' before g after e Hbefore Hg) as [H1 H2].
    now split.
  - intro g. apply group_ok_iff.
  - intros g e. apply group_error_reported.
  - intros g id e0. apply group_error_found.
  - intros pre id post e. apply group_error_in_call.
  - intros g e. apply group_error_earliest.
  - intros pre id post after e He Hcalc Hpre _ Hid. inversion He; subst.
    rewrite Hcalc.
    assert (Hstop : eachSeries r' ((pre ++ id :: post) :: after)
                    = fst (each r' (pre ++ id :: post))
                    /\ callbacks (eachSeries r' ((pre ++ id :: post) :: after))
                       = reported (group_error r' (pre ++ id :: post))).
    { pose proof (eachSeries_stops r' [] (pre ++ id :: post) after eq_refl
                    (group_raise_not_ok r' pre id post e Hid)) as Hs.
      cbn [app flat_map] in Hs. now rewrite app_nil_r in Hs. }
    destruct Hstop as [H1 H2].
    split; [rewrite H1; now apply each_raise|].
    split; [|exact H1].
    rewrite H2. unfold group_error.
    now rewrite (reached_raise r' pre id post e Hid).
Qed.

Lemma C2_failing_chain_reports_once :
  (exists tr,
     fst (init DependencyCalc.calcGroups None failing_chain) = Some tr
     /\ callbacks tr = [Some (mkError "no connection")]
     /\ started tr = ["db"; "cache"])
  /\ (exists tr,
        fst (init DependencyCalc.calcGroups None racing) = Some tr
        /\ callbacks tr = [Some (mkError "fast failed")]
        /\ started tr = ["slow"; "fast"])
  /\ (exists tr,
        fst (init DependencyCalc.calcGroups (Some ["mailer"; "db"])
               throwing_async) = Some tr
        /\ In (EUncaught (mkError "no smtp host")) tr
        /\ callbacks tr = []
        /\ started tr = ["mailer"]).
Proof.
  split; [|split].
  - destruct (C2_reported_error_delivered_once
                DependencyCalc.calcGroups None failing_chain)
      as (tr & Hinit & _ & _ & _ & Hexec & _).
    exists tr. split; [now rewrite Hinit|].
    destruct (Hexec [["db"]] ["cache"] [["api"]] (mkError "no connection")
                eq_refl eq_refl eq_refl eq_refl) as [Hcb Htr].
    split; [exact Hcb|]. rewrite Htr. reflexivity.
  - destruct (C2_reported_error_delivered_once
                DependencyCalc.calcGroups None racing)
      as (tr & Hinit & _ & _ & _ & Hexec & _).
    exists tr. split; [now rewrite Hinit|].
    destruct (Hexec [] ["slow"; "fast"] [] (mkError "fast failed")
                eq_refl eq_refl eq_refl eq_refl) as [Hcb Htr].
    split; [exact Hcb|]. rewrite Htr. reflexivity.
  - destruct (C2_reported_error_delivered_once
                DependencyCalc.calcGroups (Some ["mailer"; "db"]) throwing_async)
      as (tr & Hinit & _ & _ & _ & _ & _ & _ & _ & _ & _ & Hraise).
    exists tr. split; [now rewrite Hinit|].
    destruct (Hraise [] "mailer" [] [["db"]] (mkError "no smtp host")
                eq_refl eq_refl (fun k (H : In k []) => match H with end)
                eq_refl eq_refl) as (Hin & Hcb & Htr).
    split; [exact Hin|]. split; [exact Hcb|]. rewrite Htr. reflexivity.
Defined.

(** Of two services of one group that fail in later turns of the event
    loop, the one that reports first decides. *)
Example racing_first_error :
  fst (init DependencyCalc.calcGroups None racing)
  = Some [EInit "slow" []; EInit "fast" [];
          ECallback (Some (mkError "fast failed"))].
Proof. reflexivity. Qed.

(** C4: when the external loader cannot provide a dependency [depId]
    that it is asked for on behalf of the module [id], the run of [init]
    is one call of the completion callback, with an error whose message
    names [depId] and [id]; no service is initialized. *)
Theorem C4_failed_load_is_reported
    (depCalc : list (string * list string) -> completion (list (list string)))
    (initList : option (list string)) (r : Registry)
    (tr : option (list event)) (r' : Registry) (depId id : string)
    (Hrun : init depCalc initList r = (tr, r'))
    (Hfailed : load_failed r r' depId id) :
  tr = Some [ECallback (Some (load_error depId id (cannot_find depId)))]
  /\ message (load_error depId id (cannot_find depId))
     = ("Error loading dependency " ++ depId ++ " for " ++ id
        ++ ": Cannot find module '" ++ depId ++ "'")%string.
Proof.
  split; [|reflexivity].
  destruct (init_phases depCalc initList r) as (res & Hf & Hres & Hinit).
  rewrite Hinit in Hrun. inversion Hrun; subst r' tr. clear Hrun.
  rewrite (resolution_load_failed _ _ _ _ _ Hres Hfailed). reflexivity.
Qed.

Lemma C4_missing_cache_is_reported :
  fst (init DependencyCalc.calcGroups None missing_dependency)
  = Some [ECallback
            (Some (mkError
               "Error loading dependency cache for api: Cannot find module 'cache'"))].
Proof.
  apply (C4_failed_load_is_reported DependencyCalc.calcGroups None
           missing_dependency _
           (snd (init DependencyCalc.calcGroups None missing_dependency))
           "cache" "api").
  - reflexivity.
  - split; [left; reflexivity|split; reflexivity].
Defined.

(** The converse: the resolution throws only the error of a failed
    load. *)
Lemma resolution_error_is_load_error r e :
  fst (fetchUnmetDependencies r) = Some (Throw e) ->
  exists depId id,
    load_failed r (snd (fetchUnmetDependencies r)) depId id
    /\ e = load_error depId id (cannot_find depId).
Proof.
  destruct (fetchUnmetDependencies_total r) as (res & r' & Hf & Hres).
  rewrite Hf. simpl. intro H. inversion H; subst.
  now apply resolution_throws_load_failed in Hres.
Qed.

(** C6: [init(['nope'], callback)] on a loader where nothing is registered
    does not call [callback]: reading [toLoad.init] of the service that
    does not exist raises a TypeError inside the iteration, which no
    [try] of [init] catches. *)
Theorem C6_unregistered_forced_id_throws
    (depCalc : list (string * list string) -> completion (list (list string)))
    (ld : ExternalLoader) :
  init depCalc (Some ["nope"]) (createLoader ld)
  = (Some [EUncaught (undefined_has_no "init")], createLoader ld)
  /\ callbacks [EUncaught (undefined_has_no "init")] = [].
Proof. split; reflexivity. Qed.

(** *** Forced order *)

(** C3: with a forced order, the groups are the singletons of the listed
    identifiers, in the order of the list, whatever the registry holds and
    whatever the dependency calculator would answer; the run is that of
    these groups in series.  The services are started in the order of the
    list, each one after the one before has succeeded: when each one
    succeeds, all of them are started and the callback is called without
    an error; when one does not succeed (it reports an error, never calls
    back, or throws), the services started are those that need [init] up
    to this one, and no service listed after it is started; unless it
    throws, the callback is called with the error it reports, or not at
    all. *)
Theorem C3_forced_order_is_followed
    (depCalc : list (string * list string) -> completion (list (list string)))
    (ids : list string) (r : Registry) :
  let r' := snd (fetchUnmetDependencies r) in
  (forall r0, calculateDependencyTree depCalc (Some ids) r0
              = Normal (map (fun id => [id]) ids))
  /\ exists tr,
       init depCalc (Some ids) r = (Some tr, r')
       /\ (fst (fetchUnmetDependencies r) = Some (Normal tt) ->
           tr = eachSeries r' (map (fun id => [id]) ids))
       /\ (exists rest, filter (starts r') ids = started tr ++ rest)
       /\ (fst (fetchUnmetDependencies r) = Some (Normal tt) ->
           forallb (succeeds r') ids = true ->
           started tr = filter (starts r') ids
           /\ callbacks tr = [None]
           /\ tr = flat_map (fun id => fst (init_service r' id)) ids
                   ++ [ECallback None])
       /\ (forall before id after,
             fst (fetchUnmetDependencies r) = Some (Normal tt) ->
             ids = before ++ id :: after ->
             forallb (succeeds r') before = true ->
             succeeds r' id = false ->
             started tr = filter (starts r') (before ++ [id])
             /\ (~ raises r' id ->
                 let answer :=
                   match snd (init_service r' id) with
                   | Completed (Some e) | Waiting _ (Some e) => [Some e]
                   | _ => []
                   end in
                 callbacks tr = answer
                 /\ tr = flat_map (fun k => fst (init_service r' k))
                                  (before ++ [id])
                         ++ map ECallback answer)).
Proof.
  intro r'. subst r'. split; [reflexivity|].
  destruct (init_phases depCalc (Some ids) r) as (res & Hf & _ & Hinit).
  set (r' := snd (fetchUnmetDependencies r)) in *.
  eexists. split; [exact Hinit|].
  rewrite Hf. simpl. unfold run_after_resolution. simpl.
  split; [|split; [|split]].
  - intro H. inversion H; subst. reflexivity.
  - destruct res as [[]|err].
    + apply eachSeries_forced_prefix.
    + now exists (filter (starts r') ids).
  - intros H Hall. inversion H; subst.
    destruct (eachSeries_forced_all r' ids Hall) as [H1 H2].
    split; [exact H1|]. split; [exact H2|].
    now apply eachSeries_forced_run.
  - intros before id after H -> Hbefore Hid. inversion H; subst.
    rewrite (eachSeries_forced_stops r' before id after Hbefore Hid).
    split.
    + now rewrite started_app, started_inits, started_outcome, app_nil_r.
    + intro Hno. simpl.
      rewrite callbacks_app, inits_call_nothing_back. simpl.
      destruct (snd (init_service r' id)) as [[e|]|tick [e|]| |e] eqn:E;
        simpl; try (now split).
      exfalso. apply Hno. exists e. exact E.
Qed.

Lemma C3_reverse_order_is_followed :
  (exists tr,
     fst (init DependencyCalc.calcGroups (Some ["api"; "db"]) failing_chain)
     = Some tr
     /\ started tr = ["api"; "db"]
     /\ callbacks tr = [None])
  /\ (exists tr,
        fst (init DependencyCalc.calcGroups (Some ["db"; "cache"; "api"])
               failing_chain)
        = Some tr
        /\ started tr = ["db"; "cache"]
        /\ callbacks tr = [Some (mkError "no connection")])
  /\ (exists tr,
        fst (init DependencyCalc.calcGroups (Some ["queue"; "db"]) hanging)
        = Some tr
        /\ started tr = ["queue"]
        /\ tr = [EInit "queue" []]).
Proof.
  split; [|split].
  - destruct (C3_forced_order_is_followed
                DependencyCalc.calcGroups ["api"; "db"] failing_chain)
      as (_ & tr & Hinit & _ & _ & Hall & _).
    exists tr. split; [now rewrite Hinit|].
    destruct (Hall eq_refl eq_refl) as (Hst & Hcb & _). now split.
  - destruct (C3_forced_order_is_followed
                DependencyCalc.calcGroups ["db"; "cache"; "api"] failing_chain)
      as (_ & tr & Hinit & _ & _ & _ & Hstop).
    exists tr. split; [now rewrite Hinit|].
    destruct (Hstop ["db"] "cache" ["api"] eq_refl eq_refl eq_refl eq_refl)
      as [Hst Hrun].
    split; [exact Hst|].
    assert (Hno : ~ raises (snd (fetchUnmetDependencies failing_chain)) "cache")
      by (intros [e He]; discriminate He).
    exact (proj1 (Hrun Hno)).
  - destruct (C3_forced_order_is_followed
                DependencyCalc.calcGroups ["queue"; "db"] hanging)
      as (_ & tr & Hinit & _ & _ & _ & Hstop).
    exists tr. split; [now rewrite Hinit|].
    destruct (Hstop [] "queue" ["db"] eq_refl eq_refl eq_refl eq_refl)
      as [Hst Hrun].
    split; [exact Hst|].
    assert (Hno : ~ raises (snd (fetchUnmetDependencies hanging)) "queue")
      by (intros [e He]; discriminate He).
    exact (proj2 (Hrun Hno)).
Defined.

(** *** Lookup and unload *)




(** C8, as the specification states it, fails: after [unload("foo-bar")]
    the module is still in the registry, and [get] returns it. *)
Lemma C8_unload_keeps_the_module :
  get "foo-bar" (unload "foo-bar" camel_directory)
  = module_value camel_module
  /\ module_value camel_module <> VUndefined.
Proof. split; [reflexivity|discriminate]. Qed.

(** C8 (amended): [unload(id)] leaves the four maps of the registry as
    they are, so [get] answers as before; it asks the external loader to
    forget [id]: nothing is cached for [id] afterwards, and the next load
    of [id] reads the source again. *)
Theorem C8_unload_forgets_the_cached_module (id : string) (r : Registry) :
  moduleMap (unload id r) = moduleMap r
  /\ dependencyMap (unload id r) = dependencyMap r
  /\ injectedMap (unload id r) = injectedMap r
  /\ consumerMap (unload id r) = consumerMap r
  /\ (forall k, get k (unload id r) = get k r)
  /\ loader (unload id r) = subRequire_unload id (loader r)
  /\ own (cache (loader (unload id r))) id = None
  /\ forall parentId,
       fst (subRequire id parentId (loader (unload id r)))
       = match own (source (loader r)) id with
         | Some m => Normal m
         | None => Throw (cannot_find id)
         end.
Proof.
  do 6 (split; [reflexivity|]).
  assert (H : own (cache (loader (unload id r))) id = None)
    by (simpl; apply own_delete_same).
  split; [exact H|].
  intro parentId. unfold subRequire. rewrite H. simpl.
  destruct (own (source (loader r)) id); reflexivity.
Qed.

End LoaderSpec.

(* ================================================================== *)
(** ** More on service names *)
(* ================================================================== *)

Module NamesMore.
Import Names NamesFacts.

Lemma toLowerCase_no_capitals (s : string) : no_capitals (toLowerCase s).
Proof.
  induction s as [|c s IH]; simpl; [exact I|].
  split; [apply lower_char_not_upper|exact IH].
Qed.

Lemma no_capitals_lower (s : string) : no_capitals s -> toLowerCase s = s.
Proof.
  induction s as [|c s IH]; simpl; [reflexivity|].
  intros [Hc Hs]. unfold lower_char. rewrite Hc. now rewrite IH.
Qed.

Lemma no_capitals_dash (s : string) : no_capitals s -> dash_capitals s = s.
Proof.
  induction s as [|c s IH]; simpl; [reflexivity|].
  intros [Hc Hs]. rewrite Hc. now rewrite IH.
Qed.

(** X1: the normalized form of an ASCII name has no capital letter, and
    its only separators are single dashes (no underscore, no white space,
    no two dashes in a row); and the ASCII names of that form are exactly
    those that normalization leaves as they are.  (Outside ASCII the
    code also turns the white space of Unicode into dashes and lowers
    accented capitals, which [is_space] and [lower_char] do not.) *)
Theorem X1_normalized_names_are_canonical (s : string)
    (Hascii : ascii_only s = true) :
  (no_capitals (normalizeServiceName s)
   /\ single_dashes false (normalizeServiceName s))
  /\ (normalizeServiceName s = s <->
      no_capitals s /\ single_dashes false s).
Proof.
  assert (Hcanon : no_capitals (normalizeServiceName s)
                   /\ single_dashes false (normalizeServiceName s)).
  { unfold normalizeServiceName. split.
    - apply toLowerCase_no_capitals.
    - apply toLowerCase_single_dashes, collapse_single_dashes. }
  split; [exact Hcanon|]. split.
  - intro H. now rewrite H in Hcanon.
  - intros [Hcap Hdash]. unfold normalizeServiceName.
    rewrite (no_capitals_dash s Hcap).
    rewrite (collapse_fixes_single_dashes false s Hdash).
    now apply no_capitals_lower.
Qed.

Lemma X1_http_server_is_canonical :
  ascii_only "my_HTTP  server" = true
  /\ normalizeServiceName "my_HTTP  server" = "my-h-t-t-p-server"
  /\ no_capitals (normalizeServiceName "my_HTTP  server")
  /\ single_dashes false (normalizeServiceName "my_HTTP  server")
  /\ (normalizeServiceName "my-h-t-t-p-server" = "my-h-t-t-p-server" <->
      no_capitals "my-h-t-t-p-server"
      /\ single_dashes false "my-h-t-t-p-server").
Proof.
  split; [reflexivity|]. split; [reflexivity|].
  split; [exact (proj1 (proj1 (X1_normalized_names_are_canonical
                                 "my_HTTP  server" eq_refl)))|].
  split; [exact (proj2 (proj1 (X1_normalized_names_are_canonical
                                 "my_HTTP  server" eq_refl)))|].
  exact (proj2 (X1_normalized_names_are_canonical
                  "my-h-t-t-p-server" eq_refl)).
Defined.

Lemma upper_not_separator (c : ascii) :
  is_upper c = true -> is_separator c = false.
Proof. all_chars c; simpl; intro H; try reflexivity; discriminate H. Qed.

Lemma collapse_dash_renamed (f : ascii -> ascii) (b : bool) (s : string) :
  (forall c, is_separator c = true -> is_separator (f c) = true) ->
  (forall c, is_separator c = false -> f c = c) ->
  collapse_separators b (dash_capitals (map_string f s))
  = collapse_separators b (dash_capitals s).
Proof.
  intros Hsep Hfix. revert b. induction s as [|c s IH]; intro b; simpl;
    [reflexivity|].
  destruct (is_separator c) eqn:Hc.
  - assert (Hup : is_upper c = false).
    { destruct (is_upper c) eqn:U; [|reflexivity].
      apply upper_not_separator in U. congruence. }
    assert (Hup' : is_upper (f c) = false).
    { destruct (is_upper (f c)) eqn:U; [|reflexivity].
      apply upper_not_separator in U. rewrite (Hsep c Hc) in U.
      discriminate. }
    rewrite Hup, Hup'. simpl. rewrite (Hsep c Hc), Hc.
    destruct b; now rewrite IH.
  - rewrite (Hfix c Hc).
    destruct (is_upper c); simpl; rewrite ?Hc; now rewrite IH.
Qed.

(** X2: normalization does not see which separators a name is written
    with: replacing separators (dash, underscore, white space) by other
    separators, and nothing else, gives the same normalized name. *)
Theorem X2_normalization_ignores_the_separator
    (f : ascii -> ascii) (s : string)
    (Hsep : forall c, is_separator c = true -> is_separator (f c) = true)
    (Hfix : forall c, is_separator c = false -> f c = c) :
  normalizeServiceName (map_string f s) = normalizeServiceName s.
Proof.
  unfold normalizeServiceName. now rewrite collapse_dash_renamed.
Qed.

Lemma X2_underscores_for_spaces :
  normalizeServiceName "my_service_name"
  = normalizeServiceName "my service name".
Proof.
  apply (X2_normalization_ignores_the_separator
           (fun c => if Ascii.eqb c " " then "_"%char else c)
           "my service name").
  - intros c. all_chars c; simpl; intro H; try reflexivity; discriminate H.
  - intros c. all_chars c; simpl; intro H; try reflexivity; discriminate H.
Defined.

End NamesMore.

(* ================================================================== *)
(** ** More on the coercion *)
(* ================================================================== *)

Module SwaggerMore.
Import JS SwaggerUtil.

(** *** Splitting *)

Lemma append_empty (s : string) : (s ++ EmptyString)%string = s.
Proof. induction s as [|c s IH]; simpl; [reflexivity|now rewrite IH]. Qed.

Lemma append_assoc (a b c : string) :
  ((a ++ b) ++ c)%string = (a ++ (b ++ c))%string.
Proof. induction a as [|x a IH]; simpl; [reflexivity|now rewrite IH]. Qed.

Lemma occurrences_append c a b :
  occurrences c (a ++ b)%string = occurrences c a + occurrences c b.
Proof. induction a as [|x a IH]; simpl; [reflexivity|rewrite IH; lia]. Qed.

Lemma split_on_not_empty c current s : split_on c current s <> [].
Proof.
  revert current. induction s as [|x s IH]; intro current; simpl;
    [discriminate|].
  destruct (Ascii.eqb x c); [discriminate|apply IH].
Qed.

Lemma join_split_on c current s :
  join_with c (split_on c current s) = (current ++ s)%string.
Proof.
  revert current. induction s as [|x s IH]; intro current; simpl.
  - now rewrite append_empty.
  - destruct (Ascii.eqb x c) eqn:E.
    + apply Ascii.eqb_eq in E. subst x.
      specialize (IH EmptyString).
      destruct (split_on c EmptyString s) as [|p ps] eqn:Hs;
        [now apply split_on_not_empty in Hs|].
      change (join_with c (current :: p :: ps))
        with (current ++ String c (join_with c (p :: ps)))%string.
      now rewrite IH.
    + rewrite IH, append_assoc. reflexivity.
Qed.

Lemma split_on_pieces c current s :
  free_of c current ->
  Forall (free_of c) (split_on c current s)
  /\ List.length (split_on c current s) = S (occurrences c s).
Proof.
  revert current. induction s as [|x s IH]; intros current Hfree; simpl.
  - split; [now constructor|reflexivity].
  - destruct (Ascii.eqb x c) eqn:E.
    + destruct (IH EmptyString eq_refl) as [IH1 IH2].
      split; [now constructor|]. simpl. now rewrite IH2.
    + apply IH. unfold free_of in *.
      rewrite occurrences_append, Hfree. simpl. now rewrite E.
Qed.

Lemma split_on_free c current p rest :
  free_of c p ->
  split_on c current (p ++ rest)%string
  = split_on c (current ++ p)%string rest.
Proof.
  revert current. induction p as [|x p IH]; intros current Hfree; simpl.
  - now rewrite append_empty.
  - unfold free_of in Hfree. simpl in Hfree.
    destruct (Ascii.eqb x c) eqn:E; [discriminate|].
    rewrite IH by exact Hfree. now rewrite append_assoc.
Qed.

Lemma split_string_pieces (c : ascii) (s : string) :
  join_with c (split_string c s) = s
  /\ List.length (split_string c s) = S (occurrences c s)
  /\ Forall (free_of c) (split_string c s).
Proof.
  unfold split_string. split; [apply join_split_on|].
  destruct (split_on_pieces c EmptyString s eq_refl) as [H1 H2].
  now split.
Qed.

Lemma split_string_join (c : ascii) (pieces : list string) :
  pieces <> [] -> Forall (free_of c) pieces ->
  split_string c (join_with c pieces) = pieces.
Proof.
  unfold split_string. intros Hsome Hfree.
  induction pieces as [|p rest IH]; [congruence|].
  inversion Hfree as [|? ? Hp Hrest]; subst.
  destruct rest as [|q rest].
  - simpl. rewrite <- (append_empty p) at 1.
    rewrite split_on_free by exact Hp. reflexivity.
  - change (join_with c (p :: q :: rest))
      with (p ++ String c (join_with c (q :: rest)))%string.
    rewrite split_on_free by exact Hp. simpl.
    rewrite Ascii.eqb_refl. f_equal. apply IH; [discriminate|exact Hrest].
Qed.

(** A format of the table is not "multi". *)
Lemma splitChar_parseArray format c (s : string) :
  splitChar format = Own c ->
  parseArray (VString s) format = Value (map VString (split_string c s)).
Proof.
  unfold parseArray. intro H. rewrite H.
  destruct (String.eqb format "multi") eqn:E; [|reflexivity].
  apply String.eqb_eq in E. subst format. discriminate H.
Qed.

(** X3: for each of the collection formats csv, ssv, tsv and pipes,
    [parseArray] loses nothing of a raw string: joining the pieces with
    the separator of the format gives the string back; there is one piece
    more than the string has separators (so the empty string gives one
    empty piece), and no piece contains the separator. *)
Theorem X3_parseArray_pieces_give_the_string_back
    (format : string) (c : ascii) (raw : string)
    (Hformat : splitChar format = Own c) :
  exists pieces,
    parseArray (VString raw) format = Value (map VString pieces)
    /\ join_with c pieces = raw
    /\ List.length pieces = S (occurrences c raw)
    /\ Forall (free_of c) pieces.
Proof.
  exists (split_string c raw).
  split; [now apply splitChar_parseArray|]. apply split_string_pieces.
Qed.

Lemma X3_pieces_of_a_space_separated_string :
  exists pieces,
    parseArray (VString "a  b") "ssv" = Value (map VString pieces)
    /\ join_with " " pieces = "a  b"
    /\ List.length pieces = S (occurrences " " "a  b")
    /\ Forall (free_of " ") pieces.
Proof.
  apply (X3_parseArray_pieces_give_the_string_back "ssv" " " "a  b").
  reflexivity.
Defined.

(** X4: the other way round: pieces that do not contain the separator of
    the format, joined with it, are parsed into the same pieces. *)
Theorem X4_parseArray_of_joined_pieces
    (format : string) (c : ascii) (pieces : list string)
    (Hformat : splitChar format = Own c)
    (Hsome : pieces <> [])
    (Hfree : Forall (free_of c) pieces) :
  parseArray (VString (join_with c pieces)) format
  = Value (map VString pieces).
Proof.
  rewrite (splitChar_parseArray format c _ Hformat).
  now rewrite split_string_join.
Qed.

Lemma X4_three_pieces :
  parseArray (VString (join_with "," ["a"; EmptyString; "b c"])) "csv"
  = Value (map VString ["a"; EmptyString; "b c"]).
Proof.
  apply (X4_parseArray_of_joined_pieces "csv" ","
           ["a"; EmptyString; "b c"]).
  - reflexivity.
  - discriminate.
  - repeat constructor.
Defined.

(** *** Coercion *)

Lemma cast_unfold t cf items v :
  cast (Schema t cf items) v
  = if type_is (Schema t cf items) "number"
       || type_is (Schema t cf items) "integer" then
      match Number v with
      | Some n => if isNaN n then Value v else Value n
      | None => Unmodelled
      end
    else if type_is (Schema t cf items) "boolean" then
      if value_is_string v "true" then Value (VBool true)
      else if value_is_string v "false" then Value (VBool false)
      else Value v
    else if type_is (Schema t cf items) "array" then
      match as_array v (format_of cf) with
      | Value elements =>
          match items with
          | Some item_schema =>
              match cast_each (cast item_schema) elements with
              | Value ys => Value (VArray ys)
              | TypeError msg => TypeError msg
              | Unmodelled => Unmodelled
              end
          | None =>
              match elements with
              | [] => Value (VArray [])
              | _ => TypeError "Cannot read property 'type' of undefined"
              end
          end
      | TypeError msg => TypeError msg
      | Unmodelled => Unmodelled
      end
    else Value v.
Proof. reflexivity. Qed.

Lemma string_to_number_value str n :
  string_to_number str = Some n -> n = VNaN \/ exists z, n = VNumber z.
Proof.
  unfold string_to_number.
  destruct (negb (Names.ascii_only str)); [discriminate|].
  destruct (trim str) as [|c rest].
  - intro H. inversion H. right. now exists 0%Z.
  - destruct (small_decimal _) as [z|].
    + destruct (Ascii.eqb c "-").
      * destruct (z =? 0)%Z; [discriminate|].
        intro H. inversion H. right. now eexists.
      * intro H. inversion H. right. now eexists.
    + destruct (all_chars _ _); [discriminate|].
      intro H. inversion H. now left.
Qed.

Lemma Number_value v n :
  Number v = Some n -> n = VNaN \/ exists z, n = VNumber z.
Proof.
  destruct v; simpl; try discriminate;
    try (intro H; inversion H; subst; (now left) || (right; now eexists)).
  apply string_to_number_value.
Qed.

Lemma cast_each_again (f : value -> coerced value) xs ys :
  (forall x y, f x = Value y -> f y = Value y) ->
  cast_each f xs = Value ys -> cast_each f ys = Value ys.
Proof.
  intro Hf. revert ys. induction xs as [|x xs IH]; intros ys; simpl.
  - intro H. inversion H. reflexivity.
  - destruct (f x) as [y| |] eqn:Hx; try discriminate.
    destruct (cast_each f xs) as [ys'| |]; try discriminate.
    intro H. inversion H; subst. simpl.
    rewrite (Hf x y Hx), (IH ys' eq_refl). reflexivity.
Qed.

Lemma cast_each_length (f : value -> coerced value) xs ys :
  cast_each f xs = Value ys -> List.length ys = List.length xs.
Proof.
  revert ys. induction xs as [|x xs IH]; intros ys; simpl.
  - intro H. inversion H. reflexivity.
  - destruct (f x) as [y| |]; try discriminate.
    destruct (cast_each f xs) as [ys'| |]; try discriminate.
    intro H. inversion H; subst. simpl. now rewrite (IH ys' eq_refl).
Qed.

(** X5: a coerced value is coerced to itself: applying the coercion of a
    schema to its own result changes nothing, for every schema, nested
    arrays included. *)
Theorem X5_cast_of_a_coerced_value (s : schema) (v w : value)
    (Hcast : cast s v = Value w) :
  cast s w = Value w.
Proof.
  revert s v w Hcast. fix IH 1. intros [t cf items] v w.
  rewrite !cast_unfold.
  destruct (type_is _ "number" || type_is _ "integer").
  { destruct (Number v) as [n|] eqn:Hn; [|discriminate].
    destruct (Number_value v n Hn) as [->|[z ->]]; simpl.
    - intro H. inversion H; subst. now rewrite Hn.
    - intro H. inversion H; subst. reflexivity. }
  destruct (type_is _ "boolean").
  { destruct (value_is_string v "true") eqn:T.
    - intro H. inversion H. reflexivity.
    - destruct (value_is_string v "false") eqn:F.
      + intro H. inversion H. reflexivity.
      + intro H. inversion H; subst. now rewrite T, F. }
  destruct (type_is _ "array"); [|intro H; inversion H; reflexivity].
  destruct (as_array v (format_of cf)) as [elements| |]; try discriminate.
  destruct items as [item_schema|].
  - destruct (cast_each (cast item_schema) elements) as [ys| |] eqn:Hys;
      try discriminate.
    intro H. inversion H; subst. simpl.
    rewrite (cast_each_again (cast item_schema) elements ys); [reflexivity| |exact Hys].
    intros x y. apply IH.
  - destruct elements; [|discriminate].
    intro H. inversion H. reflexivity.
Qed.

Lemma X5_coerced_array_again :
  cast (Schema (Some "array") None
               (Some (Schema (Some "integer") None None)))
       (VArray [VNumber 7; VString "q"; VNumber 12])
  = Value (VArray [VNumber 7; VString "q"; VNumber 12]).
Proof.
  apply (X5_cast_of_a_coerced_value _ (VString "7,q,12")). reflexivity.
Defined.

(** *** Numbers *)

Lemma trim_left_keeps c s :
  In c (chars s) -> is_white c = false -> In c (chars (trim_left s)).
Proof.
  induction s as [|x s IH]; simpl; [tauto|].
  intros [->|H] Hc.
  - rewrite Hc. now left.
  - destruct (is_white x); [now apply IH|now right].
Qed.

Lemma trim_right_keeps c s :
  In c (chars s) -> is_white c = false -> In c (chars (trim_right s)).
Proof.
  induction s as [|x s IH]; simpl; [tauto|].
  intros [->|H] Hc.
  - destruct (trim_right s); [rewrite Hc|]; now left.
  - specialize (IH H Hc). destruct (trim_right s); [destruct IH|now right].
Qed.

Lemma trim_left_blank s : all_chars is_white s = true -> trim_left s = EmptyString.
Proof.
  induction s as [|x s IH]; simpl; [reflexivity|].
  intro H. apply andb_prop in H. destruct H as [Hx Hs]. now rewrite Hx, IH.
Qed.

Lemma white_is_ascii c : is_white c = true -> Names.is_ascii c = true.
Proof. now destruct c as [[] [] [] [] [] [] [] []]. Qed.

Lemma blank_is_ascii s :
  all_chars is_white s = true -> Names.ascii_only s = true.
Proof.
  induction s as [|x s IH]; simpl; [reflexivity|].
  intro H. apply andb_prop in H. destruct H as [Hx Hs].
  now rewrite (white_is_ascii x Hx), IH.
Qed.

Lemma digits_value_digits acc s n c :
  digits_value acc s = Some n -> In c (chars s) -> is_digit c = true.
Proof.
  revert acc. induction s as [|x s IH]; intro acc; simpl; [tauto|].
  destruct (is_digit x) eqn:Hx; [|discriminate].
  intros H [->|Hin]; [exact Hx|eauto].
Qed.

Lemma all_chars_in p s c :
  all_chars p s = true -> In c (chars s) -> p c = true.
Proof.
  induction s as [|x s IH]; simpl; [tauto|].
  intro H. apply andb_prop in H. destruct H as [Hx Hs].
  intros [->|Hin]; auto.
Qed.

Lemma digit_is_numeric c : is_digit c = true -> numeric_char c = true.
Proof. unfold numeric_char. now intros ->. Qed.

Lemma sign_is_numeric c :
  Ascii.eqb c "+" || Ascii.eqb c "-" = true -> numeric_char c = true.
Proof.
  intro H. apply orb_prop in H.
  destruct H as [H|H]; apply Ascii.eqb_eq in H; subst; reflexivity.
Qed.

Lemma string_to_number_not_numeric str c :
  Names.ascii_only str = true ->
  In c (chars str) -> numeric_char c = false -> is_white c = false ->
  string_to_number str = Some VNaN.
Proof.
  intros Hascii Hin Hnum Hwhite. unfold string_to_number.
  rewrite Hascii. simpl.
  assert (Ht : In c (chars (trim str))).
  { unfold trim. apply trim_right_keeps; [|exact Hwhite].
    now apply trim_left_keeps. }
  destruct (trim str) as [|c0 rest] eqn:E; [destruct Ht|].
  assert (Hall : all_chars numeric_char (String c0 rest) = false).
  { destruct (all_chars numeric_char (String c0 rest)) eqn:A; [|reflexivity].
    rewrite (all_chars_in _ _ _ A Ht) in Hnum. discriminate. }
  assert (Hsmall : small_decimal
            (if Ascii.eqb c0 "+" || Ascii.eqb c0 "-" then rest
             else String c0 rest) = None).
  { unfold small_decimal.
    destruct ((0 <? _)%nat && (_ <=? 15)%nat); [|reflexivity].
    destruct (digits_value 0 _) as [n|] eqn:D; [|reflexivity].
    exfalso.
    assert (Hd : is_digit c = true).
    { apply (digits_value_digits _ _ _ c D).
      destruct (Ascii.eqb c0 "+" || Ascii.eqb c0 "-") eqn:S; [|exact Ht].
      destruct Ht as [->|Ht]; [|exact Ht].
      apply sign_is_numeric in S. congruence. }
    apply digit_is_numeric in Hd. congruence. }
  now rewrite Hsmall, Hall.
Qed.

(** X6: for a schema of type number or integer, an ASCII string with a
    character that no numeric literal has (and that is not white space)
    cannot be cast to a number, and the coercion returns the original
    string. *)
Theorem X6_unconvertible_string_is_returned
    (s : schema) (raw : string) (c : ascii)
    (Htype : type_is s "number" || type_is s "integer" = true)
    (Hascii : Names.ascii_only raw = true)
    (Hin : In c (chars raw))
    (Hnot_numeric : numeric_char c = false)
    (Hnot_white : is_white c = false) :
  cast s (VString raw) = Value (VString raw).
Proof.
  destruct s as [t cf items]. rewrite cast_unfold, Htype. simpl.
  now rewrite (string_to_number_not_numeric raw c).
Qed.

Lemma X6_a_date_is_no_integer :
  cast (Schema (Some "integer") None None) (VString "2016/01/31")
  = Value (VString "2016/01/31").
Proof.
  apply (X6_unconvertible_string_is_returned _ _ "/"); try reflexivity.
  simpl. tauto.
Defined.

(** X7: for a schema of type number or integer, the empty string and every
    string of white space only is coerced to the number 0. *)
Theorem X7_blank_string_is_zero (s : schema) (raw : string)
    (Htype : type_is s "number" || type_is s "integer" = true)
    (Hblank : all_chars is_white raw = true) :
  cast s (VString raw) = Value (VNumber 0).
Proof.
  destruct s as [t cf items]. rewrite cast_unfold, Htype. simpl.
  unfold string_to_number, trim.
  now rewrite (blank_is_ascii raw Hblank), (trim_left_blank raw Hblank).
Qed.

Lemma X7_empty_parameter_is_zero :
  cast (Schema (Some "number") None None) (VString EmptyString)
  = Value (VNumber 0).
Proof.
  apply X7_blank_string_is_zero; reflexivity.
Defined.

(** *** Arrays *)

(** X8: the coercion for a schema of type array, when it gives a value,
    gives an array, with one element for each element of the raw value:
    as many as the array it is given has, and for a raw string one more
    than the string has separators of the collection format. *)
Theorem X8_array_keeps_every_element
    (cf : option string) (items : option schema) (v w : value)
    (Hcast : cast (Schema (Some "array") cf items) v = Value w) :
  exists ys,
    w = VArray ys
    /\ (forall xs, v = VArray xs -> List.length ys = List.length xs)
    /\ (forall raw c, v = VString raw -> splitChar (format_of cf) = Own c ->
                      List.length ys = S (occurrences c raw)).
Proof.
  rewrite cast_unfold in Hcast. simpl in Hcast.
  assert (Hlen : forall elements, as_array v (format_of cf) = Value elements ->
            exists ys, w = VArray ys /\ List.length ys = List.length elements).
  { intros elements He. rewrite He in Hcast.
    destruct items as [item_schema|].
    - destruct (cast_each (cast item_schema) elements) as [ys| |] eqn:Hys;
        try discriminate.
      inversion Hcast; subst. exists ys. split; [reflexivity|].
      now apply cast_each_length in Hys.
    - destruct elements; [|discriminate]. inversion Hcast. now exists []. }
  destruct (as_array v (format_of cf)) as [elements| |] eqn:He;
    try discriminate.
  destruct (Hlen elements eq_refl) as (ys & -> & Hys).
  exists ys. split; [reflexivity|]. split.
  - intros xs ->. simpl in He. inversion He; subst. exact Hys.
  - intros raw c -> Hc. simpl in He.
    rewrite (splitChar_parseArray _ c raw Hc) in He. inversion He; subst.
    rewrite Hys, length_map.
    apply (split_string_pieces c raw).
Qed.

Lemma X8_three_booleans :
  exists ys,
    VArray [VBool true; VString "no"; VBool false] = VArray ys
    /\ (forall xs, VString "true no false" = VArray xs ->
                   List.length ys = List.length xs)
    /\ (forall raw c, VString "true no false" = VString raw ->
                      splitChar (format_of (Some "ssv")) = Own c ->
                      List.length ys = S (occurrences c raw)).
Proof.
  apply (X8_array_keeps_every_element (Some "ssv")
           (Some (Schema (Some "boolean") None None))
           (VString "true no false")).
  reflexivity.
Defined.

End SwaggerMore.

(* ================================================================== *)
(** ** More on the resolution of external dependencies *)
(* ================================================================== *)

Module ResolutionMore.
Import Names JS Loader DictFacts ResolutionFacts LoaderFacts Samples.

(** *** Enumeration *)

Lemma insert_index_in x n k l :
  x = (n, k) \/ In x l -> In x (insert_index n k l).
Proof.
  induction l as [|[m k'] l IH]; simpl.
  - intros [->|[]]. now left.
  - destruct (n <? m)%N; simpl.
    + intros [->|H]; [now left|now right].
    + intros [->|[H|H]]; [right; apply IH; now left|now left|].
      right. apply IH. now right.
Qed.

Lemma index_keys_complete k n ks :
  In k ks -> array_index k = Some n -> In (n, k) (index_keys ks).
Proof.
  induction ks as [|k0 ks IH]; simpl; [tauto|].
  intros [->|Hin] Hn.
  - rewrite Hn. apply insert_index_in. now left.
  - destruct (array_index k0); [apply insert_index_in; right|]; auto.
Qed.

(** [for (k in d)] enumerates every own property. *)
Lemma own_keys_complete {A : Type} (d : dict A) (k : string) :
  own d k <> None -> In k (own_keys d).
Proof.
  intro H. apply own_in_keys in H. unfold own_keys. apply in_or_app.
  destruct (array_index k) as [n|] eqn:E.
  - left. apply in_map_iff. exists (n, k). split; [reflexivity|].
    now apply index_keys_complete.
  - right. apply filter_In. split; [exact H|]. unfold is_index. now rewrite E.
Qed.

Lemma dict_get_own {A : Type} (d : dict A) k a :
  dict_get d k = Own a -> own d k = Some a.
Proof.
  unfold dict_get. destruct (own d k); [congruence|].
  destruct (inherited k); discriminate.
Qed.

(** *** What a resolution keeps *)

Lemma loads_preserves n r r' :
  loads n r r' ->
  (forall k, own (dependencyMap r) k <> None ->
             own (dependencyMap r') k = own (dependencyMap r) k
             /\ own (moduleMap r') k = own (moduleMap r) k).
Proof.
  induction 1 as [r|n r r1 r' p id H IH [Hu1 Hu2] Hl]; [now split|].
  intros k Hk. destruct (IH k Hk) as [Hd Hm].
  apply load_succeeds in Hl. destruct Hl as (m & Lm & Ld & _).
  assert (Hne : k <> id).
  { intros ->. apply has_dependencies_own in Hu1. congruence. }
  rewrite Lm, Ld, !own_set_other by exact Hne. now split.
Qed.

Lemma resolution_preserves {A} r (res : completion A) r' :
  resolution r res r' ->
  forall k, own (dependencyMap r) k <> None ->
            own (dependencyMap r') k = own (dependencyMap r) k
            /\ own (moduleMap r') k = own (moduleMap r) k.
Proof.
  intros [n a r1 H|n r1 id depId err r1' H Hu Hl] k Hk.
  - exact (loads_preserves _ _ _ H k Hk).
  - destruct (loads_preserves _ _ _ H k Hk) as [Hd Hm].
    apply load_fails in Hl. destruct Hl as (_ & _ & _ & Lm & Ld & _).
    rewrite Lm, Ld. now split.
Qed.

(** X9: the resolution of external dependencies changes nothing that is
    registered: the injected objects and the consumers stay as they are,
    and a module that has dependencies registered keeps them and its
    module record, whether the resolution succeeds or throws. *)
Theorem X9_resolution_keeps_what_is_registered (r : Registry) :
  let r' := snd (fetchUnmetDependencies r) in
  injectedMap r' = injectedMap r
  /\ consumerMap r' = consumerMap r
  /\ (forall k, own (dependencyMap r) k <> None ->
                own (dependencyMap r') k = own (dependencyMap r) k
                /\ own (moduleMap r') k = own (moduleMap r) k)
  /\ (forall k, has_injected r k = true ->
                own (moduleMap r') k = own (moduleMap r) k).
Proof.
  destruct (fetchUnmetDependencies_total r) as (res & r' & Hf & Hres).
  rewrite Hf. simpl.
  destruct (resolution_effect _ _ _ Hres) as (Hi & Hc & Hm & _).
  do 2 (split; [assumption|]). split; [|exact Hm].
  exact (resolution_preserves _ _ _ Hres).
Qed.

(** *** The fixed point *)

Lemma visit_dependencies_settled id deps r r' :
  visit_dependencies id deps false r = (Normal false, r') ->
  r' = r
  /\ forall d, In d deps ->
       has_dependencies r d = true \/ has_injected r d = true.
Proof.
  induction deps as [|depId rest IH]; simpl.
  - intro H. inversion H. split; [reflexivity|]. intros d [].
  - destruct (has_dependencies r depId) eqn:Hd; simpl.
    { intro H. destruct (IH H) as [-> Hall]. split; [reflexivity|].
      intros d [<-|Hin]; auto. }
    destruct (has_injected r depId) eqn:Hi; simpl.
    { intro H. destruct (IH H) as [-> Hall]. split; [reflexivity|].
      intros d [<-|Hin]; auto. }
    destruct (loadExternalModule id depId r) as [[[]|err] r1];
      [|discriminate].
    intro H. apply visit_dependencies_again in H.
    destruct H as (n & _ & H). discriminate H.
Qed.

Lemma visit_modules_settled ids r r' :
  (forall id, In id ids -> own (dependencyMap r) id <> None) ->
  visit_modules ids false r = (Normal false, r') ->
  r' = r
  /\ forall id deps d,
       In id ids -> own (dependencyMap r) id = Some deps -> In d deps ->
       has_dependencies r d = true \/ has_injected r d = true.
Proof.
  induction ids as [|id rest IH]; intro Hown; simpl.
  - intro H. inversion H. split; [reflexivity|]. intros ? ? ? [].
  - destruct (own_is_got (dependencyMap r) id) as [deps Hget];
      [apply Hown; now left|].
    rewrite Hget.
    destruct (visit_dependencies id deps false r) as [[again|err] r1] eqn:Hv;
      [|discriminate].
    intro H.
    assert (again = false).
    { pose proof (visit_dependencies_again _ _ _ _ _ _ Hv) as (n & Hn & _).
      apply visit_modules_again in H.
      - destruct H as (m & _ & H). destruct again; [discriminate H|reflexivity].
      - intros k Hk. apply (loads_effect _ _ _ Hn). apply Hown. now right. }
    subst again. destruct (visit_dependencies_settled _ _ _ _ Hv) as [-> Hdeps].
    destruct (IH (fun k Hk => Hown k (or_intror Hk)) H) as [-> Hrest].
    split; [reflexivity|].
    intros id' deps' d [<-|Hin] Hd Hd'.
    + apply dict_get_own in Hget. rewrite Hget in Hd. inversion Hd; subst.
      now apply Hdeps.
    + eapply Hrest; eauto.
Qed.

Lemma passes_settled fuel r r' :
  fetchUnmetDependencies_passes fuel r = (Some (Normal tt), r') ->
  settled r'.
Proof.
  revert r. induction fuel as [|fuel IH]; intro r; simpl; [discriminate|].
  destruct (visit_modules (own_keys (dependencyMap r)) false r)
    as [[[]|err] r1] eqn:Hv; [apply IH| |discriminate].
  intro H. inversion H; subst r1.
  destruct (visit_modules_settled _ _ _ (@own_keys_own _ _) Hv) as [-> Hall].
  intros id deps d Hid Hd. apply (Hall id deps d); [|exact Hid|exact Hd].
  apply own_keys_complete. congruence.
Qed.



Lemma settled_visit_dependencies id deps runAgain r :
  (forall d, In d deps ->
     has_dependencies r d = true \/ has_injected r d = true) ->
  visit_dependencies id deps runAgain r = (Normal runAgain, r).
Proof.
  induction deps as [|depId rest IH]; intro H; simpl; [reflexivity|].
  destruct (H depId (or_introl eq_refl)) as [-> | ->]; simpl;
    rewrite ?andb_false_r; apply IH; intros d Hd; apply H; now right.
Qed.

Lemma settled_visit_modules ids runAgain r :
  settled r ->
  (forall id, In id ids -> own (dependencyMap r) id <> None) ->
  visit_modules ids runAgain r = (Normal runAgain, r).
Proof.
  intros Hs. induction ids as [|id rest IH]; intro Hown; simpl;
    [reflexivity|].
  destruct (own_is_got (dependencyMap r) id) as [deps Hget];
    [apply Hown; now left|].
  rewrite Hget. apply dict_get_own in Hget.
  rewrite settled_visit_dependencies by (intros d Hd; eapply Hs; eauto).
  apply IH. intros k Hk. apply Hown. now right.
Qed.

(** X11: when no dependency is unmet, [fetchUnmetDependencies] succeeds
    without a request to the external loader and leaves the registry as
    it is; so a second resolution after a successful one does nothing. *)
Theorem X11_settled_registry_is_not_touched (r : Registry)
    (Hsettled : settled r) :
  fetchUnmetDependencies r = (Some (Normal tt), r).
Proof.
  unfold fetchUnmetDependencies, enough_passes. simpl.
  now rewrite (settled_visit_modules _ false r Hsettled (@own_keys_own _ _)).
Qed.

Lemma X11_second_resolution_of_redis :
  fetchUnmetDependencies (snd (fetchUnmetDependencies external_redis))
  = (Some (Normal tt), snd (fetchUnmetDependencies external_redis)).
Proof.
  apply X11_settled_registry_is_not_touched.
  apply (passes_settled (enough_passes external_redis) external_redis).
  reflexivity.
Defined.

(** *** Who the loader is asked for *)

Lemma visit_dependencies_requests id deps runAgain r res r' :
  visit_dependencies id deps runAgain r = (res, r') ->
  exists new,
    requests (loader r') = requests (loader r) ++ new
    /\ forall d p, In (d, p) new -> p = id /\ In d deps.
Proof.
  revert runAgain r. induction deps as [|depId rest IH]; intros ra r; simpl.
  - intro H. inversion H; subst. exists []. rewrite app_nil_r.
    split; [reflexivity|]. intros d p [].
  - assert (Hskip : forall ra0,
              visit_dependencies id rest ra0 r = (res, r') ->
              exists new,
                requests (loader r') = requests (loader r) ++ new
                /\ forall d p, In (d, p) new ->
                     p = id /\ (depId = d \/ In d rest)).
    { intros ra0 H. destruct (IH _ _ H) as (new & Hr & Hnew).
      exists new. split; [exact Hr|]. intros d p Hin.
      destruct (Hnew d p Hin). auto. }
    destruct (has_dependencies r depId); simpl; [apply Hskip|].
    destruct (has_injected r depId); simpl; [apply Hskip|].
    destruct (loadExternalModule id depId r) as [[[]|err] r1] eqn:Hl.
    + apply load_succeeds in Hl.
      destruct Hl as (m & _ & _ & _ & _ & _ & Lr & _).
      intro H. destruct (IH _ _ H) as (new & Hr & Hnew).
      exists ((depId, id) :: new). split.
      * rewrite Hr, Lr, <- app_assoc. reflexivity.
      * intros d p [Hin|Hin]; [inversion Hin; auto|].
        destruct (Hnew d p Hin). auto.
    + apply load_fails in Hl.
      destruct Hl as (_ & _ & _ & _ & _ & _ & _ & _ & _ & Lr).
      intro H. inversion H; subst. exists [(depId, id)].
      split; [exact Lr|]. intros d p [Hin|[]]. inversion Hin; auto.
Qed.

Lemma resolution_keeps_dependencies {A} r (res : completion A) r' k deps :
  resolution r res r' ->
  own (dependencyMap r) k = Some deps -> own (dependencyMap r') k = Some deps.
Proof.
  intros Hres Hk.
  destruct (resolution_preserves _ _ _ Hres k) as [Hd _]; congruence.
Qed.

Lemma visit_modules_requests ids runAgain r res r' :
  (forall id, In id ids -> own (dependencyMap r) id <> None) ->
  visit_modules ids runAgain r = (res, r') ->
  exists new,
    requests (loader r') = requests (loader r) ++ new
    /\ forall d p, In (d, p) new ->
         exists deps, own (dependencyMap r') p = Some deps /\ In d deps.
Proof.
  revert runAgain r. induction ids as [|id rest IH]; intros ra r Hown; simpl.
  - intro H. inversion H; subst. exists []. rewrite app_nil_r.
    split; [reflexivity|]. intros d p [].
  - destruct (own_is_got (dependencyMap r) id) as [deps Hget];
      [apply Hown; now left|].
    rewrite Hget. apply dict_get_own in Hget.
    destruct (visit_dependencies id deps ra r) as [[again|err] r1] eqn:Hv.
    + pose proof (visit_dependencies_resolution _ _ _ _ _ _ Hv) as Hres1.
      destruct (visit_dependencies_requests _ _ _ _ _ _ Hv)
        as (new1 & Hr1 & Hnew1).
      intro H.
      assert (Hown1 : forall k, In k rest -> own (dependencyMap r1) k <> None).
      { intros k Hk. specialize (Hown k (or_intror Hk)).
        destruct (own (dependencyMap r) k) as [v|] eqn:E; [|congruence].
        now rewrite (resolution_keeps_dependencies _ _ _ _ _ Hres1 E). }
      pose proof (visit_modules_resolution _ _ _ _ _ Hown1 H) as Hres2.
      destruct (IH _ _ Hown1 H) as (new2 & Hr2 & Hnew2).
      exists (new1 ++ new2). split.
      * rewrite Hr2, Hr1, app_assoc. reflexivity.
      * intros d p Hin. apply in_app_or in Hin. destruct Hin as [Hin|Hin].
        -- destruct (Hnew1 d p Hin) as [-> Hd]. exists deps. split; [|exact Hd].
           eapply resolution_keeps_dependencies; [exact Hres2|].
           eapply resolution_keeps_dependencies; [exact Hres1|exact Hget].
        -- now apply Hnew2.
    + intro H. inversion H; subst.
      pose proof (visit_dependencies_resolution _ _ _ _ _ _ Hv) as Hres1.
      destruct (visit_dependencies_requests _ _ _ _ _ _ Hv)
        as (new1 & Hr1 & Hnew1).
      exists new1. split; [exact Hr1|].
      intros d p Hin. destruct (Hnew1 d p Hin) as [-> Hd].
      exists deps. split; [|exact Hd].
      eapply resolution_keeps_dependencies; [exact Hres1|exact Hget].
Qed.

Lemma passes_requests fuel r res r' :
  fetchUnmetDependencies_passes fuel r = (Some res, r') ->
  exists new,
    requests (loader r') = requests (loader r) ++ new
    /\ forall d p, In (d, p) new ->
         exists deps, own (dependencyMap r') p = Some deps /\ In d deps.
Proof.
  revert r. induction fuel as [|fuel IH]; intro r; simpl; [discriminate|].
  destruct (visit_modules (own_keys (dependencyMap r)) false r)
    as [[again|err] r1] eqn:Hv.
  - destruct (visit_modules_requests _ _ _ _ _ (@own_keys_own _ _) Hv)
      as (new1 & Hr1 & Hnew1).
    destruct again.
    + intro H. pose proof (passes_resolution _ _ _ _ H) as Hres.
      destruct (IH _ H) as (new2 & Hr2 & Hnew2).
      exists (new1 ++ new2). split.
      * rewrite Hr2, Hr1, app_assoc. reflexivity.
      * intros d p Hin. apply in_app_or in Hin. destruct Hin as [Hin|Hin].
        -- destruct (Hnew1 d p Hin) as (deps & Hd & Hdeps).
           exists deps. split; [|exact Hdeps].
           eapply resolution_keeps_dependencies; eauto.
        -- now apply Hnew2.
    + intro H. inversion H; subst. now exists new1.
  - intro H. inversion H; subst.
    exact (visit_modules_requests _ _ _ _ _ (@own_keys_own _ _) Hv).
Qed.

(** X12: during a resolution the external loader is only asked for a
    dependency on behalf of a module that declares it: for every request
    (depId, id), the module [id] has dependencies registered and [depId]
    is one of them; and [depId] is no injected object. *)
Theorem X12_loader_is_asked_for_declared_dependencies
    (r : Registry) (depId id : string)
    (Hasked : In (depId, id)
                 (new_requests r (snd (fetchUnmetDependencies r)))) :
  (exists deps,
     own (dependencyMap (snd (fetchUnmetDependencies r))) id = Some deps
     /\ In depId deps)
  /\ has_injected r depId = false.
Proof.
  destruct (fetchUnmetDependencies_total r) as (res & r' & Hf & Hres).
  rewrite Hf in *. simpl in *.
  destruct (resolution_effect _ _ _ Hres) as (_ & _ & _ & Hinj).
  split; [|now apply (Hinj depId id)].
  destruct (passes_requests _ _ _ _ Hf) as (new & Hr & Hnew).
  rewrite (new_requests_app _ _ _ Hr) in Hasked. now apply Hnew.
Qed.

Lemma X12_redis_is_asked_for_cache :
  (exists deps,
     own (dependencyMap (snd (fetchUnmetDependencies external_redis))) "cache"
     = Some deps
     /\ In "redis" deps)
  /\ has_injected external_redis "redis" = false.
Proof.
  apply (X12_loader_is_asked_for_declared_dependencies
           external_redis "redis" "cache").
  left. reflexivity.
Defined.

End ResolutionMore.

(* ================================================================== *)
(** ** More on registration *)
(* ================================================================== *)

Module RegistrationMore.
Import Names JS Loader DictFacts Samples.

Lemma dict_set_twice {A : Type} (d : dict A) k a b :
  dict_set k a (dict_set k b d) = dict_set k a d.
Proof.
  induction d as [|[k' a'] d IH]; simpl.
  - now rewrite String.eqb_refl.
  - destruct (String.eqb k k') eqn:E; simpl.
    + now rewrite String.eqb_refl.
    + now rewrite E, IH.
Qed.

(** X13: injecting again under a name that normalizes to the same
    identifier replaces the earlier record: the registry is the one that
    the last [inject] alone gives (as long as the last call gives a list of
    dependencies whenever the earlier one did). *)
Theorem X13_inject_overwrites
    (id1 id2 : string) (obj1 obj2 : value)
    (deps1 deps2 : option (list string)) (r : Registry)
    (Hsame : normalizeServiceName id1 = normalizeServiceName id2)
    (Hdeps : deps2 = None -> deps1 = None) :
  inject id2 obj2 deps2 (inject id1 obj1 deps1 r) = inject id2 obj2 deps2 r.
Proof.
  unfold inject. simpl. rewrite Hsame, dict_set_twice. f_equal.
  destruct deps2 as [ds2|].
  - destruct deps1 as [ds1|]; [apply dict_set_twice|reflexivity].
  - now rewrite (Hdeps eq_refl).
Qed.

Lemma X13_inject_under_two_spellings :
  inject "dataStore" (VObject 2) None
    (inject "data_store" (VObject 1) None (createLoader nothing_to_load))
  = inject "dataStore" (VObject 2) None (createLoader nothing_to_load).
Proof.
  apply X13_inject_overwrites; reflexivity.
Defined.

(** *** [loadServices] *)







End RegistrationMore.

(* ================================================================== *)
(** ** More on the execution of the groups *)
(* ================================================================== *)

Module ExecutionMore.
Import Names JS Loader DictFacts ResolutionFacts ExecutionFacts LoaderFacts.
Import Samples.

(** *** Which services are initialized *)

Lemma init_service_init_event r id i args :
  In (EInit i args) (fst (init_service r id)) ->
  i = id
  /\ has_injected r id = false
  /\ has_consumer r id = false
  /\ exists m, own (moduleMap r) id = Some m.
Proof.
  unfold init_service.
  destruct (has_injected r id || has_consumer r id) eqn:Hskip; [intros []|].
  apply orb_false_elim in Hskip. destruct Hskip as [Hi Hc].
  destruct (dict_get (moduleMap r) id) as [toLoad| |] eqn:Hm; try (intros []).
  unfold dict_get in Hm.
  destruct (own (moduleMap r) id) as [m|] eqn:Hown;
    [|destruct (inherited id); discriminate].
  destruct (dict_get (dependencyMap r) id) as [deps| |]; try (intros []).
  destruct (mod_init toLoad); simpl; intros [H|[]]; inversion H; subst;
    (split; [reflexivity|]); (split; [assumption|]);
    (split; [assumption|]); now exists m.
Qed.

Lemma service_done_no_init err st i args :
  ~ In (EInit i args) (fst (service_done err st)).
Proof.
  destruct err as [e|]; unfold service_done; simpl; [|tauto].
  destruct (delivered st); simpl; [tauto|]. intros [H|[]]. discriminate.
Qed.

Lemma settle_no_init ws st i args : ~ In (EInit i args) (fst (settle ws st)).
Proof.
  revert st. induction ws as [|[t err] ws IH]; intro st; simpl; [tauto|].
  pose proof (service_done_no_init err st i args) as H1.
  destruct (service_done err st) as [evs1 st1].
  specialize (IH st1). destruct (settle ws st1) as [evs2 st2].
  simpl in *. intro H. apply in_app_or in H. tauto.
Qed.

Lemma dispatch_init_origin r ids st i args :
  In (EInit i args) (fst (dispatch r ids st)) ->
  exists id, In id ids /\ In (EInit i args) (fst (init_service r id)).
Proof.
  revert st. induction ids as [|id0 rest IH]; intro st; simpl; [tauto|].
  assert (Hhere : In (EInit i args) (fst (init_service r id0)) ->
            exists id, (id0 = id \/ In id rest)
                       /\ In (EInit i args) (fst (init_service r id)))
    by (intro H; exists id0; auto).
  assert (Hrest : forall st', In (EInit i args) (fst (dispatch r rest st')) ->
            exists id, (id0 = id \/ In id rest)
                       /\ In (EInit i args) (fst (init_service r id))).
  { intros st' H. destruct (IH st' H) as (id & Hin & Hev). exists id. auto. }
  destruct (init_service r id0) as [evs d]. simpl in Hhere.
  destruct d as [err|tick err| |e]; simpl.
  - pose proof (service_done_no_init err st i args) as H1.
    destruct (service_done err st) as [evs1 st1].
    specialize (Hrest st1). destruct (dispatch r rest st1) as [evs2 st2].
    simpl in *. intro H. apply in_app_or in H. destruct H as [H|H]; [auto|].
    apply in_app_or in H. destruct H as [H|H]; [tauto|auto].
  - match goal with |- context [dispatch r rest ?s] => specialize (Hrest s) end.
    destruct (dispatch r rest _) as [evs2 st2]. simpl in *.
    intro H. apply in_app_or in H. destruct H as [H|H]; auto.
  - specialize (Hrest st). destruct (dispatch r rest st) as [evs2 st2].
    simpl in *. intro H. apply in_app_or in H. destruct H as [H|H]; auto.
  - intro H. apply in_app_or in H. destruct H as [H|[H|[]]]; [auto|].
    discriminate.
Qed.

Lemma each_init_origin r ids i args :
  In (EInit i args) (fst (each r ids)) ->
  exists id, In id ids /\ In (EInit i args) (fst (init_service r id)).
Proof.
  unfold each.
  pose proof (dispatch_init_origin r ids (mkEach 0 false []) i args) as Hd.
  destruct (dispatch r ids (mkEach 0 false [])) as [evs1 st1].
  pose proof (settle_no_init (waiting st1) st1 i args) as Hs.
  destruct (settle (waiting st1) st1) as [evs2 st2]. simpl in *.
  intro H. apply in_app_or in H. destruct H as [H|H]; [auto|tauto].
Qed.

Lemma eachSeries_init_origin r groups i args :
  In (EInit i args) (eachSeries r groups) ->
  exists g id, In g groups /\ In id g
               /\ In (EInit i args) (fst (init_service r id)).
Proof.
  induction groups as [|g rest IH]; simpl.
  - intros [H|[]]. discriminate.
  - pose proof (each_init_origin r g i args) as Hg.
    destruct (each r g) as [evs ok]. simpl in *.
    assert (Hhere : In (EInit i args) evs ->
              exists g0 id, (g = g0 \/ In g0 rest) /\ In id g0
                            /\ In (EInit i args) (fst (init_service r id))).
    { intro H. destruct (Hg H) as (id & Hin & Hev). exists g, id. auto. }
    destruct ok; [|exact Hhere].
    intro H. apply in_app_or in H. destruct H as [H|H]; [auto|].
    destruct (IH H) as (g0 & id & Hg0 & Hid & Hev). exists g0, id. auto.
Qed.

(** X15: [init] calls the [init] function of registered service modules
    only: never that of an identifier under which a truthy object is
    injected, or a consumer is registered, even when a service module is
    registered under the same identifier; and only for identifiers that
    the groups contain. *)
Theorem X15_init_skips_injected_and_consumers
    (depCalc : list (string * list string) -> completion (list (list string)))
    (initList : option (list string)) (r : Registry)
    (tr : list event) (id : string) (args : list value)
    (Hrun : fst (init depCalc initList r) = Some tr)
    (Hinit : In (EInit id args) tr) :
  let r' := snd (fetchUnmetDependencies r) in
  has_injected r id = false
  /\ has_consumer r id = false
  /\ (exists m, own (moduleMap r') id = Some m)
  /\ exists groups g,
       calculateDependencyTree depCalc initList r' = Normal groups
       /\ In g groups /\ In id g.
Proof.
  simpl.
  destruct (init_phases depCalc initList r) as (res & Hf & Hres & Hrun').
  rewrite Hrun' in Hrun. simpl in Hrun. inversion Hrun; subst tr. clear Hrun.
  set (r' := snd (fetchUnmetDependencies r)) in *.
  destruct (resolution_effect _ _ _ Hres) as (Hi & Hc & _ & _).
  unfold run_after_resolution in Hinit.
  destruct res as [[]|err]; [|destruct Hinit as [H|[]]; discriminate].
  destruct (calculateDependencyTree depCalc initList r') as [groups|err];
    [|destruct Hinit as [H|[]]; discriminate].
  apply eachSeries_init_origin in Hinit.
  destruct Hinit as (g & id' & Hg & Hid & Hev).
  apply init_service_init_event in Hev.
  destruct Hev as (-> & Hinj & Hcons & Hm).
  split; [now rewrite <- (has_injected_same r r')|].
  split; [unfold has_consumer in *; now rewrite <- Hc|].
  split; [exact Hm|]. now exists groups, g.
Qed.

Lemma X15_injected_cache_is_not_initialized :
  has_injected injected_over_service "api" = false
  /\ has_consumer injected_over_service "api" = false
  /\ (exists m,
        own (moduleMap (snd (fetchUnmetDependencies injected_over_service)))
            "api" = Some m)
  /\ exists groups g,
       calculateDependencyTree DependencyCalc.calcGroups None
         (snd (fetchUnmetDependencies injected_over_service))
       = Normal groups
       /\ In g groups /\ In "api" g.
Proof.
  apply (X15_init_skips_injected_and_consumers DependencyCalc.calcGroups None
           injected_over_service
           [EInit "api" [module_value cache_module]; ECallback None]
           "api" [module_value cache_module]).
  - reflexivity.
  - left. reflexivity.
Defined.

(** *** When the run reports success *)

Lemma eachSeries_success_iff r groups :
  callbacks (eachSeries r groups) = [None]
  <-> forallb (forallb (succeeds r)) groups = true.
Proof.
  induction groups as [|g rest IH]; simpl; [tauto|].
  pose proof (each_callbacks r g) as Hcb.
  pose proof (group_ok_no_error r g) as Hno.
  pose proof (group_ok_iff r g) as Hiff. unfold group_ok in *.
  destruct (each r g) as [evs ok]. simpl in *. destruct ok.
  - rewrite callbacks_app, Hcb, (Hno eq_refl). simpl.
    rewrite (proj1 Hiff eq_refl). simpl. exact IH.
  - rewrite Hcb.
    destruct (forallb (succeeds r) g);
      [discriminate (proj2 Hiff eq_refl)|].
    simpl. split; [|discriminate].
    destruct (group_error r g); simpl; discriminate.
Qed.

(** X16: the completion callback of [init] is called with no error
    exactly when the resolution of external dependencies and the graph
    build succeed and every service of every group completes without an
    error; a service that never calls back, or an exception that escapes,
    leaves the callback uncalled rather than called with success. *)
Theorem X16_success_is_reported_when_all_complete
    (depCalc : list (string * list string) -> completion (list (list string)))
    (initList : option (list string)) (r : Registry) (tr : list event)
    (Hrun : fst (init depCalc initList r) = Some tr) :
  let r' := snd (fetchUnmetDependencies r) in
  callbacks tr = [None]
  <-> (fst (fetchUnmetDependencies r) = Some (Normal tt)
       /\ exists groups,
            calculateDependencyTree depCalc initList r' = Normal groups
            /\ forallb (forallb (succeeds r')) groups = true).
Proof.
  simpl.
  destruct (init_phases depCalc initList r) as (res & Hf & _ & Hrun').
  rewrite Hrun' in Hrun. simpl in Hrun. inversion Hrun; subst tr. clear Hrun.
  rewrite Hf. simpl.
  set (r' := snd (fetchUnmetDependencies r)) in *.
  unfold run_after_resolution.
  destruct res as [[]|err].
  - destruct (calculateDependencyTree depCalc initList r') as [groups|err].
    + rewrite eachSeries_success_iff. split.
      * intro H. split; [reflexivity|]. now exists groups.
      * intros (_ & groups' & Hg & Hall). inversion Hg; subst. exact Hall.
    + split; [discriminate|]. intros (_ & groups & Hg & _). discriminate.
  - split; [discriminate|]. intros [H _]. discriminate.
Qed.

Lemma X16_external_redis_succeeds :
  fst (fetchUnmetDependencies external_redis) = Some (Normal tt)
  /\ exists groups,
       calculateDependencyTree DependencyCalc.calcGroups None
         (snd (fetchUnmetDependencies external_redis)) = Normal groups
       /\ forallb (forallb (succeeds (snd (fetchUnmetDependencies external_redis))))
                  groups = true.
Proof.
  apply (X16_success_is_reported_when_all_complete
           DependencyCalc.calcGroups None external_redis
           [EInit "redis" []; EInit "cache" [VObject 50]; ECallback None]
           eq_refl).
  reflexivity.
Defined.

(** *** The services of one group *)

Lemma dispatch_started r ids st :
  (forall id e, In id ids -> snd (init_service r id) <> Raised e) ->
  started (fst (dispatch r ids st)) = filter (starts r) ids.
Proof.
  revert st. induction ids as [|id rest IH]; intros st Hno; simpl;
    [reflexivity|].
  pose proof (init_service_started r id) as Hst.
  pose proof (Hno id) as Hhere.
  assert (Hrest : forall st', started (fst (dispatch r rest st'))
                              = filter (starts r) rest).
  { intro st'. apply IH. intros k e Hk. apply Hno. now right. }
  destruct (init_service r id) as [evs d]. simpl in *.
  destruct d as [err|tick err| |e]; simpl.
  - pose proof (service_done_effect err st) as (_ & S0 & _).
    destruct (service_done err st) as [evs1 st1].
    specialize (Hrest st1). destruct (dispatch r rest st1) as [evs2 st2].
    simpl in *. rewrite !started_app, Hst, S0, Hrest.
    now destruct (starts r id).
  - match goal with |- context [dispatch r rest ?s] => specialize (Hrest s) end.
    destruct (dispatch r rest _) as [evs2 st2]. simpl in *.
    rewrite started_app, Hst, Hrest. now destruct (starts r id).
  - specialize (Hrest st). destruct (dispatch r rest st) as [evs2 st2].
    simpl in *. rewrite started_app, Hst, Hrest. now destruct (starts r id).
  - exfalso. apply (Hhere e); auto.
Qed.

(** X17: within a group, an error of one service does not keep the others
    from being initialized: unless the iterator itself throws, every
    service of the group that needs initialization is started, in the
    order of the group, whether or not the group fails. *)
Theorem X17_group_members_are_all_started
    (r : Registry) (serviceIds : list string)
    (Hno_throw : forall id e, In id serviceIds ->
                   snd (init_service r id) <> Raised e) :
  started (fst (each r serviceIds)) = filter (starts r) serviceIds.
Proof.
  unfold each.
  pose proof (dispatch_started r serviceIds (mkEach 0 false []) Hno_throw) as Hd.
  destruct (dispatch r serviceIds (mkEach 0 false [])) as [evs1 st1].
  pose proof (settle_effect (waiting st1) st1) as (_ & S0 & _).
  destruct (settle (waiting st1) st1) as [evs2 st2]. simpl in *.
  now rewrite started_app, Hd, S0, app_nil_r.
Qed.

Lemma X17_cache_fails_and_db_is_started :
  started (fst (each failing_chain ["cache"; "db"])) = ["cache"; "db"].
Proof.
  apply (X17_group_members_are_all_started failing_chain ["cache"; "db"]).
  intros id e [<-|[<-|[]]]; discriminate.
Defined.

End ExecutionMore.

(* ================================================================== *)
(** ** More on the dependency graph *)
(* ================================================================== *)

Module GraphMore.
Import Names JS Loader DictFacts ResolutionMore Samples.

Lemma existsb_eqb_in x l : existsb (String.eqb x) l = true <-> In x l.
Proof.
  rewrite existsb_exists. split.
  - intros (y & Hy & E). apply String.eqb_eq in E. now subst.
  - intro H. exists x. split; [exact H|apply String.eqb_refl].
Qed.

Lemma unique_from_spec seen l :
  NoDup (unique_from seen l)
  /\ forall x, In x (unique_from seen l) <-> In x l /\ ~ In x seen.
Proof.
  revert seen. induction l as [|y l IH]; intro seen; simpl.
  - split; [constructor|]. intro x. tauto.
  - destruct (existsb (String.eqb y) seen) eqn:E.
    + apply existsb_eqb_in in E. destruct (IH seen) as [Hnd Hin].
      split; [exact Hnd|]. intro x. rewrite Hin. split.
      * tauto.
      * intros [[<-|Hx] Hs]; tauto.
    + assert (Hy : ~ In y seen).
      { intro H. apply existsb_eqb_in in H. congruence. }
      destruct (IH (y :: seen)) as [Hnd Hin]. split.
      * constructor; [|exact Hnd]. rewrite Hin. simpl. tauto.
      * intro x. simpl. rewrite Hin. simpl.
        destruct (string_dec y x) as [->|Hne]; tauto.
Qed.

Lemma node_of_id r id : fst (node_of r id) = id.
Proof.
  unfold node_of. destruct (dict_get (moduleMap r) id) as [m| |];
    try reflexivity.
  destruct (mod_getDependencies m); reflexivity.
Qed.



(** X19: for a module with a [getDependencies] hook, the edges of its
    node are the normalized names that the hook returns together with the
    registered dependencies, each one once. *)
Theorem X19_dynamic_dependencies_are_merged
    (r : Registry) (id : string) (m : Module)
    (hook : value -> list string)
    (Hmodule : own (moduleMap r) id = Some m)
    (Hhook : mod_getDependencies m = Some hook) :
  let dynamic :=
    normalizeServiceNames
      (hook (lookup_value (dict_get (injectedMap r) "service-loader"))) in
  fst (node_of r id) = id
  /\ NoDup (snd (node_of r id))
  /\ forall d, In d (snd (node_of r id)) <->
               In d dynamic \/ In d (static_dependencies r id).
Proof.
  simpl. split; [apply node_of_id|].
  unfold node_of, dict_get. rewrite Hmodule, Hhook. simpl.
  destruct (unique_from_spec []
              (normalizeServiceNames
                 (hook (lookup_value
                          (match own (injectedMap r) "service-loader" with
                           | Some a => Own a
                           | None => if inherited "service-loader"
                                     then Inherited "service-loader"
                                     else Absent
                           end)))
               ++ static_dependencies r id)) as [Hnd Hin].
  split; [exact Hnd|]. intro d.
  unfold unique. rewrite Hin, in_app_iff. simpl. tauto.
Qed.

Lemma X19_express_edges :
  fst (node_of with_express "express") = "express"
  /\ NoDup (snd (node_of with_express "express"))
  /\ forall d, In d (snd (node_of with_express "express")) <->
               In d ["body-parser"; "config"; "body-parser"]
               \/ In d (static_dependencies with_express "express").
Proof.
  apply (X19_dynamic_dependencies_are_merged with_express "express"
           express_module (fun _ => ["bodyParser"; "config"; "body-parser"]));
    reflexivity.
Defined.

End GraphMore.

(* ================================================================== *)
(** ** Consumers *)
(* ================================================================== *)

Module ConsumersMore.
Import Names NamesFacts JS Loader DictFacts ExecutionFacts ResolutionMore.
Import Samples.

(** *** Registration and lookup *)

Lemma prefix_append (a b : string) : String.prefix a (a ++ b)%string = true.
Proof.
  induction a as [|c a IH]; simpl; [now destruct b|].
  destruct (ascii_dec c c); [exact IH|congruence].
Qed.


Lemma getConsumers_in (prefix : string) (r : Registry) (m : Module) :
  In m (getConsumers prefix r) <->
  exists key, own (consumerMap r) key = Some m
              /\ under_prefix prefix key = true.
Proof.
  unfold getConsumers, consumer_keys. rewrite in_flat_map. split.
  - intros (key & Hkey & Hm). apply filter_In in Hkey. destruct Hkey as [_ Hp].
    exists key. destruct (own (consumerMap r) key) as [m'|]; [|destruct Hm].
    destruct Hm as [->|[]]. now split.
  - intros (key & Hown & Hp). exists key. split.
    + apply filter_In. split; [|exact Hp]. apply own_keys_complete. congruence.
    + rewrite Hown. now left.
Qed.

(** X20: [getConsumers(prefix)] returns exactly the consumers that are
    registered under a key that starts with the prefix and a dot: those
    loaded with this prefix, and also those loaded with a longer prefix
    that starts with it and a dot. *)
Theorem X20_getConsumers_by_prefix (prefix : string) (r : Registry) :
  (forall m,
     In m (getConsumers prefix r) <->
     exists key, own (consumerMap r) key = Some m
                 /\ under_prefix prefix key = true)
  /\ (forall longer modId m,
        own (consumerMap r) (consumer_key (consumer_key prefix longer) modId)
        = Some m ->
        In m (getConsumers prefix r)).
Proof.
  split; [intro m; apply getConsumers_in|].
  intros longer modId m Hown. apply getConsumers_in.
  eexists. split; [exact Hown|].
  unfold under_prefix, consumer_key.
  replace ((prefix ++ "." ++ longer) ++ "." ++ modId)%string
    with ((prefix ++ ".") ++ (longer ++ "." ++ modId))%string
    by (rewrite !SwaggerMore.append_assoc; reflexivity).
  apply prefix_append.
Qed.






(** *** Initialization *)

(** X22: [initConsumers] normalizes the names of a forced list: two lists
    whose names normalize to the same identifiers give the same run. *)
Theorem X22_initConsumers_normalizes_the_list
    (prefix : string) (items1 items2 : list string) (r : Registry)
    (Hsame : map normalizeServiceName items1 = map normalizeServiceName items2) :
  initConsumers prefix (Some items1) r = initConsumers prefix (Some items2) r.
Proof.
  unfold initConsumers, consumer_depList. f_equal.
  rewrite <- (map_map normalizeServiceName (consumer_key prefix) items1).
  rewrite <- (map_map normalizeServiceName (consumer_key prefix) items2).
  now rewrite Hsame.
Qed.

Lemma X22_camel_case_names :
  initConsumers "handlers" (Some ["orderItems"; "Users"]) with_handlers
  = initConsumers "handlers" (Some ["order_items"; "-users"]) with_handlers.
Proof.
  apply X22_initConsumers_normalizes_the_list. reflexivity.
Defined.

Lemma initConsumer_events r id :
  fst (initConsumer r id) = []
  \/ exists args, fst (initConsumer r id) = [EInit id args].
Proof.
  unfold initConsumer.
  destruct (dict_get (consumerMap r) id) as [toLoad| |]; try now left.
  destruct (dict_get (dependencyMap r) id) as [deps| |]; try now left.
  right. destruct (mod_init toLoad); eexists; reflexivity.
Qed.

Lemma initConsumer_callbacks r id : callbacks (fst (initConsumer r id)) = [].
Proof.
  destruct (initConsumer_events r id) as [->|(args & ->)]; reflexivity.
Qed.

Lemma initConsumer_succeeds r id :
  consumer_succeeds r id = true -> started (fst (initConsumer r id)) = [id].
Proof.
  unfold consumer_succeeds, initConsumer.
  destruct (dict_get (consumerMap r) id) as [toLoad| |]; try discriminate.
  destruct (dict_get (dependencyMap r) id) as [deps| |]; try discriminate.
  destruct (mod_init toLoad); reflexivity.
Qed.

Lemma eachSeries_consumers_fails r before id after e :
  forallb (consumer_succeeds r) before = true ->
  consumer_fails r id e ->
  eachSeries_consumers r (before ++ id :: after)
  = flat_map (fun k => fst (initConsumer r k)) (before ++ [id])
    ++ [ECallback (Some e)].
Proof.
  intros Hbefore Hfail. induction before as [|k before IH]; simpl.
  - unfold consumer_fails in Hfail.
    destruct (initConsumer r id) as [evs d]. simpl in *.
    rewrite app_nil_r.
    destruct Hfail as [[tick ->]| ->]; reflexivity.
  - simpl in Hbefore. apply andb_prop in Hbefore. destruct Hbefore as [Hk Hb].
    unfold consumer_succeeds in Hk.
    destruct (initConsumer r k) as [evs d]. simpl in *.
    rewrite (IH Hb), <- app_assoc.
    destruct d as [[e'|]|tick [e'|]| |e']; try discriminate; reflexivity.
Qed.

Lemma callbacks_inits r ids :
  callbacks (flat_map (fun k => fst (initConsumer r k)) ids) = [].
Proof.
  induction ids as [|k ids IH]; simpl; [reflexivity|].
  now rewrite callbacks_app, initConsumer_callbacks, IH.
Qed.

(** X23: [initConsumers] initializes one consumer after the other and
    stops at the first one that reports an error: the callback is called
    once, with that error, and the consumers after it in the list are not
    initialized (the run does not depend on them). *)
Theorem X23_initConsumers_stops_at_the_first_error
    (prefix : string) (initList : option (list string)) (r : Registry)
    (before after : list string) (id : string) (e : Error)
    (Hlist : consumer_depList prefix initList r = before ++ id :: after)
    (Hbefore : forallb (consumer_succeeds r) before = true)
    (Hfails : consumer_fails r id e) :
  callbacks (initConsumers prefix initList r) = [Some e]
  /\ forall after',
       eachSeries_consumers r (before ++ id :: after')
       = initConsumers prefix initList r.
Proof.
  unfold initConsumers. rewrite Hlist. split.
  - rewrite (eachSeries_consumers_fails r before id after e Hbefore Hfails).
    now rewrite callbacks_app, callbacks_inits.
  - intro after'.
    now rewrite !(eachSeries_consumers_fails r before id _ e Hbefore Hfails).
Qed.

Lemma X23_orders_fail_and_users_wait :
  callbacks (initConsumers "handlers" (Some ["orderItems"; "users"])
               with_handlers)
  = [Some (mkError "no orders")]
  /\ forall after',
       eachSeries_consumers with_handlers
         ([] ++ "handlers.order-items" :: after')
       = initConsumers "handlers" (Some ["orderItems"; "users"]) with_handlers.
Proof.
  apply (X23_initConsumers_stops_at_the_first_error "handlers"
           (Some ["orderItems"; "users"]) with_handlers
           [] ["handlers.users"] "handlers.order-items"
           (mkError "no orders")).
  - reflexivity.
  - reflexivity.
  - right. reflexivity.
Defined.

Lemma eachSeries_consumers_all r ids :
  forallb (consumer_succeeds r) ids = true ->
  started (eachSeries_consumers r ids) = ids
  /\ callbacks (eachSeries_consumers r ids) = [None].
Proof.
  induction ids as [|k ids IH]; simpl; [now split|].
  intro H. apply andb_prop in H. destruct H as [Hk Hrest].
  destruct (IH Hrest) as [IH1 IH2].
  pose proof (initConsumer_succeeds r k Hk) as Hst.
  pose proof (initConsumer_callbacks r k) as Hcb.
  unfold consumer_succeeds in Hk.
  destruct (initConsumer r k) as [evs d]. simpl in *.
  destruct d as [[e'|]|tick [e'|]| |e']; try discriminate;
    rewrite started_app, callbacks_app, Hst, Hcb, IH1, IH2; now split.
Qed.

Lemma getConsumers_length prefix r :
  List.length (getConsumers prefix r)
  = List.length (consumer_keys prefix r).
Proof.
  unfold getConsumers, consumer_keys.
  assert (H : forall keys,
            (forall k, In k keys -> own (consumerMap r) k <> None) ->
            List.length
              (flat_map (fun key => match own (consumerMap r) key with
                                    | Some m => [m]
                                    | None => []
                                    end) keys)
            = List.length keys).
  { induction keys as [|k keys IH]; intro Hown; simpl; [reflexivity|].
    rewrite length_app, IH by (intros k' Hk'; apply Hown; now right).
    specialize (Hown k (or_introl eq_refl)).
    destruct (own (consumerMap r) k); [reflexivity|congruence]. }
  apply H. intros k Hk. apply filter_In in Hk. destruct Hk as [Hk _].
  now apply own_keys_own.
Qed.

(** X24: when every consumer of the list succeeds, [initConsumers] calls
    the [init] of each one exactly once, in the order of the list, and then
    the callback without an error; without a forced list these are all
    the consumers that [getConsumers] returns for the prefix. *)
Theorem X24_initConsumers_initializes_each_once
    (prefix : string) (initList : option (list string)) (r : Registry)
    (Hall : forallb (consumer_succeeds r)
                    (consumer_depList prefix initList r) = true) :
  started (initConsumers prefix initList r)
  = consumer_depList prefix initList r
  /\ callbacks (initConsumers prefix initList r) = [None]
  /\ (initList = None ->
      List.length (started (initConsumers prefix initList r))
      = List.length (getConsumers prefix r)).
Proof.
  destruct (eachSeries_consumers_all r _ Hall) as [Hst Hcb].
  unfold initConsumers. split; [exact Hst|]. split; [exact Hcb|].
  intros ->. rewrite Hst. simpl. symmetry. apply getConsumers_length.
Qed.

Lemma X24_two_handlers_in_order :
  started (initConsumers "handlers" None two_handlers)
  = ["handlers.users"; "handlers.order-items"]
  /\ callbacks (initConsumers "handlers" None two_handlers) = [None]
  /\ List.length (started (initConsumers "handlers" None two_handlers))
     = List.length (getConsumers "handlers" two_handlers)
  /\ getConsumers "handlers" two_handlers
     = [users_handler; service 72 "orderItems" ["api"; "cache"]].
Proof.
  pose proof (X24_initConsumers_initializes_each_once "handlers" None
                two_handlers eq_refl) as H.
  split; [exact (proj1 H)|].
  split; [exact (proj1 (proj2 H))|].
  split; [exact (proj2 (proj2 H) eq_refl)|].
  reflexivity.
Defined.

End ConsumersMore.
